(** * Podcast Q&A retrieval engine: a shallow embedding of [lib/ai.ts] and [ai.ts]

    The development follows the two AI-logic files of the repository: the
    "enhanced" [lib/ai.ts] (module [Enhanced]), the "simple" [ai.ts] (module
    [Simple]) and the transcript loader they share (module [Original]); the
    transcript utilities are in module [Transcript].

    - JavaScript numbers are binary64 floats, modelled by Rocq's primitive
      floats, so division by zero, NaN and rounding are those of the program.
    - Strings are sequences of code units, modelled by [string]: the code
      units 0..255.  On these [toLowerCase] and the case-insensitive matcher
      work unit by unit; texts with code units beyond 255, where the real
      [toLowerCase] can change the length of a text (U+0130) and the matcher
      has further pairs (U+212A and k), are outside the development, and
      the statements about case (X8, X9) are statements about texts of
      code units 0..255.
    - Regular expressions run on a backtracking matcher (module [RegExp]);
      section [MatcherFuel] shows that its fuel is never the reason a loop
      ends.
    - Exceptions are explicit in the [completion] monad.
    - The globals of a file are a [State] record, what the process reads from
      outside is an [Env] record.

    Definitions come first, then the vocabulary of the specification, then
    the lemmas and the theorems, one per property (C1 to C10), and after
    them further properties of the code (X1 to X30). *)

From Stdlib Require Import Bool Arith ZArith Lia List Sorted String Ascii.
From Stdlib Require Import DecimalString Uint63 Floats Reals Lra.
From Stdlib Require Import DecimalNat.
Import ListNotations.

Set Warnings "-inexact-float".

Local Open Scope string_scope.
Local Open Scope list_scope.
Local Open Scope bool_scope.
Local Open Scope nat_scope.

(* ================================================================== *)
(** * JavaScript runtime: numbers *)
(* ================================================================== *)

Module JS.

(** A non-negative integer (a length or a count) as a JavaScript number. *)
Definition num (n : nat) : float := PrimFloat.of_uint63 (Uint63.of_Z (Z.of_nat n)).

(** [Math.min(a, b)]: NaN if either argument is NaN, and -0 below +0. *)
Definition Math_min (a b : float) : float :=
  if (PrimFloat.is_nan a || PrimFloat.is_nan b)%bool then PrimFloat.nan
  else if (a <? b)%float then a
  else if (b <? a)%float then b
  else if PrimFloat.get_sign a then a else b.

Definition Math_sqrt (a : float) : float := PrimFloat.sqrt a.

(** [a > b] on numbers. *)
Definition gt (a b : float) : bool := (b <? a)%float.

(* ------------------------------------------------------------------ *)
(** ** Strings *)

Definition code (c : ascii) : nat := nat_of_ascii c.

(** WhiteSpace and LineTerminator code units: what [trim] strips and what
    [\s] matches. *)
Definition is_space (c : ascii) : bool :=
  let n := code c in
  ((9 <=? n) && (n <=? 13) || (n =? 32) || (n =? 160))%bool.

(** LineTerminator code units: what [.] does not match. *)
Definition is_line_terminator (c : ascii) : bool :=
  let n := code c in ((n =? 10) || (n =? 13))%bool.

(** [toLowerCase] of one code unit below 256: the letters A to Z and the
    capitals of the Latin-1 supplement go to their small letters, 32 further
    on; the multiplication sign between them stays. *)
Definition lower_char (c : ascii) : ascii :=
  let n := code c in
  if ((65 <=? n) && (n <=? 90)
      || (192 <=? n) && (n <=? 222) && negb (n =? 215))%bool
  then ascii_of_nat (n + 32) else c.

(** The case-insensitive canonical form of a code unit (upper case). *)
Definition canonicalize (c : ascii) : ascii :=
  let n := code c in
  if ((97 <=? n) && (n <=? 122)
      || (224 <=? n) && (n <=? 254) && negb (n =? 247))%bool
  then ascii_of_nat (n - 32) else c.

(** [s.toLowerCase()] on code units below 256, where it is unit by unit and
    keeps the length.  (Beyond them it is neither: U+0130 becomes two
    units.) *)
Fixpoint toLowerCase (s : string) : string :=
  match s with
  | EmptyString => EmptyString
  | String c s' => String (lower_char c) (toLowerCase s')
  end.

Fixpoint trimStart (s : string) : string :=
  match s with
  | String c s' => if is_space c then trimStart s' else s
  | EmptyString => EmptyString
  end.

(** [trimEnd]: a code unit is kept when it is not a space or when something
    is kept after it. *)
Fixpoint trimEnd (s : string) : string :=
  match s with
  | EmptyString => EmptyString
  | String c s' =>
      match trimEnd s' with
      | EmptyString => if is_space c then EmptyString else String c EmptyString
      | t => String c t
      end
  end.

Definition trim (s : string) : string := trimEnd (trimStart s).

Fixpoint drop (n : nat) (s : string) : string :=
  match n, s with
  | 0, _ => s
  | S n', String _ s' => drop n' s'
  | S _, EmptyString => EmptyString
  end.

Fixpoint take (n : nat) (s : string) : string :=
  match n, s with
  | 0, _ => EmptyString
  | S n', String c s' => String c (take n' s')
  | S _, EmptyString => EmptyString
  end.

(** [s.slice(from, to)] for non-negative bounds. *)
Definition slice (s : string) (from to : nat) : string :=
  take (to - from) (drop from s).

(** [s.slice(-n)]: the last [n] code units. *)
Definition slice_last (s : string) (n : nat) : string :=
  drop (String.length s - n) s.

Fixpoint startsWith (s p : string) : bool :=
  match p, s with
  | EmptyString, _ => true
  | String a p', String b s' => (Ascii.eqb a b && startsWith s' p')%bool
  | String _ _, EmptyString => false
  end.

Fixpoint includes (s sub : string) : bool :=
  (startsWith s sub ||
   match s with
   | EmptyString => false
   | String _ s' => includes s' sub
   end)%bool.

Definition endsWith (s suffix : string) : bool :=
  (String.length suffix <=? String.length s) &&
  String.eqb (drop (String.length s - String.length suffix) s) suffix.

(** [s.replace(pat, '')] with a string pattern: the first occurrence of
    [pat] is removed. *)
Fixpoint remove_first (s pat : string) : string :=
  if startsWith s pat then drop (String.length pat) s
  else match s with
       | EmptyString => EmptyString
       | String c s' => String c (remove_first s' pat)
       end.

(** [arr.join(sep)]. *)
Fixpoint join (sep : string) (l : list string) : string :=
  match l with
  | [] => ""
  | [x] => x
  | x :: l' => (x ++ sep ++ join sep l')%string
  end.

(** Decimal rendering of an array index in a template literal. *)
Definition nat_to_string (n : nat) : string :=
  NilZero.string_of_uint (Nat.to_uint n).

End JS.

(* ================================================================== *)
(** * JavaScript runtime: regular expressions *)
(* ================================================================== *)

(** The backtracking matcher of ECMAScript (its continuation-passing
    semantics), for the constructs the program's regular expressions use;
    the pattern parser behind [new RegExp(word, 'g')] covers the fragment
    described at [RegExp_new]. *)

Module RegExp.

Inductive class_item : Type :=
| CChar (c : ascii)              (* a single code unit *)
| CRange (lo hi : ascii)         (* [lo-hi] *)
| CSpace.                        (* \s *)

Inductive regex : Type :=
| Empty                                            (* the empty alternative *)
| Char (c : ascii)                                 (* a pattern character *)
| Dot                                              (* . *)
| Class (items : list class_item)                  (* [...] and \s *)
| Seq (r1 r2 : regex)
| Alt (r1 r2 : regex)                              (* r1|r2 *)
| Repeat (r : regex) (min : nat) (max : option nat) (greedy : bool)
| Group (n : nat) (r : regex)                      (* n-th capturing group *)
| Lookahead (r : regex)                            (* (?=r) *)
| Bol                                              (* ^ *)
| Eol.                                             (* $ *)

(** Matcher state: the index reached, the input from there on, and the
    captures recorded so far (latest first). *)
Record mstate : Type := MState {
  pos : nat;
  rest : string;
  caps : list (nat * (nat * nat))
}.

Definition cont : Type := mstate -> option mstate.

Definition in_item (it : class_item) (c : ascii) : bool :=
  match it with
  | CChar a => Ascii.eqb a c
  | CRange lo hi => (JS.code lo <=? JS.code c) && (JS.code c <=? JS.code hi)
  | CSpace => JS.is_space c
  end.

Definition all_code_units : list ascii := map ascii_of_nat (seq 0 256).

Section Matcher.

Variable ignoreCase : bool.

Definition char_matches (a c : ascii) : bool :=
  if ignoreCase then Ascii.eqb (JS.canonicalize a) (JS.canonicalize c)
  else Ascii.eqb a c.

Definition class_matches (items : list class_item) (c : ascii) : bool :=
  if ignoreCase
  then existsb (fun a => existsb (fun it => in_item it a) items
                         && Ascii.eqb (JS.canonicalize a) (JS.canonicalize c))
               all_code_units
  else existsb (fun it => in_item it c) items.

(** One code unit, accepted by [p]. *)
Definition step_char (p : ascii -> bool) (x : mstate) (k : cont) : option mstate :=
  match rest x with
  | String c s' => if p c then k (MState (S (pos x)) s' (caps x)) else None
  | EmptyString => None
  end.

(** RepeatMatcher: an iteration that is not required ([min = 0]) and matches
    the empty string is rejected.  Every call either lowers [min] or has
    advanced in the input, so [fuel = min + remaining length + 1] is never
    exhausted (lemma [matcher_repeat_fuel]). *)
Fixpoint repeat_matcher (fuel : nat) (body : mstate -> cont -> option mstate)
    (min : nat) (max : option nat) (greedy : bool)
    (x : mstate) (k : cont) : option mstate :=
  match fuel with
  | 0 => None
  | S fuel' =>
      match max with
      | Some 0 => k x
      | _ =>
          let d : cont := fun y =>
            if (min =? 0) && (pos y =? pos x) then None
            else repeat_matcher fuel' body (Nat.pred min) (option_map Nat.pred max)
                                greedy y k in
          if negb (min =? 0) then body x d
          else if greedy then
            match body x d with
            | Some z => Some z
            | None => k x
            end
          else
            match k x with
            | Some z => Some z
            | None => body x d
            end
      end
  end.

Fixpoint matcher (r : regex) (x : mstate) (k : cont) {struct r} : option mstate :=
  match r with
  | Empty => k x
  | Char a => step_char (char_matches a) x k
  | Dot => step_char (fun c => negb (JS.is_line_terminator c)) x k
  | Class items => step_char (class_matches items) x k
  | Seq r1 r2 => matcher r1 x (fun y => matcher r2 y k)
  | Alt r1 r2 =>
      match matcher r1 x k with
      | Some z => Some z
      | None => matcher r2 x k
      end
  | Repeat r1 min max greedy =>
      repeat_matcher (min + String.length (rest x) + 1) (matcher r1) min max greedy x k
  | Group n r1 =>
      matcher r1 x (fun y => k (MState (pos y) (rest y) ((n, (pos x, pos y)) :: caps y)))
  | Lookahead r1 =>
      match matcher r1 x (fun y => Some y) with
      | Some y => k (MState (pos x) (rest x) (caps y))
      | None => None
      end
  | Bol => if pos x =? 0 then k x else None
  | Eol => match rest x with EmptyString => k x | _ => None end
  end.

(** A match attempt anchored at index [i] of [s]. *)
Definition match_at (r : regex) (s : string) (i : nat) : option mstate :=
  if i <=? String.length s
  then matcher r (MState i (JS.drop i s) []) (fun y => Some y)
  else None.

(** RegExpBuiltinExec without the sticky flag: the first index from
    [lastIndex] on at which the pattern matches; [fuel] counts the indices
    left to try. Returns the start index and the end state. *)
Fixpoint exec_from (fuel : nat) (r : regex) (s : string) (i : nat)
  : option (nat * mstate) :=
  match fuel with
  | 0 => None
  | S fuel' =>
      match match_at r s i with
      | Some y => Some (i, y)
      | None => exec_from fuel' r s (S i)
      end
  end.

Definition exec (r : regex) (s : string) (lastIndex : nat) : option (nat * mstate) :=
  exec_from (String.length s + 1 - lastIndex) r s lastIndex.

(** [r.test(s)] on a freshly created regular expression ([lastIndex = 0]). *)
Definition test (r : regex) (s : string) : bool :=
  match exec r s 0 with Some _ => true | None => false end.

(** [(s.match(r) || []).length] for a global [r]: successive matches, the
    index stepping past an empty match. *)
Fixpoint count_from (fuel : nat) (r : regex) (s : string) (lastIndex : nat) : nat :=
  match fuel with
  | 0 => 0
  | S fuel' =>
      match exec r s lastIndex with
      | None => 0
      | Some (i, y) =>
          S (count_from fuel' r s (if pos y =? i then S (pos y) else pos y))
      end
  end.

Definition match_count (r : regex) (s : string) : nat :=
  count_from (String.length s + 2) r s 0.

(** The text captured by group [n] in end state [y]. *)
Definition capture (s : string) (y : mstate) (n : nat) : option string :=
  match find (fun c => fst c =? n) (caps y) with
  | Some (_, (from, to)) => Some (JS.slice s from to)
  | None => None
  end.

(** [s.split(r)] for a separator without capturing groups: at each index [q]
    a match anchored at [q] that ends beyond the last cut [p] cuts the
    string. *)
Fixpoint split_from (fuel : nat) (r : regex) (s : string) (p q : nat) : list string :=
  match fuel with
  | 0 => []
  | S fuel' =>
      if q <? String.length s then
        match match_at r s q with
        | None => split_from fuel' r s p (S q)
        | Some y =>
            let e := Nat.min (pos y) (String.length s) in
            if e =? p then split_from fuel' r s p (S q)
            else JS.slice s p q :: split_from fuel' r s e e
        end
      else [JS.slice s p (String.length s)]
  end.

Definition split (r : regex) (s : string) : list string :=
  match s with
  | EmptyString => match match_at r s 0 with Some _ => [] | None => [s] end
  | _ => split_from (2 * String.length s + 2) r s 0 0
  end.

End Matcher.

(* ------------------------------------------------------------------ *)
(** ** [new RegExp(pattern)] *)

(** The outcome of compiling a pattern text.  The parser covers pattern
    characters, [.], [^], [$], alternation, capturing and [(?:...)] groups and
    the quantifiers [*], [+], [?] with their lazy forms.  A pattern that
    reaches a backslash, a bracket, a brace or another [(?] form before any
    error is [Unmodelled]: the model does not say what it compiles to. *)
Inductive compiled : Type :=
| Compiled (r : regex)
| SyntaxError
| Unmodelled.

(** A group under construction: finished alternatives and the terms of the
    current alternative, both latest first. *)
Record frame : Type := Frame {
  alts : list regex;
  terms : list regex
}.

Definition seq_of (ts : list regex) : regex :=
  match ts with
  | [] => Empty
  | t :: ts' => fold_left (fun acc u => Seq u acc) ts' t
  end.

Definition close_frame (f : frame) : regex :=
  fold_left (fun acc a => Alt a acc) (alts f) (seq_of (terms f)).

Definition push_term (t : regex) (f : frame) : frame :=
  Frame (alts f) (t :: terms f).

Definition quantify (min : nat) (max : option nat) (greedy : bool) (f : frame) : frame :=
  match terms f with
  | t :: ts => Frame (alts f) (Repeat t min max greedy :: ts)
  | [] => f
  end.

(** One pass over the pattern text.  [stack] holds the enclosing groups with
    their capture number ([None] for [(?:...)]); [quantifiable] tells whether
    the previous term is an atom that may take a quantifier; [ngroups] is the
    number of capturing groups opened so far. *)
Fixpoint parse (s : string) (stack : list (frame * option nat)) (cur : frame)
    (quantifiable : bool) (ngroups : nat) {struct s} : compiled :=
  match s with
  | EmptyString =>
      match stack with
      | [] => Compiled (close_frame cur)
      | _ :: _ => SyntaxError                      (* unterminated group *)
      end
  | String c s' =>
      let quant min max :=
        if quantifiable then
          match s' with
          | String "?" s'' => parse s'' stack (quantify min max false cur) false ngroups
          | _ => parse s' stack (quantify min max true cur) false ngroups
          end
        else SyntaxError                           (* nothing to repeat *) in
      match c with
      | "|"%char => parse s' stack (Frame (seq_of (terms cur) :: alts cur) []) false ngroups
      | "("%char =>
          match s' with
          | String "?" (String ":" s'') => parse s'' ((cur, None) :: stack) (Frame [] []) false ngroups
          | String "?" _ => Unmodelled
          | _ => parse s' ((cur, Some (S ngroups)) :: stack) (Frame [] []) false (S ngroups)
          end
      | ")"%char =>
          match stack with
          | [] => SyntaxError                      (* unmatched ')' *)
          | (parent, g) :: stack' =>
              let body := close_frame cur in
              let atom := match g with Some n => Group n body | None => body end in
              parse s' stack' (push_term atom parent) true ngroups
          end
      | "*"%char => quant 0 None
      | "+"%char => quant 1 None
      | "?"%char => quant 0 (Some 1)
      | "^"%char => parse s' stack (push_term Bol cur) false ngroups
      | "$"%char => parse s' stack (push_term Eol cur) false ngroups
      | "."%char => parse s' stack (push_term Dot cur) true ngroups
      | "\"%char | "["%char | "{"%char => Unmodelled
      | _ => parse s' stack (push_term (Char c) cur) true ngroups
      end
  end.

Definition RegExp_new (pattern : string) : compiled :=
  parse pattern [] (Frame [] []) false 0.

End RegExp.

(* ================================================================== *)
(** * Abrupt completion *)
(* ================================================================== *)

(** The result of running a piece of the program: a value, an uncaught
    [SyntaxError] (the only exception the modelled code raises), or
    [NotModelled] when a pattern outside the parser's fragment was met. *)
Inductive completion (A : Type) : Type :=
| Return (a : A)
| Throw
| NotModelled.

Arguments Return {A} a.
Arguments Throw {A}.
Arguments NotModelled {A}.

Definition bind {A B : Type} (c : completion A) (k : A -> completion B) : completion B :=
  match c with
  | Return a => k a
  | Throw => Throw
  | NotModelled => NotModelled
  end.

Notation "x <- c ;; k" := (bind c (fun x => k))
  (at level 61, c at next level, right associativity).

(** [arr.forEach] with an accumulator threaded through the callback. *)
Fixpoint forEach {A S : Type} (l : list A) (f : S -> A -> completion S) (s : S)
  : completion S :=
  match l with
  | [] => Return s
  | a :: l' => s' <- f s a ;; forEach l' f s'
  end.

(** [arr.map] with a callback that may throw. *)
Fixpoint mapM {A B : Type} (f : A -> completion B) (l : list A) : completion (list B) :=
  match l with
  | [] => Return []
  | a :: l' => b <- f a ;; bs <- mapM f l' ;; Return (b :: bs)
  end.

(** [arr.sort(cmp)]: the stable sort the language prescribes for a
    comparator that orders its arguments consistently, as the score
    differences of this program do (every list it sorts was filtered by a
    [>] test first, so no score is NaN); [x] moves behind [y] only when
    [cmp x y > 0]. *)
Fixpoint sort_insert {A : Type} (cmp : A -> A -> float) (x : A) (l : list A) : list A :=
  match l with
  | [] => [x]
  | y :: l' => if JS.gt (cmp x y) 0 then y :: sort_insert cmp x l' else x :: l
  end.

Fixpoint Array_sort {A : Type} (cmp : A -> A -> float) (l : list A) : list A :=
  match l with
  | [] => []
  | x :: l' => sort_insert cmp x (Array_sort cmp l')
  end.

(* ================================================================== *)
(** * Lexical scoring (both files) *)
(* ================================================================== *)

Module Lexical.

(** The separator [/\s+/]. *)
Definition whitespace_run : RegExp.regex :=
  RegExp.Repeat (RegExp.Class [RegExp.CSpace]) 1 None true.

(** [query.toLowerCase().split(/\s+/).filter(word => word.length > 2)] *)
Definition queryWords (query : string) : list string :=
  filter (fun word => 2 <? String.length word)
         (RegExp.split false whitespace_run (JS.toLowerCase query)).

(** [(text.match(new RegExp(word, 'g')) || []).length] *)
Definition countMatches (text word : string) : completion nat :=
  match RegExp.RegExp_new word with
  | RegExp.Compiled r => Return (RegExp.match_count false r text)
  | RegExp.SyntaxError => Throw
  | RegExp.Unmodelled => NotModelled
  end.

End Lexical.

(* ================================================================== *)
(** * Data model *)
(* ================================================================== *)

Definition vector : Type := list float.

(** [interface Chunk] *)
Module Chunk.
Record t : Type := Make {
  text : string;
  episode : string;
  index : nat;
  embedding : option vector
}.
Definition set_embedding (c : t) (e : vector) : t :=
  Make (text c) (episode c) (index c) (Some e).
End Chunk.

Inductive Speaker : Type := host | guest | unknown.

(** [interface EnhancedChunk]; the display-only fields [episodeTitle] and
    [timestamp], which retrieval never reads, are left out. *)
Module EnhancedChunk.
Record t : Type := Make {
  text : string;
  episode : string;
  speaker : Speaker;
  guestName : option string;
  topics : list string;
  index : nat;
  embedding : option vector;
  context : string
}.
Definition set_embedding (c : t) (e : vector) : t :=
  Make (text c) (episode c) (speaker c) (guestName c) (topics c) (index c)
       (Some e) (context c).
End EnhancedChunk.

Inductive Confidence : Type := high | medium | low.

(** [interface RetrievalResult] *)
Module RetrievalResult.
Record t : Type := Make {
  chunk : EnhancedChunk.t;
  relevanceScore : float;
  confidenceLevel : Confidence;
  matchReason : string
}.
End RetrievalResult.

(** What the process reads from its surroundings: the two credentials, the
    transcript directory (its path, its listing, and the content of each file
    by name; [None] where the call fails), and the embedding provider as a function of the
    text sent ([None] for a non-success status, a malformed payload or a
    transport error). *)
Record Env : Type := {
  GROQ_API_KEY : option string;
  OPENAI_API_KEY : option string;
  transcriptPath : string;
  readdir : option (list string);
  readFile : string -> option string;
  provider : string -> option vector
}.

(** Truthiness of an optional string: defined and not empty. *)
Definition truthy (s : option string) : bool :=
  match s with
  | Some (String _ _) => true
  | _ => false
  end.

(** The filter [c => c.embedding]. *)
Definition has_embedding {A : Type} (embedding : A -> option vector) (c : A) : bool :=
  match embedding c with Some _ => true | None => false end.

(** [arr.includes(x)] on an array of strings. *)
Definition includes_str (l : list string) (x : string) : bool :=
  existsb (String.eqb x) l.

(* ================================================================== *)
(** * Cosine similarity, generic in the arithmetic *)
(* ================================================================== *)

(** The body of [similarity] and [cosineSimilarity] over an arbitrary
    arithmetic, so that the same code can be read over binary64 numbers (what
    runs) and over the reals (what it approximates). *)
Section Cosine.

Variable N : Type.
Variable zero : N.
Variables add mul div : N -> N -> N.
Variable sqrt : N -> N.
Variable gt : N -> N -> bool.

(** The [for] loop: [dot], [magA] and [magB] accumulated index by index. *)
Fixpoint accumulate (a b : list N) (acc : N * N * N) : N * N * N :=
  match a, b with
  | x :: a', y :: b' =>
      let '(dot, magA, magB) := acc in
      accumulate a' b' (add dot (mul x y), add magA (mul x x), add magB (mul y y))
  | _, _ => acc
  end.

Definition similarity_body (a b : list N) : N :=
  let '(dot, magA, magB) := accumulate a b (zero, zero, zero) in
  let magnitude := sqrt (mul magA magB) in
  if gt magnitude zero then div dot magnitude else zero.

(** [similarity(a, b)] *)
Definition similarity_gen (a b : option (list N)) : N :=
  match a, b with
  | Some a, Some b =>
      if negb (List.length a =? List.length b) then zero else similarity_body a b
  | _, _ => zero
  end.

(** [cosineSimilarity(a, b)] *)
Definition cosineSimilarity_gen (a b : option (list N)) : N :=
  match a, b with
  | Some a, Some b =>
      if negb (List.length a =? List.length b) || (List.length a =? 0) then zero
      else similarity_body a b
  | _, _ => zero
  end.

End Cosine.



(** [getEmbedding(text)]: no credential, or a text under 10 characters once
    trimmed, gives nothing; else the provider's answer for the trimmed text. *)
Definition getEmbedding (env : Env) (text : string) : option vector :=
  if negb (truthy (OPENAI_API_KEY env)) then None
  else if String.length (JS.trim text) <? 10 then None
  else provider env (JS.trim text).

(* ================================================================== *)
(** * The original system: load and embed transcripts (both files) *)
(* ================================================================== *)

Module Original.

(** The globals [chunks], [isReady] and [initError]. *)
Record State : Type := {
  chunks : list Chunk.t;
  isReady : bool;
  initError : option string
}.

(** The fixed-width split of one transcript:
    [for (let i = 0; i < content.length; i += chunkSize)], with
    [chunkSize = 500]; [fuel] bounds the number of turns. *)
Fixpoint fixedWidthLoop (fuel : nat) (content episode : string) (i chunkIndex : nat)
  : list Chunk.t :=
  match fuel with
  | 0 => []
  | S fuel' =>
      if i <? String.length content then
        let chunkText := JS.trim (JS.slice content i (i + 500)) in
        if 50 <? String.length chunkText
        then Chunk.Make chunkText episode chunkIndex None
               :: fixedWidthLoop fuel' content episode (i + 500) (S chunkIndex)
        else fixedWidthLoop fuel' content episode (i + 500) chunkIndex
      else []
  end.

Definition fixedWidthChunks (content episode : string) : list Chunk.t :=
  fixedWidthLoop (String.length content) content episode 0 0.

(** One turn of [for (const filename of files)]: an unreadable file is
    logged and passed over, a transcript under 100 characters is skipped. *)
Definition loadFile (env : Env) (acc : list Chunk.t * nat) (filename : string)
  : list Chunk.t * nat :=
  let '(chunks, totalChunks) := acc in
  match readFile env filename with
  | None => acc
  | Some content =>
      if String.length (JS.trim content) <? 100 then acc
      else
        let created := fixedWidthChunks content (JS.remove_first filename ".txt") in
        (chunks ++ created, totalChunks + List.length created)
  end.

(** The bulk embedding loop over [chunksToEmbed], from turn [i] on, with the
    counters [embeddedCount] and [consecutiveFailures]; [embed i text] is
    what the [i]-th call [getEmbedding(chunk.text)] resolves to.  On [break]
    the rest of the list is left as it is. *)
Fixpoint embedLoop (embed : nat -> string -> option vector) (i : nat)
    (chunksToEmbed : list Chunk.t) (embeddedCount consecutiveFailures : nat)
  : list Chunk.t * nat * nat :=
  match chunksToEmbed with
  | [] => ([], embeddedCount, consecutiveFailures)
  | chunk :: rest =>
      match embed i (Chunk.text chunk) with
      | Some embedding =>
          let '(done, n, f) := embedLoop embed (S i) rest (S embeddedCount) 0 in
          (Chunk.set_embedding chunk embedding :: done, n, f)
      | None =>
          let consecutiveFailures := S consecutiveFailures in
          if 5 <=? consecutiveFailures
          then (chunk :: rest, embeddedCount, consecutiveFailures)
          else
            let '(done, n, f) := embedLoop embed (S i) rest embeddedCount consecutiveFailures in
            (chunk :: done, n, f)
      end
  end.

(** [initialize()] *)
Definition initialize (env : Env) (st : State) : State :=
  if isReady st || truthy (initError st) then st
  else
    match readdir env with
    | None =>
        {| chunks := chunks st; isReady := isReady st;
           initError := Some ("Cannot access transcript directory: " ++ transcriptPath env)%string |}
    | Some files =>
        let files := filter (fun f => JS.endsWith f ".txt") files in
        if List.length files =? 0 then
          {| chunks := chunks st; isReady := isReady st;
             initError := Some "No .txt transcript files found" |}
        else
          let '(chunks', totalChunks) := fold_left (loadFile env) files (chunks st, 0) in
          if totalChunks =? 0 then
            {| chunks := chunks'; isReady := isReady st;
               initError := Some "No valid content chunks created from transcripts" |}
          else
            let chunksToEmbed := firstn 50 chunks' in
            let '(embedded, _, _) :=
              embedLoop (fun _ => getEmbedding env) 0 chunksToEmbed 0 0 in
            {| chunks := embedded ++ skipn 50 chunks'; isReady := true;
               initError := initError st |}
    end.

End Original.

(* ================================================================== *)
(** * lib/ai.ts: the enhanced system *)
(* ================================================================== *)

Module Enhanced.

(** [similarity] and [cosineSimilarity] over JavaScript numbers. *)
Definition similarity : option vector -> option vector -> float :=
  similarity_gen float 0%float PrimFloat.add PrimFloat.mul PrimFloat.div JS.Math_sqrt JS.gt.
Definition cosineSimilarity : option vector -> option vector -> float :=
  cosineSimilarity_gen float 0%float PrimFloat.add PrimFloat.mul PrimFloat.div JS.Math_sqrt JS.gt.

(** The table of [extractTopics], each pattern as its source text (flags
    [gi]). *)
Definition topicPatterns : list (string * string) :=
  [ ("real-estate", "real estate|property|housing|construction|builder|apartment|rent");
    ("gaming", "game|gaming|esports|mobile gaming|pc gaming|console|developer");
    ("startup", "startup|entrepreneur|business|company|venture|founder");
    ("fintech", "fintech|financial|banking|payment|wallet|upi|digital payment");
    ("edtech", "education|learning|online course|skill|training|edtech");
    ("food", "restaurant|food|dining|kitchen|chef|delivery|zomato|swiggy");
    ("ev", "electric vehicle|ev|battery|automotive|car|vehicle|charging");
    ("investment", "investment|funding|vc|investor|capital|valuation|ipo");
    ("marketing", "marketing|brand|advertising|content|social media|influencer");
    ("healthcare", "healthcare|medical|hospital|doctor|telemedicine|pharma") ].

(** A regular-expression literal of the fragment, compiled. *)
Definition literal (pattern : string) : RegExp.regex :=
  match RegExp.RegExp_new pattern with
  | RegExp.Compiled r => r
  | _ => RegExp.Empty
  end.

(** [extractTopics(text)]: the topics whose pattern matches somewhere. *)
Definition extractTopics (text : string) : list string :=
  map fst (filter (fun entry => RegExp.test true (literal (snd entry)) text) topicPatterns).

(** [calculateKeywordRelevance(query, text)] *)
Definition calculateKeywordRelevance (query text : string) : completion float :=
  let queryWords := Lexical.queryWords query in
  let textLower := JS.toLowerCase text in
  score <- forEach queryWords (fun score word =>
             matches <- Lexical.countMatches textLower word ;;
             Return (score + JS.num matches * (JS.num (String.length word) / 10))%float)
           0%float ;;
  let score := if JS.includes textLower (JS.toLowerCase query)
               then (score + 2)%float else score in
  Return (JS.Math_min (score / (JS.num (List.length queryWords) * 2))%float 1).

(** [calculateEnhancedRelevance(query, chunk, queryEmbedding)] *)
Definition calculateEnhancedRelevance (query : string) (chunk : EnhancedChunk.t)
    (queryEmbedding : option vector) : completion float :=
  let score := 0%float in
  (* Semantic similarity (40% weight) *)
  let score :=
    match queryEmbedding, EnhancedChunk.embedding chunk with
    | Some _, Some _ =>
        let semanticScore := cosineSimilarity queryEmbedding (EnhancedChunk.embedding chunk) in
        (score + semanticScore * 0.4)%float
    | _, _ => score
    end in
  (* Keyword relevance (30% weight) *)
  keywordScore <- calculateKeywordRelevance query (EnhancedChunk.text chunk) ;;
  let score := (score + keywordScore * 0.3)%float in
  (* Topic alignment (20% weight) *)
  let queryTopics := extractTopics query in
  let topicOverlap :=
    List.length (filter (fun topic => includes_str queryTopics topic) (EnhancedChunk.topics chunk)) in
  let topicScore := if 0 <? List.length queryTopics
                    then (JS.num topicOverlap / JS.num (List.length queryTopics))%float
                    else 0.5%float in
  let score := (score + topicScore * 0.2)%float in
  (* Context relevance (10% weight) *)
  contextScore <- calculateKeywordRelevance query (EnhancedChunk.context chunk) ;;
  let score := (score + contextScore * 0.1)%float in
  Return (JS.Math_min score 1).

(** [determineConfidenceLevel(score, chunk, query)] *)
Definition determineConfidenceLevel (score : float) (chunk : EnhancedChunk.t)
    (query : string) : Confidence :=
  if JS.gt score 0.7 && (0 <? List.length (EnhancedChunk.topics chunk))
     && (let queryTopics := extractTopics query in
         existsb (fun topic => includes_str (EnhancedChunk.topics chunk) topic) queryTopics)
  then high
  else if JS.gt score 0.5 then medium
  else low.

(* ------------------------------------------------------------------ *)
(** ** Enhanced chunking *)

Definition LF : ascii := "010"%char.

(** [/\n\s*\n|\n(?=[A-Z][a-z]*:)/]: a blank line, or a line break before a
    capitalised word and a colon. *)
Definition sectionBoundary : RegExp.regex :=
  RegExp.Alt
    (RegExp.Seq (RegExp.Char LF)
       (RegExp.Seq (RegExp.Repeat (RegExp.Class [RegExp.CSpace]) 0 None true)
                   (RegExp.Char LF)))
    (RegExp.Seq (RegExp.Char LF)
       (RegExp.Lookahead
          (RegExp.Seq (RegExp.Class [RegExp.CRange "A" "Z"])
             (RegExp.Seq (RegExp.Repeat (RegExp.Class [RegExp.CRange "a" "z"]) 0 None true)
                         (RegExp.Char ":"))))).

(** [/[.!?]+/] *)
Definition sentenceEnd : RegExp.regex :=
  RegExp.Repeat (RegExp.Class [RegExp.CChar "."; RegExp.CChar "!"; RegExp.CChar "?"])
                1 None true.

(** [/^([A-Z][a-z\s]+):\s*(.+)/] *)
Definition speakerPattern : RegExp.regex :=
  RegExp.Seq RegExp.Bol
    (RegExp.Seq
       (RegExp.Group 1
          (RegExp.Seq (RegExp.Class [RegExp.CRange "A" "Z"])
             (RegExp.Repeat (RegExp.Class [RegExp.CRange "a" "z"; RegExp.CSpace]) 1 None true)))
       (RegExp.Seq (RegExp.Char ":")
          (RegExp.Seq (RegExp.Repeat (RegExp.Class [RegExp.CSpace]) 0 None true)
                      (RegExp.Group 2 (RegExp.Repeat RegExp.Dot 1 None true))))).

Record Context : Type := {
  prevContext : string;
  nextContext : string
}.

(** [createChunkWithMetadata(text, episodeName, index, context)] *)
Definition createChunkWithMetadata (text episodeName : string) (index : nat)
    (context : Context) : EnhancedChunk.t :=
  let speakerMatch :=
    match RegExp.exec false speakerPattern text 0 with
    | Some (_, y) =>
        match RegExp.capture text y 1, RegExp.capture text y 2 with
        | Some g1, Some g2 => Some (g1, g2)
        | _, _ => None
        end
    | None => None
    end in
  let '(speaker, guestName, cleanText) :=
    match speakerMatch with
    | Some (g1, g2) =>
        let speakerName := JS.toLowerCase g1 in
        if JS.includes speakerName "nikhil" || JS.includes speakerName "host"
        then (host, None, g2)
        else (guest, Some g1, g2)
    | None => (unknown, None, text)
    end in
  let topics :=
    extractTopics (cleanText ++ " " ++ prevContext context ++ " "
                     ++ nextContext context)%string in
  EnhancedChunk.Make cleanText episodeName speaker guestName topics index None
    (prevContext context ++ " [...] " ++ nextContext context)%string.

(** A string is truthy when it is not empty. *)
Definition nonempty (s : string) : bool :=
  match s with EmptyString => false | _ => true end.

(** The state of the loops of [createSmartChunks]: the chunks pushed so far
    and [chunkIndex]. *)
Definition Emitted : Type := (list EnhancedChunk.t * nat)%type.

Definition push (out : Emitted) (text episodeName : string) (context : Context) : Emitted :=
  let '(chunks, chunkIndex) := out in
  (chunks ++ [createChunkWithMetadata text episodeName chunkIndex context], S chunkIndex).

(** One turn of [for (const sentence of sentences)]. *)
Definition sentenceStep (episodeName : string) (context : Context)
    (st : string * Emitted) (sentence : string) : string * Emitted :=
  let '(currentChunk, out) := st in
  if 600 <? String.length (currentChunk ++ sentence)%string then
    let out := if nonempty (JS.trim currentChunk)
               then push out (JS.trim currentChunk) episodeName context
               else out in
    (sentence, out)
  else ((currentChunk ++ sentence ++ ". ")%string, out).

(** One turn of [for (let i = 0; i < sections.length; i++)]. *)
Definition sectionStep (episodeName : string) (sections : list string)
    (out : Emitted) (i : nat) : Emitted :=
  let section := JS.trim (nth i sections "") in
  let context :=
    {| prevContext := if 0 <? i then JS.slice_last (nth (i - 1) sections "") 100 else "";
       nextContext := if i <? List.length sections - 1
                      then JS.slice (nth (i + 1) sections "") 0 100 else "" |} in
  if 800 <? String.length section then
    let sentences :=
      filter (fun s => 20 <? String.length (JS.trim s))
             (RegExp.split false sentenceEnd section) in
    let '(currentChunk, out) :=
      fold_left (sentenceStep episodeName context) sentences ("", out) in
    if nonempty (JS.trim currentChunk)
    then push out (JS.trim currentChunk) episodeName context
    else out
  else push out section episodeName context.

(** [content.split(...).filter(s => s.trim().length > 50)] *)
Definition sectionsOf (content : string) : list string :=
  filter (fun s => 50 <? String.length (JS.trim s))
         (RegExp.split false sectionBoundary content).

(** [createSmartChunks(content, episodeName)] *)
Definition createSmartChunks (content episodeName : string) : list EnhancedChunk.t :=
  let sections := sectionsOf content in
  fst (fold_left (sectionStep episodeName sections) (seq 0 (List.length sections)) ([], 0)).

(** [findKeywordMatches(query, text)] *)
Definition findKeywordMatches (query text : string) : list string :=
  let queryWords := Lexical.queryWords query in
  let textLower := JS.toLowerCase text in
  filter (fun word => JS.includes textLower word) queryWords.

(** [explainMatch(query, chunk, score)] *)
Definition explainMatch (query : string) (chunk : EnhancedChunk.t) (score : float) : string :=
  let reasons : list string := [] in
  let reasons :=
    if 0 <? List.length (EnhancedChunk.topics chunk) then
      let queryTopics := extractTopics query in
      let matchingTopics :=
        filter (fun topic => includes_str queryTopics topic) (EnhancedChunk.topics chunk) in
      if 0 <? List.length matchingTopics
      then reasons ++ [("Topic match: " ++ JS.join ", " matchingTopics)%string]
      else reasons
    else reasons in
  let keywordMatches := findKeywordMatches query (EnhancedChunk.text chunk) in
  let reasons :=
    if 0 <? List.length keywordMatches
    then reasons ++ [("Keywords: " ++ JS.join ", " (firstn 3 keywordMatches))%string]
    else reasons in
  let reasons :=
    if JS.gt score 0.7 then reasons ++ ["High semantic similarity"] else reasons in
  if 0 <? List.length reasons then JS.join "; " reasons else "General relevance".

(** [enhancedKeywordSearch(query, chunks)] *)
Definition enhancedKeywordSearch (query : string) (chunks : list EnhancedChunk.t)
  : completion (list EnhancedChunk.t) :=
  scored <- mapM (fun chunk =>
              score <- calculateKeywordRelevance query
                         (EnhancedChunk.text chunk ++ " " ++ EnhancedChunk.context chunk)%string ;;
              Return (chunk, score)) chunks ;;
  Return (map fst
            (firstn 8
               (Array_sort (fun a b => (snd b - snd a)%float)
                  (filter (fun result => JS.gt (snd result) 0.3) scored)))).

(** The key under which a chunk enters the map of unique candidates:
    [`${chunk.episode}-${chunk.index}`]. *)
Definition chunkKey (chunk : EnhancedChunk.t) : string :=
  (EnhancedChunk.episode chunk ++ "-" ++ JS.nat_to_string (EnhancedChunk.index chunk))%string.

(** A [Map<string, EnhancedChunk>] as its entries in insertion order. *)
Definition CandidateMap : Type := list (string * EnhancedChunk.t).

Definition map_has (m : CandidateMap) (key : string) : bool :=
  existsb (fun entry => String.eqb (fst entry) key) m.

(** [set] on a key that is not in the map. *)
Definition map_set_new (m : CandidateMap) (key : string) (chunk : EnhancedChunk.t) : CandidateMap :=
  m ++ [(key, chunk)].

(** Stage 4: the callback of [combinedCandidates.forEach], then
    [Array.from(uniqueCandidatesMap.values())]. *)
Definition rememberFirst (uniqueCandidatesMap : CandidateMap) (chunk : EnhancedChunk.t)
  : CandidateMap :=
  let key := chunkKey chunk in
  if negb (map_has uniqueCandidatesMap key)
  then map_set_new uniqueCandidatesMap key chunk
  else uniqueCandidatesMap.

Definition uniqueCandidates (combinedCandidates : list EnhancedChunk.t) : list EnhancedChunk.t :=
  let uniqueCandidatesMap := fold_left rememberFirst combinedCandidates ([] : CandidateMap) in
  map snd uniqueCandidatesMap.

(** Stage 1 of [performMultiStageRetrieval]. *)
Definition topicFilter (enhancedChunks : list EnhancedChunk.t) (query : string)
  : list EnhancedChunk.t :=
  let queryTopics := extractTopics query in
  if 0 <? List.length queryTopics
  then filter (fun chunk =>
                 existsb (fun topic => includes_str queryTopics topic)
                         (EnhancedChunk.topics chunk))
              enhancedChunks
  else enhancedChunks.

(** Stage 2. *)
Definition semanticStage (topicFilteredChunks : list EnhancedChunk.t)
    (queryEmbedding : option vector) : list EnhancedChunk.t :=
  match queryEmbedding with
  | Some _ =>
      let semanticResults :=
        firstn 10
          (Array_sort (fun a b => (snd b - snd a)%float)
             (filter (fun result => JS.gt (snd result) 0.25)
                (map (fun chunk =>
                        (chunk,
                         cosineSimilarity queryEmbedding
                           (match EnhancedChunk.embedding chunk with
                            | Some e => Some e
                            | None => Some []
                            end)))
                   (filter (fun chunk =>
                              match EnhancedChunk.embedding chunk with
                              | Some _ => true
                              | None => false
                              end)
                           topicFilteredChunks)))) in
      map fst semanticResults
  | None => []
  end.

(** Stages 1 to 4: the fused, deduplicated candidates. *)
Definition fusedCandidates (enhancedChunks : list EnhancedChunk.t) (query : string)
    (queryEmbedding : option vector) : completion (list EnhancedChunk.t) :=
  let topicFilteredChunks := topicFilter enhancedChunks query in
  let semanticCandidates := semanticStage topicFilteredChunks queryEmbedding in
  keywordCandidates <- enhancedKeywordSearch query topicFilteredChunks ;;
  let combinedCandidates := semanticCandidates ++ keywordCandidates in
  Return (uniqueCandidates combinedCandidates).

(** The [for] loop over [allCandidates]: score, label, explain, and keep
    what scores above 0.3. *)
Definition scoreCandidates (query : string) (queryEmbedding : option vector)
    (allCandidates : list EnhancedChunk.t) : completion (list RetrievalResult.t) :=
  forEach allCandidates (fun results chunk =>
    relevanceScore <- calculateEnhancedRelevance query chunk queryEmbedding ;;
    let confidenceLevel := determineConfidenceLevel relevanceScore chunk query in
    let matchReason := explainMatch query chunk relevanceScore in
    if JS.gt relevanceScore 0.3
    then Return (results ++ [RetrievalResult.Make chunk relevanceScore confidenceLevel matchReason])
    else Return results) [].

Definition byRelevance (a b : RetrievalResult.t) : float :=
  (RetrievalResult.relevanceScore b - RetrievalResult.relevanceScore a)%float.

(** [performMultiStageRetrieval(query)], reading the corpus
    [enhancedChunks]. *)
Definition performMultiStageRetrieval (env : Env) (enhancedChunks : list EnhancedChunk.t)
    (query : string) : completion (list RetrievalResult.t) :=
  let queryEmbedding := getEmbedding env query in
  allCandidates <- fusedCandidates enhancedChunks query queryEmbedding ;;
  results <- scoreCandidates query queryEmbedding allCandidates ;;
  Return (firstn 5 (Array_sort byRelevance results)).

(* ------------------------------------------------------------------ *)
(** ** Global state, initialisation and status *)

(** The five globals of [lib/ai.ts]. *)
Record State : Type := {
  chunks : list Chunk.t;
  enhancedChunks : list EnhancedChunk.t;
  isReady : bool;
  isEnhancedReady : bool;
  initError : option string
}.

(** [initialize()], which touches [chunks], [isReady] and [initError]. *)
Definition initialize (env : Env) (st : State) : State :=
  let o := Original.initialize env
             {| Original.chunks := chunks st; Original.isReady := isReady st;
                Original.initError := initError st |} in
  {| chunks := Original.chunks o; enhancedChunks := enhancedChunks st;
     isReady := Original.isReady o; isEnhancedReady := isEnhancedReady st;
     initError := Original.initError o |}.

(** The loop of [initializeEnhanced] over the transcript files; a file that
    cannot be read ends the loop with an exception ([None]), the chunks
    pushed before it staying in [enhancedChunks]. *)
Fixpoint loadEnhanced (env : Env) (txtFiles : list string)
    (enhancedChunks : list EnhancedChunk.t) : list EnhancedChunk.t * bool :=
  match txtFiles with
  | [] => (enhancedChunks, true)
  | filename :: rest =>
      match readFile env filename with
      | None => (enhancedChunks, false)
      | Some content =>
          let episodeName := JS.remove_first filename ".txt" in
          loadEnhanced env rest (enhancedChunks ++ createSmartChunks content episodeName)
      end
  end.

(** [initializeEnhanced()] *)
Definition initializeEnhanced (env : Env) (st : State) : State :=
  if isEnhancedReady st then st
  else
    match readdir env with
    | None => st
    | Some files =>
        let txtFiles := filter (fun f => JS.endsWith f ".txt") files in
        let '(loaded, ok) := loadEnhanced env txtFiles (enhancedChunks st) in
        if ok then
          let chunksToEmbed := firstn 30 loaded in
          let embedded :=
            map (fun chunk =>
                   match getEmbedding env (EnhancedChunk.text chunk) with
                   | Some embedding => EnhancedChunk.set_embedding chunk embedding
                   | None => chunk
                   end) chunksToEmbed in
          {| chunks := chunks st; enhancedChunks := embedded ++ skipn 30 loaded;
             isReady := isReady st; isEnhancedReady := true; initError := initError st |}
        else
          {| chunks := chunks st; enhancedChunks := loaded;
             isReady := isReady st; isEnhancedReady := isEnhancedReady st;
             initError := initError st |}
    end.

(** [generateEnhancedResponse(query)] up to its retrieval: the enhanced
    system is initialised; when it is not ready the answer is the fixed
    "not ready" text and nothing is retrieved ([None]); else retrieval runs
    over the global [enhancedChunks].  What follows the retrieval, the prompt
    and the call of the language model, is not modelled. *)
Definition enhancedRetrieval (env : Env) (st : State) (query : string)
  : State * option (completion (list RetrievalResult.t)) :=
  let st := initializeEnhanced env st in
  if negb (isEnhancedReady st) then (st, None)
  else (st, Some (performMultiStageRetrieval env (enhancedChunks st) query)).

(** [getAvailableTopics()]: the topics of the corpus in order of first
    appearance, at most ten. *)
Definition getAvailableTopics (st : State) : list string :=
  firstn 10
    (fold_left (fun seen topic => if includes_str seen topic then seen else seen ++ [topic])
               (flat_map EnhancedChunk.topics (enhancedChunks st)) []).

(** The object that [getSystemStatus] serialises. *)
Record Status : Type := {
  ready : bool;
  enhancedReady : bool;
  error : option string;
  totalChunks : nat;
  enhancedChunksCount : nat;
  embeddedChunks : nat;
  enhancedEmbeddedChunks : nat;
  hasGroqKey : bool;
  hasOpenAIKey : bool;
  availableTopics : list string
}.

(** [getSystemStatus()]: the state it leaves and the snapshot it returns. *)
Definition getSystemStatus (env : Env) (st : State) : State * Status :=
  let st := initialize env st in
  (st,
   {| ready := isReady st;
      enhancedReady := isEnhancedReady st;
      error := initError st;
      totalChunks := List.length (chunks st);
      enhancedChunksCount := List.length (enhancedChunks st);
      embeddedChunks := List.length (filter (has_embedding Chunk.embedding) (chunks st));
      enhancedEmbeddedChunks :=
        List.length (filter (has_embedding EnhancedChunk.embedding) (enhancedChunks st));
      hasGroqKey := truthy (GROQ_API_KEY env);
      hasOpenAIKey := truthy (OPENAI_API_KEY env);
      availableTopics := if isEnhancedReady st then getAvailableTopics st else [] |}).

(* ------------------------------------------------------------------ *)
(** ** Keyword fallback of the original system *)

(** The callback of [chunks.map] in [searchByKeywordsEnhanced]. *)
Definition keywordScore (query : string) (queryWords : list string) (chunk : Chunk.t)
  : completion (Chunk.t * float) :=
  let text := JS.toLowerCase (Chunk.text chunk) in
  sm <- forEach queryWords (fun (sm : float * nat) word =>
          let '(score, matchedWords) := sm in
          matches <- Lexical.countMatches text word ;;
          if 0 <? matches
          then Return ((score + JS.num matches)%float, S matchedWords)
          else Return sm) (0%float, 0) ;;
  let '(score, matchedWords) := sm in
  let score := if JS.includes text (JS.toLowerCase query) then (score + 5)%float else score in
  let coverage := (JS.num matchedWords / JS.num (List.length queryWords))%float in
  let score := if (coverage <? 0.3)%float then (score * 0.5)%float else score in
  Return (chunk, score).

(** [searchByKeywordsEnhanced(query)], reading the corpus [chunks]. *)
Definition searchByKeywordsEnhanced (chunks : list Chunk.t) (query : string)
  : completion (list Chunk.t) :=
  let queryWords := Lexical.queryWords query in
  if List.length queryWords =? 0 then Return []
  else
    scored <- mapM (keywordScore query queryWords) chunks ;;
    let results :=
      firstn 3
        (Array_sort (fun a b => (snd b - snd a)%float)
           (filter (fun result => JS.gt (snd result) 0.5) scored)) in
    Return (map fst results).

(* ------------------------------------------------------------------ *)
(** ** Retrieval of the original system *)

(** [findRelevantChunks(query)]: the state that the call to [initialize]
    leaves, and the chunks returned. *)
Definition findRelevantChunks (env : Env) (st : State) (query : string)
  : State * completion (list Chunk.t) :=
  let st := initialize env st in
  if negb (isReady st) then (st, Return [])
  else
    let queryEmbedding := getEmbedding env query in
    let fallback := searchByKeywordsEnhanced (chunks st) query in
    match queryEmbedding with
    | Some _ =>
        let withEmbeddings := filter (has_embedding Chunk.embedding) (chunks st) in
        if 0 <? List.length withEmbeddings then
          let results :=
            firstn 3
              (Array_sort (fun a b => (snd b - snd a)%float)
                 (filter (fun result => JS.gt (snd result) 0.2)
                    (map (fun chunk => (chunk, similarity queryEmbedding (Chunk.embedding chunk)))
                         withEmbeddings))) in
          if 0 <? List.length results then (st, Return (map fst results))
          else (st, fallback)
        else (st, fallback)
    | None => (st, fallback)
    end.

(* ------------------------------------------------------------------ *)
(** ** Episode titles *)

(** [\w]: an ASCII letter, a digit or the underscore. *)
Definition is_word (c : ascii) : bool :=
  let n := JS.code c in
  ((48 <=? n) && (n <=? 57) || (65 <=? n) && (n <=? 90) || (n =? 95)
   || (97 <=? n) && (n <=? 122))%bool.

(** [s.replace(/[-_]/g, ' ')] *)
Fixpoint spaceOut (s : string) : string :=
  match s with
  | EmptyString => EmptyString
  | String c s' =>
      String (if (Ascii.eqb c "-" || Ascii.eqb c "_")%bool then " "%char else c) (spaceOut s')
  end.

(** [s.replace(/\b\w/g, l => l.toUpperCase())]: every word character that
    does not follow a word character is put in upper case; [afterWord] tells
    whether the code unit before [s] is a word character. *)
Fixpoint capitalizeWords (afterWord : bool) (s : string) : string :=
  match s with
  | EmptyString => EmptyString
  | String c s' =>
      String (if is_word c && negb afterWord then JS.canonicalize c else c)
             (capitalizeWords (is_word c) s')
  end.

(** [formatEpisodeTitle(episodeName)] *)
Definition formatEpisodeTitle (episodeName : string) : string :=
  capitalizeWords false (spaceOut episodeName).

End Enhanced.

(* ================================================================== *)
(** * ai.ts: the simple system *)
(* ================================================================== *)

Module Simple.

(** [similarity(a, b)] *)
Definition similarity : option vector -> option vector -> float :=
  similarity_gen float 0%float PrimFloat.add PrimFloat.mul PrimFloat.div JS.Math_sqrt JS.gt.

(** [calculateContentRelevance(query, text)] *)
Definition calculateContentRelevance (query text : string) : completion float :=
  let queryWords := Lexical.queryWords query in
  let textLower := JS.toLowerCase text in
  st <- forEach queryWords (fun (st : float * nat) word =>
          let '(relevanceScore, totalMatches) := st in
          wordCount <- Lexical.countMatches textLower word ;;
          if 0 <? wordCount
          then Return ((relevanceScore
                        + JS.num wordCount * (JS.num (String.length word) / 10))%float,
                       totalMatches + wordCount)
          else Return st) (0%float, 0) ;;
  let '(relevanceScore, totalMatches) := st in
  let relevanceScore :=
    if JS.includes textLower (JS.toLowerCase query)
    then (relevanceScore + 2)%float else relevanceScore in
  let normalizedScore := (relevanceScore / (JS.num (String.length text) / 100))%float in
  Return (JS.Math_min normalizedScore 1).

(** The object that [getSystemStatus] serialises. *)
Record Status : Type := {
  ready : bool;
  error : option string;
  totalChunks : nat;
  embeddedChunks : nat;
  hasGroqKey : bool;
  hasOpenAIKey : bool
}.

(** [getSystemStatus()]: the state it leaves and the snapshot it returns. *)
Definition getSystemStatus (env : Env) (st : Original.State) : Original.State * Status :=
  let st := Original.initialize env st in
  (st,
   {| ready := Original.isReady st;
      error := Original.initError st;
      totalChunks := List.length (Original.chunks st);
      embeddedChunks :=
        List.length (filter (has_embedding Chunk.embedding) (Original.chunks st));
      hasGroqKey := truthy (GROQ_API_KEY env);
      hasOpenAIKey := truthy (OPENAI_API_KEY env) |}).

(* ------------------------------------------------------------------ *)
(** ** Query expansion and topic detection *)

(** The table of [expandQueryTerms], in the order of its keys. *)
Definition expansions : list (string * list string) :=
  [ ("edtech", ["education technology"; "online learning"; "educational software";
                "learning platforms"]);
    ("fintech", ["financial technology"; "digital payments"; "banking technology";
                 "financial services"]);
    ("games", ["gaming"; "video games"; "mobile games"; "game development"; "esports"]);
    ("startup", ["business"; "entrepreneur"; "company"; "venture"; "new business"]);
    ("restaurant", ["food business"; "dining"; "food service"; "hospitality"; "culinary"]);
    ("build", ["create"; "develop"; "start"; "establish"; "launch"; "make"]);
    ("opportunities", ["chances"; "prospects"; "possibilities"; "potential"; "options"]) ].

(** The callback of [Object.entries(expansions).forEach]. *)
Definition expandStep (expandedQuery : string) (entry : string * list string) : string :=
  if JS.includes expandedQuery (fst entry)
  then (expandedQuery ++ " " ++ JS.join " " (snd entry))%string
  else expandedQuery.

(** [expandQueryTerms(query)] *)
Definition expandQueryTerms (query : string) : string :=
  fold_left expandStep expansions (JS.toLowerCase query).

(** The table of [detectQueryTopics]. *)
Definition topicKeywords : list (list string * string) :=
  [ (["gaming"; "game"; "games"; "esports"; "mobile gaming"; "pc gaming"], "gaming");
    (["startup"; "business"; "entrepreneur"; "company"; "venture"], "startup");
    (["restaurant"; "food"; "dining"; "kitchen"; "chef"; "menu"], "restaurant");
    (["tech"; "technology"; "software"; "coding"; "programming"; "ai"], "tech");
    (["investing"; "investment"; "finance"; "money"; "funding"; "vc"], "investing");
    (["marketing"; "brand"; "advertising"; "content"; "social media"], "marketing");
    (["real estate"; "property"; "housing"; "construction"], "real estate");
    (["ev"; "electric vehicle"; "automotive"; "car"; "vehicle"; "battery"], "ev") ].

(** [detectQueryTopics(query)] *)
Definition detectQueryTopics (query : string) : list string :=
  map snd
    (filter (fun entry => existsb (fun keyword => JS.includes query keyword) (fst entry))
            topicKeywords).

(** [calculateTopicRelevance(queryTopics, episodeName)] *)
Definition calculateTopicRelevance (queryTopics : list string) (episodeName : string) : float :=
  if List.length queryTopics =? 0 then 0.5%float
  else
    let relevance :=
      fold_left (fun relevance topic =>
                   if JS.includes episodeName topic then (relevance + 1)%float else relevance)
                queryTopics 0%float in
    JS.Math_min (relevance / JS.num (List.length queryTopics)) 1.

(** [calculateKeywordScore(queryWords, text, originalQuery)] *)
Definition calculateKeywordScore (queryWords : list string) (text originalQuery : string)
  : completion float :=
  sm <- forEach queryWords (fun (sm : float * nat) word =>
          let '(score, matchedWords) := sm in
          matches <- Lexical.countMatches text word ;;
          if 0 <? matches
          then Return ((score + JS.num matches)%float, S matchedWords)
          else Return sm) (0%float, 0) ;;
  let '(score, matchedWords) := sm in
  let score := if JS.includes text originalQuery then (score + 5)%float else score in
  let coverage := (JS.num matchedWords / JS.num (List.length queryWords))%float in
  let score := if (coverage <? 0.3)%float then (score * 0.5)%float else score in
  Return (JS.Math_min (score / 10) 1).

(* ------------------------------------------------------------------ *)
(** ** Retrieval *)

(** The callback of [chunks.map] in [searchByKeywordsEnhanced]: the chunk
    with its combined score. *)
Definition combinedScore (query : string) (queryWords queryTopics : list string)
    (chunk : Chunk.t) : completion (Chunk.t * float) :=
  let text := JS.toLowerCase (Chunk.text chunk) in
  let episodeName := JS.toLowerCase (Chunk.episode chunk) in
  contentRelevance <- calculateContentRelevance query (Chunk.text chunk) ;;
  let topicRelevance := calculateTopicRelevance queryTopics episodeName in
  keywordScore <- calculateKeywordScore queryWords text (JS.toLowerCase query) ;;
  let totalScore :=
    (contentRelevance * 0.4 + topicRelevance * 0.3 + keywordScore * 0.3)%float in
  Return (chunk, totalScore).

(** [searchByKeywordsEnhanced(query)], reading the corpus [chunks]. *)
Definition searchByKeywordsEnhanced (chunks : list Chunk.t) (query : string)
  : completion (list Chunk.t) :=
  let expandedQuery := expandQueryTerms query in
  let queryWords := Lexical.queryWords expandedQuery in
  if List.length queryWords =? 0 then Return []
  else
    let queryTopics := detectQueryTopics (JS.toLowerCase query) in
    scored <- mapM (combinedScore query queryWords queryTopics) chunks ;;
    let results :=
      firstn 3
        (Array_sort (fun a b => (snd b - snd a)%float)
           (filter (fun result => JS.gt (snd result) 0.2) scored)) in
    Return (map fst results).

(** A chunk with its semantic score and its content relevance. *)
Record SemanticMatch : Type := {
  chunk : Chunk.t;
  score : float;
  contentRelevance : float
}.

(** The weighted score by which [findRelevantChunks] sorts. *)
Definition weighted (m : SemanticMatch) : float :=
  (score m * 0.7 + contentRelevance m * 0.3)%float.

(** [findRelevantChunks(query)]: the state that the call to [initialize]
    leaves, and the chunks returned. *)
Definition findRelevantChunks (env : Env) (st : Original.State) (query : string)
  : Original.State * completion (list Chunk.t) :=
  let st := Original.initialize env st in
  if negb (Original.isReady st) then (st, Return [])
  else
    let expandedQuery := expandQueryTerms query in
    let queryEmbedding := getEmbedding env expandedQuery in
    let fallback := searchByKeywordsEnhanced (Original.chunks st) query in
    match queryEmbedding with
    | Some _ =>
        let withEmbeddings :=
          filter (has_embedding Chunk.embedding) (Original.chunks st) in
        if 0 <? List.length withEmbeddings then
          (st,
           scored <- mapM (fun chunk =>
                       contentRelevance <- calculateContentRelevance query (Chunk.text chunk) ;;
                       Return {| chunk := chunk;
                                 score := similarity queryEmbedding (Chunk.embedding chunk);
                                 contentRelevance := contentRelevance |}) withEmbeddings ;;
           let results :=
             firstn 5
               (Array_sort (fun a b => (weighted b - weighted a)%float)
                  (filter (fun result => JS.gt (score result) 0.15
                                         && JS.gt (contentRelevance result) 0.3)
                          scored)) in
           if 0 <? List.length results
           then Return (map chunk (firstn 3 results))
           else fallback)
        else (st, fallback)
    | None => (st, fallback)
    end.

End Simple.

(* ================================================================== *)
(** * Transcript utilities *)
(* ================================================================== *)

Module Transcript.

(** The keywords of [extractKeyTopics]. *)
Definition businessKeywords : list string :=
  [ "startup"; "business"; "investment"; "entrepreneur"; "funding"; "revenue";
    "market"; "customer"; "product"; "strategy"; "growth"; "scaling";
    "marketing"; "branding"; "sales"; "team"; "leadership"; "innovation";
    "technology"; "digital"; "ecommerce"; "fintech"; "edtech";
    "restaurant"; "food"; "retail"; "real estate"; "venture capital" ].

(** [foundTopics.reduce(...)]: the record of counts as its entries in
    insertion order (the keywords are distinct, so every key is new). *)
Definition topicCounts (lowerTranscript : string) (foundTopics : list string)
  : completion (list (string * nat)) :=
  mapM (fun topic =>
          matches <- Lexical.countMatches lowerTranscript topic ;;
          Return (topic, matches)) foundTopics.

(** [extractKeyTopics(transcript)] *)
Definition extractKeyTopics (transcript : string) : completion (list string) :=
  let lowerTranscript := JS.toLowerCase transcript in
  let foundTopics := filter (fun keyword => JS.includes lowerTranscript keyword)
                            businessKeywords in
  counts <- topicCounts lowerTranscript foundTopics ;;
  Return (map fst
            (firstn 8
               (Array_sort (fun a b => (JS.num (snd b) - JS.num (snd a))%float) counts))).

(** [arr.slice(-n)]: the last [n] elements. *)
Definition slice_last {A : Type} (l : list A) (n : nat) : list A :=
  skipn (List.length l - n) l.

(** [generateSummary(transcript, maxLength)] for a non-negative integer
    [maxLength]. *)
Definition generateSummary (transcript : string) (maxLength : nat) : string :=
  let sentences :=
    filter (fun s => 20 <? String.length (JS.trim s))
           (RegExp.split false Enhanced.sentenceEnd transcript) in
  if List.length sentences =? 0 then "No summary available."
  else
    let startSentences := firstn 3 sentences in
    let endSentences := slice_last sentences 2 in
    let summary := JS.take maxLength (JS.join ". " (startSentences ++ endSentences)) in
    (summary ++ (if Nat.eqb (String.length summary) maxLength then "..." else ""))%string.

End Transcript.

(* ================================================================== *)
(** * Vocabulary of the specification *)
(* ================================================================== *)




(** The sum of the squares of a vector as the loop computes it. *)
Definition computed_sum_of_squares (a : vector) : float :=
  fold_left (fun acc x => (acc + x * x)%float) a 0%float.




(* ------------------------------------------------------------------ *)
(** ** Rounding in binary64 *)

(** What [k] right shifts of [m] leave: the quotient in [shr_m], and in the
    round and sticky bits the position of the remainder against one half. *)
Definition shifted (m k : Z) (x : shr_record) : Prop :=
  exists rem,
    (m = shr_m x * 2 ^ k + rem /\ 0 <= rem < 2 ^ k /\ 0 <= shr_m x /\
     (shr_r x = true -> 2 ^ k <= 2 * rem) /\
     (shr_r x = false -> 2 * rem < 2 ^ k) /\
     (shr_s x = false -> (shr_r x = false -> rem = 0) /\ (shr_r x = true -> 2 * rem = 2 ^ k)))%Z.

(** The last step of [binary_round_aux]: the rounded mantissa is brought
    back to the format and packed. *)
Definition pack (sx : bool) (P e : Z) : spec_float :=
  let '(mrs, e') := shr_fexp prec emax P e loc_Exact in
  match shr_m mrs with
  | Z0 => S754_zero sx
  | Zpos m => if Z.leb e' (emax - prec)%Z then S754_finite sx m e' else S754_infinity sx
  | Zneg _ => S754_nan
  end.

(** What is left of the input in a matcher state. *)
Definition remaining (x : RegExp.mstate) : nat := String.length (RegExp.rest x).

(** State [y] lies ahead of [x] in the same input. *)
Definition Ahead (x y : RegExp.mstate) : Prop :=
  RegExp.pos x <= RegExp.pos y /\
  RegExp.pos y + remaining y = RegExp.pos x + remaining x.

(** A matcher that looks at its continuation only at states ahead. *)
Definition ContinuesAhead (body : RegExp.mstate -> RegExp.cont -> option RegExp.mstate) : Prop :=
  forall x k1 k2, (forall y, Ahead x y -> k1 y = k2 y) -> body x k1 = body x k2.

(** A matcher that succeeds only through its continuation, at a state
    ahead. *)
Definition SucceedsAhead (body : RegExp.mstate -> RegExp.cont -> option RegExp.mstate) : Prop :=
  forall x k z, body x k = Some z -> exists y, Ahead x y /\ k y = Some z.

(** The token is a well-formed pattern of the modelled fragment. *)
Definition Compiles (word : string) : Prop :=
  exists r, RegExp.RegExp_new word = RegExp.Compiled r.

(** A weighted sum of signals: each signal times its weight, added up in
    order from 0. *)
Definition weightedSum (terms : list (float * float)) : float :=
  fold_left (fun acc term => (acc + fst term * snd term)%float) terms 0%float.

(** The composite relevance of the specification: the four signals weighted
    0.4, 0.3, 0.2 and 0.1, capped at 1. *)
Definition compositeScore (semantic lexical topic contextual : float) : float :=
  JS.Math_min
    (weightedSum [(semantic, 0.4); (lexical, 0.3); (topic, 0.2); (contextual, 0.1)]%float)
    1.

(** The semantic signal: the cosine similarity of the two embeddings, 0 when
    either is absent. *)
Definition semanticSignal (queryEmbedding : option vector) (chunk : EnhancedChunk.t) : float :=
  match queryEmbedding, EnhancedChunk.embedding chunk with
  | Some q, Some e => Enhanced.cosineSimilarity (Some q) (Some e)
  | _, _ => 0%float
  end.

(** The topic overlap ratio: matched topics over query topics, 0.5 when the
    query has no topic. *)
Definition topicOverlapRatio (query : string) (chunk : EnhancedChunk.t) : float :=
  match Enhanced.extractTopics query with
  | [] => 0.5%float
  | queryTopics =>
      let matched := filter (fun topic => includes_str queryTopics topic)
                            (EnhancedChunk.topics chunk) in
      (JS.num (List.length matched) / JS.num (List.length queryTopics))%float
  end.

(** The candidate shares at least one topic with the query. *)
Definition SharesTopic (chunk : EnhancedChunk.t) (query : string) : Prop :=
  exists topic, In topic (EnhancedChunk.topics chunk) /\ In topic (Enhanced.extractTopics query).

(** The candidates that the scoring loop keeps: those whose composite score
    returns and is above 0.3. *)
Definition keeps (query : string) (queryEmbedding : option vector)
    (chunk : EnhancedChunk.t) : bool :=
  match Enhanced.calculateEnhancedRelevance query chunk queryEmbedding with
  | Return score => JS.gt score 0.3
  | _ => false
  end.

(** A result carries the composite score of its chunk, above 0.3, and the
    label and explanation derived from that score. *)
Definition WellScored (query : string) (queryEmbedding : option vector)
    (r : RetrievalResult.t) : Prop :=
  let chunk := RetrievalResult.chunk r in
  let score := RetrievalResult.relevanceScore r in
  Enhanced.calculateEnhancedRelevance query chunk queryEmbedding = Return score /\
  JS.gt score 0.3 = true /\
  RetrievalResult.confidenceLevel r = Enhanced.determineConfidenceLevel score chunk query /\
  RetrievalResult.matchReason r = Enhanced.explainMatch query chunk score.


(** The test "this result has composite score [v]". *)
Definition hasScore (v : float) (r : RetrievalResult.t) : bool :=
  PrimFloat.Leibniz.eqb (RetrievalResult.relevanceScore r) v.

(** [x] comes before [y] in [l]. *)
Definition Before {A : Type} (l : list A) (x y : A) : Prop :=
  exists l1 l2 l3, l = l1 ++ x :: l2 ++ y :: l3.

(** Results with equal composite scores appear in the order in which their
    chunks were inserted into the corpus. *)
Definition TiesInCorpusOrder (corpus : list EnhancedChunk.t)
    (results : list RetrievalResult.t) : Prop :=
  forall r1 r2,
    Before results r1 r2 ->
    RetrievalResult.relevanceScore r1 = RetrievalResult.relevanceScore r2 ->
    Before corpus (RetrievalResult.chunk r1) (RetrievalResult.chunk r2).

(* ------------------------------------------------------------------ *)
(** ** The bulk embedding pass *)

(** What each call of the pass would be answered, turn by turn from [i]. *)
Fixpoint outcomes (embed : nat -> string -> option vector) (i : nat)
    (chunksToEmbed : list Chunk.t) : list (option vector) :=
  match chunksToEmbed with
  | [] => []
  | chunk :: rest => embed i (Chunk.text chunk) :: outcomes embed (S i) rest
  end.

Fixpoint leadingFailures (os : list (option vector)) : nat :=
  match os with
  | None :: os' => S (leadingFailures os')
  | _ => 0
  end.

(** The number of failed calls at the end of a history of calls. *)
Definition trailingFailures (history : list (option vector)) : nat :=
  leadingFailures (rev history).

Definition successes (history : list (option vector)) : nat :=
  List.length (filter (fun o => match o with Some _ => true | None => false end) history).

(** A chunk after its call: embedded on success, as it was on failure. *)
Definition applyOutcome (co : Chunk.t * option vector) : Chunk.t :=
  match snd co with
  | Some embedding => Chunk.set_embedding (fst co) embedding
  | None => fst co
  end.

(** The list after the first [m] calls were made and answered by [os]. *)
Definition afterCalls (m : nat) (chunksToEmbed : list Chunk.t) (os : list (option vector))
  : list Chunk.t :=
  map applyOutcome (combine (firstn m chunksToEmbed) os) ++ skipn m chunksToEmbed.

(** Seven chunks and a provider that answers the first call and fails the
    next five. *)
Definition sevenChunks : list Chunk.t :=
  map (fun i => Chunk.Make "a transcript chunk" "ep1" i None) (seq 0 7).

Definition failsAfterFirst (i : nat) (text : string) : option vector :=
  if (1 <=? i) && (i <=? 5) then None else Some [1; 0]%float.

(** A chunk of the smart chunker comes from a piece of raw text longer than
    20 characters, through [createChunkWithMetadata] at the chunk's index. *)
Definition EmittedFrom (episodeName : string) (chunk : EnhancedChunk.t) : Prop :=
  exists raw context,
    chunk = Enhanced.createChunkWithMetadata raw episodeName (EnhancedChunk.index chunk) context
    /\ 20 < String.length raw.

(** The loops of [createSmartChunks] have pushed well-formed chunks, numbered
    from 0, and [chunkIndex] counts them. *)
Definition GoodEmitted (episodeName : string) (out : Enhanced.Emitted) : Prop :=
  snd out = List.length (fst out) /\
  map EnhancedChunk.index (fst out) = seq 0 (List.length (fst out)) /\
  Forall (EmittedFrom episodeName) (fst out).

(** A sentence that the chunker keeps of a long section: a piece between
    sentence ends that has more than 20 characters once trimmed. *)
Definition KeptSentence (section s : string) : Prop :=
  In s (RegExp.split false Enhanced.sentenceEnd section) /\ 20 < String.length (JS.trim s).

(** The buffer of the sentence loop: [first], then each sentence of [rest]
    followed by a full stop and a space. *)
Definition runOf (first : string) (rest : list string) : string :=
  fold_left (fun acc s => (acc ++ s ++ ". ")%string) rest first.

(** A run of kept sentences of the section. *)
Definition RunOfKept (section run : string) : Prop :=
  exists first rest,
    (first = "" \/ KeptSentence section first) /\
    Forall (KeptSentence section) rest /\
    run = runOf first rest.

(** The raw text of a unit cut from a section that has, trimmed, more than
    50 characters: the section itself when it has at most 800, else a trimmed
    run of kept sentences that has more than 20. *)
Definition CutFrom (section raw : string) : Prop :=
  50 < String.length section /\
  (String.length section <= 800 /\ raw = section \/
   800 < String.length section /\ 20 < String.length raw /\
   exists run, RunOfKept section run /\ raw = JS.trim run).

(** A unit of the smart chunker: [createChunkWithMetadata], at the unit's
    index, of a raw text cut from a section of the transcript. *)
Definition UnitOf (content episodeName : string) (chunk : EnhancedChunk.t) : Prop :=
  exists section raw context,
    In section (RegExp.split false Enhanced.sectionBoundary content) /\
    CutFrom (JS.trim section) raw /\
    chunk = Enhanced.createChunkWithMetadata raw episodeName (EnhancedChunk.index chunk) context.

(** The loops of [createSmartChunks] have pushed units of the transcript,
    numbered from 0, and [chunkIndex] counts them. *)
Definition UnitsOf (content episodeName : string) (out : Enhanced.Emitted) : Prop :=
  snd out = List.length (fst out) /\
  map EnhancedChunk.index (fst out) = seq 0 (List.length (fst out)) /\
  Forall (UnitOf content episodeName) (fst out).

(** Between sentences the buffer is a run of kept sentences, empty or with
    more than 20 characters once trimmed. *)
Definition KeptBuffer (content episodeName section : string)
    (st : string * Enhanced.Emitted) : Prop :=
  UnitsOf content episodeName (snd st) /\
  RunOfKept section (fst st) /\
  (fst st = "" \/ 20 < String.length (JS.trim (fst st))).

(** Every entry of the map is filed under the key of its chunk. *)
Definition KeyedByChunk (m : Enhanced.CandidateMap) : Prop :=
  Forall (fun entry => fst entry = Enhanced.chunkKey (snd entry)) m.

(** A one-line transcript whose first clause ends in a colon. *)
Definition colonTranscript : string :=
  "So what we really wanted to say in the end was this: no.".

(** The original system has reached a terminal state: ready, or failed with
    a recorded error. *)
Definition Initialised (st : Original.State) : Prop :=
  Original.isReady st = true \/ truthy (Original.initError st) = true.

(** The globals that [initialize] works on, out of the five of [lib/ai.ts]. *)
Definition originalPart (st : Enhanced.State) : Original.State :=
  {| Original.chunks := Enhanced.chunks st;
     Original.isReady := Enhanced.isReady st;
     Original.initError := Enhanced.initError st |}.

(** A process that has not initialised anything yet ([ai.ts]). *)
Definition freshState : Original.State :=
  {| Original.chunks := []; Original.isReady := false; Original.initError := None |}.

(** What the first initialisation does to the globals [st] of a process that
    is neither ready nor failed: it records an error when the transcript
    directory cannot be listed, holds no [.txt] file, or yields no chunk;
    else it keeps the chunks it loaded, the first 50 after the bulk embedding
    pass, and marks the system ready. *)
Inductive FirstInitialisation (env : Env) (st : Original.State) : Original.State -> Prop :=
| NoDirectory :
    readdir env = None ->
    FirstInitialisation env st
      {| Original.chunks := Original.chunks st; Original.isReady := false;
         Original.initError :=
           Some ("Cannot access transcript directory: " ++ transcriptPath env)%string |}
| NoTranscripts (files : list string) :
    readdir env = Some files ->
    filter (fun f => JS.endsWith f ".txt") files = [] ->
    FirstInitialisation env st
      {| Original.chunks := Original.chunks st; Original.isReady := false;
         Original.initError := Some "No .txt transcript files found" |}
| NoContent (files : list string) (loaded : list Chunk.t) :
    readdir env = Some files ->
    filter (fun f => JS.endsWith f ".txt") files <> [] ->
    fold_left (Original.loadFile env) (filter (fun f => JS.endsWith f ".txt") files)
              (Original.chunks st, 0) = (loaded, 0) ->
    FirstInitialisation env st
      {| Original.chunks := loaded; Original.isReady := false;
         Original.initError := Some "No valid content chunks created from transcripts" |}
| Loaded (files : list string) (loaded : list Chunk.t) (total : nat) :
    readdir env = Some files ->
    filter (fun f => JS.endsWith f ".txt") files <> [] ->
    fold_left (Original.loadFile env) (filter (fun f => JS.endsWith f ".txt") files)
              (Original.chunks st, 0) = (loaded, total) ->
    total <> 0 ->
    FirstInitialisation env st
      {| Original.chunks :=
           fst (fst (Original.embedLoop (fun _ => getEmbedding env) 0 (firstn 50 loaded) 0 0))
           ++ skipn 50 loaded;
         Original.isReady := true;
         Original.initError := Original.initError st |}.

(* ------------------------------------------------------------------ *)
(** ** A sample corpus *)

(** A transcript of two paragraphs: each mentions "raise" five times and
    "money" once. *)
Definition sampleParagraph1 : string :=
  "raise raise raise raise raise is what every founder keeps saying when asked about money and about the early days of this show, when nobody listened and nothing at all seemed to work.".

Definition sampleParagraph2 : string :=
  "our money story began long before the first office opened, in a small room with two desks and a phone; later we learned to raise raise raise raise raise".

Definition sampleTranscript : string :=
  (sampleParagraph1 ++ String Enhanced.LF (String Enhanced.LF sampleParagraph2))%string.

(** A process with one transcript, [ep1.txt]. *)
Definition sampleEnv (key : option string) (provider : string -> option vector) : Env :=
  {| GROQ_API_KEY := Some "gsk";
     OPENAI_API_KEY := key;
     transcriptPath := "/app/public/transcripts";
     readdir := Some ["ep1.txt"];
     readFile := fun filename =>
       if String.eqb filename "ep1.txt" then Some sampleTranscript else None;
     provider := provider |}.

(** No embedding credential: retrieval is lexical only. *)
Definition lexicalEnv : Env := sampleEnv None (fun _ => None).

(** A provider that answers every text with the same unit vector. *)
Definition constantEnv : Env := sampleEnv (Some "sk") (fun _ => Some [1; 0]%float).

Definition emptyState : Enhanced.State :=
  {| Enhanced.chunks := []; Enhanced.enhancedChunks := [];
     Enhanced.isReady := false; Enhanced.isEnhancedReady := false;
     Enhanced.initError := None |}.

(** The corpus after [initializeEnhanced] in each of the two processes. *)
Definition lexicalCorpus : list EnhancedChunk.t :=
  Enhanced.enhancedChunks (Enhanced.initializeEnhanced lexicalEnv emptyState).

Definition embeddedCorpus : list EnhancedChunk.t :=
  Enhanced.enhancedChunks (Enhanced.initializeEnhanced constantEnv emptyState).

(** The list a computation returns, empty if it does not return. *)
Definition returned {A : Type} (c : completion (list A)) : list A :=
  match c with
  | Return results => results
  | _ => []
  end.

(** A query that matches the topic "startup", and what retrieval returns for
    it over the embedded sample corpus. *)
Definition sampleQuery : string := "startup founder raise money".

Definition sampleResults : list RetrievalResult.t :=
  Eval vm_compute in
    returned (Enhanced.performMultiStageRetrieval constantEnv embeddedCorpus sampleQuery).

(** What lexical-only retrieval returns for "raise money" over the sample
    corpus. *)
Definition tiedResults : list RetrievalResult.t :=
  Eval vm_compute in
    returned (Enhanced.performMultiStageRetrieval lexicalEnv lexicalCorpus "raise money").


(* ------------------------------------------------------------------ *)
(** ** Signs and bounds of scores *)

(** A number that is NaN or has its sign bit clear: +0, a positive finite
    number or +Infinity. *)
Definition SignClear (x : float) : Prop :=
  match Prim2SF x with
  | S754_nan => True
  | S754_zero s | S754_infinity s | S754_finite s _ _ => s = false
  end.

(** A number that is NaN or lies between 0 and 1. *)
Definition UnitOrNaN (x : float) : Prop :=
  (x <? 0)%float = false /\ (1 <? x)%float = false.

(** The sign of a spec float, [None] for NaN. *)
Definition sign_sf (x : spec_float) : option bool :=
  match x with
  | S754_nan => None
  | S754_zero s | S754_infinity s | S754_finite s _ _ => Some s
  end.


(* ------------------------------------------------------------------ *)
(** ** Candidates of the retrieval stages *)

(** The chunk passed the semantic stage: query and chunk are embedded and
    their cosine similarity is above 0.25. *)
Definition SemanticCandidate (queryEmbedding : option vector) (chunk : EnhancedChunk.t) : Prop :=
  exists q e,
    queryEmbedding = Some q /\ EnhancedChunk.embedding chunk = Some e /\
    JS.gt (Enhanced.cosineSimilarity (Some q) (Some e)) 0.25 = true.

(** The chunk passed the keyword stage: the lexical relevance of its text and
    context is above 0.3. *)
Definition KeywordCandidate (query : string) (chunk : EnhancedChunk.t) : Prop :=
  exists score,
    Enhanced.calculateKeywordRelevance query
      (EnhancedChunk.text chunk ++ " " ++ EnhancedChunk.context chunk)%string = Return score /\
    JS.gt score 0.3 = true.

(* ------------------------------------------------------------------ *)
(** ** The order of the candidate stages *)

(** No element is followed, directly or later, by one of a strictly higher
    score. *)
Definition Descending {A : Type} (score : A -> float) (l : list A) : Prop :=
  StronglySorted (fun a b => (score a <? score b)%float = false) l.

(** The test "this element has score [v]". *)
Definition scoreIs {A : Type} (score : A -> float) (v : float) (a : A) : bool :=
  PrimFloat.Leibniz.eqb (score a) v.

(** [ranked] ranks [pool]: it is in descending order of score, and for each
    score it holds the elements of [pool] with that score, in the order they
    have in [pool]. *)
Definition Ranks {A : Type} (score : A -> float) (pool ranked : list A) : Prop :=
  Descending score ranked /\
  forall v, filter (scoreIs score v) ranked = filter (scoreIs score v) pool.

(** The keyword signal of the keyword stage: the lexical relevance of the
    text and context of the chunk. *)
Definition keywordSignal (query : string) (chunk : EnhancedChunk.t) : float :=
  match Enhanced.calculateKeywordRelevance query
          (EnhancedChunk.text chunk ++ " " ++ EnhancedChunk.context chunk)%string with
  | Return score => score
  | _ => 0%float
  end.

(** The chunks that the semantic stage admits, in the order they come in:
    cosine similarity above 0.25. *)
Definition semanticPool (queryEmbedding : option vector) (chunks : list EnhancedChunk.t)
  : list EnhancedChunk.t :=
  filter (fun chunk => JS.gt (semanticSignal queryEmbedding chunk) 0.25) chunks.

(** The chunks that the keyword stage admits, in the order they come in:
    keyword signal above 0.3. *)
Definition keywordPool (query : string) (chunks : list EnhancedChunk.t)
  : list EnhancedChunk.t :=
  filter (fun chunk => JS.gt (keywordSignal query chunk) 0.3) chunks.

(** The chunks of a list that are the first of their unit id, in the order of
    the list; [seen] holds the ids met so far. *)
Fixpoint firstOfEachId (seen : list string) (l : list EnhancedChunk.t)
  : list EnhancedChunk.t :=
  match l with
  | [] => []
  | chunk :: rest =>
      if includes_str seen (Enhanced.chunkKey chunk)
      then firstOfEachId seen rest
      else chunk :: firstOfEachId (seen ++ [Enhanced.chunkKey chunk]) rest
  end.

(** A transcript of four paragraphs, and a provider whose answer depends on
    the text: the query and the second paragraph point one way, the last two
    paragraphs the other way, the first in between. *)
Definition asideParagraph : string :=
  "Before we start, a word on the weather: it has been raining for a week, the studio roof leaks, and the recording was moved twice because of it.".

Definition openingParagraph : string :=
  "Welcome back to the show; today we talk about how young companies find their first customers, and about what it takes to keep them for years.".

Definition blankLine : string := String Enhanced.LF (String Enhanced.LF "").

Definition rankedTranscript : string :=
  (asideParagraph ++ blankLine ++ openingParagraph ++ blankLine
   ++ sampleParagraph1 ++ blankLine ++ sampleParagraph2)%string.

Definition directions (text : string) : option vector :=
  if JS.includes text "raise raise" then Some [0; 1]%float
  else if JS.includes text "weather" then Some [0.6; 0.8]%float
  else Some [1; 0]%float.

Definition rankedEnv : Env :=
  {| GROQ_API_KEY := Some "gsk";
     OPENAI_API_KEY := Some "sk";
     transcriptPath := "/app/public/transcripts";
     readdir := Some ["ep1.txt"];
     readFile := fun filename =>
       if String.eqb filename "ep1.txt" then Some rankedTranscript else None;
     provider := directions |}.

(** The process after its first enhanced retrieval, its corpus, and what
    that retrieval returned for "raise money". *)
Definition rankedState : Enhanced.State :=
  fst (Enhanced.enhancedRetrieval rankedEnv emptyState "raise money").

Definition rankedCorpus : list EnhancedChunk.t := Enhanced.enhancedChunks rankedState.

Definition retrieved (r : option (completion (list RetrievalResult.t)))
  : list RetrievalResult.t :=
  match r with
  | Some c => returned c
  | None => []
  end.

Definition rankedResults : list RetrievalResult.t :=
  Eval vm_compute in
    retrieved (snd (Enhanced.enhancedRetrieval rankedEnv emptyState "raise money")).

(* ------------------------------------------------------------------ *)
(** ** Case folding *)

(** A matcher state over the lower-cased input. *)
Definition lowerState (x : RegExp.mstate) : RegExp.mstate :=
  RegExp.MState (RegExp.pos x) (JS.toLowerCase (RegExp.rest x)) (RegExp.caps x).

(** [k'] does on the lower-cased input what [k] does on the input. *)
Definition FoldsCase (k k' : RegExp.cont) : Prop :=
  forall y, k' (lowerState y) = option_map lowerState (k y).

(* ------------------------------------------------------------------ *)
(** ** The corpus that initialisation builds *)

(** [d] is [c], possibly with the embedding that the provider returns for
    the text of [c]. *)
Definition EmbeddedFrom (env : Env) (c d : Chunk.t) : Prop :=
  d = c \/
  exists e, getEmbedding env (Chunk.text c) = Some e /\ d = Chunk.set_embedding c e.

(** A fresh chunk of the fixed-width chunker: at most 500 characters, no
    embedding, filed under a transcript of the directory. *)
Definition FreshChunk (files : list string) (c : Chunk.t) : Prop :=
  50 < String.length (Chunk.text c) <= 500 /\
  Chunk.embedding c = None /\
  exists filename,
    In filename files /\ JS.endsWith filename ".txt" = true /\
    Chunk.episode c = JS.remove_first filename ".txt".

(** A chunk of the corpus: a text of 51 to 500 characters filed under a
    transcript of the directory, whose embedding, if any, is the provider's
    answer for that text. *)
Definition CorpusChunk (env : Env) (files : list string) (c : Chunk.t) : Prop :=
  50 < String.length (Chunk.text c) <= 500 /\
  (exists filename,
     In filename files /\ JS.endsWith filename ".txt" = true /\
     Chunk.episode c = JS.remove_first filename ".txt") /\
  forall e, Chunk.embedding c = Some e -> getEmbedding env (Chunk.text c) = Some e.

(** The same for the enhanced corpus. *)
Definition EnhancedEmbeddedFrom (env : Env) (c d : EnhancedChunk.t) : Prop :=
  d = c \/
  exists e, getEmbedding env (EnhancedChunk.text c) = Some e /\
            d = EnhancedChunk.set_embedding c e.

(** A directory with the sample transcript and a file that cannot be
    read. *)
Definition brokenEnv : Env :=
  {| GROQ_API_KEY := Some "gsk";
     OPENAI_API_KEY := None;
     transcriptPath := "/app/public/transcripts";
     readdir := Some ["ep1.txt"; "ep2.txt"; "notes.md"];
     readFile := fun filename =>
       if String.eqb filename "ep1.txt" then Some sampleTranscript else None;
     provider := fun _ => None |}.

(** What the chunker settles for every chunk it emits: the episode it is
    filed under, no embedding yet, a guest name exactly for guest speakers,
    and topics drawn from the topic table without repetition. *)
Definition WellTagged (episodeName : string) (c : EnhancedChunk.t) : Prop :=
  EnhancedChunk.episode c = episodeName /\
  EnhancedChunk.embedding c = None /\
  (EnhancedChunk.speaker c = guest <-> EnhancedChunk.guestName c <> None) /\
  NoDup (EnhancedChunk.topics c) /\
  incl (EnhancedChunk.topics c) (map fst Enhanced.topicPatterns).

(** The callback of [getAvailableTopics]: [allTopicsSet.add(topic)]. *)
Definition addTopic (seen : list string) (topic : string) : list string :=
  if includes_str seen topic then seen else seen ++ [topic].

(** The chunk is embedded and its similarity to the query embedding [q] is
    above 0.2: what the semantic search of the original system asks for. *)
Definition SemanticMatch (q : vector) (c : Chunk.t) : Prop :=
  exists e, Chunk.embedding c = Some e /\
            JS.gt (Enhanced.similarity (Some q) (Some e)) 0.2 = true.

(** What [findRelevantChunks] of [lib/ai.ts] returns for "raise money" on
    the sample process without an embedding credential. *)
Definition sampleFound : list Chunk.t :=
  Eval vm_compute in
    returned (snd (Enhanced.findRelevantChunks lexicalEnv emptyState "raise money")).

(* ------------------------------------------------------------------ *)
(** ** Query expansion *)

(** The text that [expandQueryTerms] appends for an entry of its table. *)
Definition expansionOf (entry : string * list string) : string :=
  (" " ++ JS.join " " (snd entry))%string.

(** The entries of the table whose key occurs in the text. *)
Definition triggered (text : string) (entries : list (string * list string))
  : list (string * list string) :=
  filter (fun entry => JS.includes text (fst entry)) entries.

(** No key contains a space, and the synonyms of an entry contain none of
    the keys that come after it. *)
Definition spaceless (key : string) : bool :=
  negb (JS.includes key " ").

Fixpoint no_cascade (entries : list (string * list string)) : bool :=
  match entries with
  | [] => true
  | entry :: rest =>
      forallb (fun later => negb (JS.includes (JS.join " " (snd entry)) (fst later))) rest
      && no_cascade rest
  end.

(** A text without a hyphen. *)
Fixpoint no_hyphen (s : string) : bool :=
  match s with
  | EmptyString => true
  | String c s' => negb (Ascii.eqb c "-") && no_hyphen s'
  end.

(** The three accumulators with the two magnitudes exchanged. *)
Definition exchanged (acc : float * float * float) : float * float * float :=
  let '(dot, magA, magB) := acc in (dot, magB, magA).

(* ================================================================== *)
(** * The regular-expression matcher never runs out of fuel *)
(* ================================================================== *)

Section MatcherFuel.

Variable ignoreCase : bool.

Lemma Ahead_refl (x : RegExp.mstate) : Ahead x x.
Proof. unfold Ahead. lia. Qed.

Lemma Ahead_trans (x y z : RegExp.mstate) : Ahead x y -> Ahead y z -> Ahead x z.
Proof. unfold Ahead. lia. Qed.

Lemma Ahead_caps (x y : RegExp.mstate) (caps : list (nat * (nat * nat))) :
  Ahead x y -> Ahead x (RegExp.MState (RegExp.pos y) (RegExp.rest y) caps).
Proof. unfold Ahead, remaining. cbn. lia. Qed.

Lemma step_char_ContinuesAhead (p : ascii -> bool) : ContinuesAhead (RegExp.step_char p).
Proof.
  intros x k1 k2 H. unfold RegExp.step_char.
  destruct (RegExp.rest x) as [| c s'] eqn:E; [reflexivity |].
  destruct (p c); [| reflexivity]. apply H.
  unfold Ahead, remaining. rewrite E. cbn. lia.
Qed.

Lemma step_char_SucceedsAhead (p : ascii -> bool) : SucceedsAhead (RegExp.step_char p).
Proof.
  intros x k z H. unfold RegExp.step_char in H.
  destruct (RegExp.rest x) as [| c s'] eqn:E; [discriminate |].
  destruct (p c); [| discriminate].
  eexists. split; [| exact H]. unfold Ahead, remaining. rewrite E. cbn. lia.
Qed.

Section Repeat.

Variable body : RegExp.mstate -> RegExp.cont -> option RegExp.mstate.
Hypothesis body_continues : ContinuesAhead body.

Lemma repeat_matcher_ContinuesAhead (fuel : nat) :
  forall min max greedy, ContinuesAhead (fun x k => RegExp.repeat_matcher fuel body min max greedy x k).
Proof.
  induction fuel as [| fuel IH]; intros min max greedy x k1 k2 H; cbn [RegExp.repeat_matcher];
    [reflexivity |].
  assert (Hd : forall y, Ahead x y ->
            (if (min =? 0) && (RegExp.pos y =? RegExp.pos x) then None
             else RegExp.repeat_matcher fuel body (Nat.pred min) (option_map Nat.pred max) greedy y k1)
            = (if (min =? 0) && (RegExp.pos y =? RegExp.pos x) then None
               else RegExp.repeat_matcher fuel body (Nat.pred min) (option_map Nat.pred max) greedy y k2)).
  { intros y Hy. destruct ((min =? 0) && (RegExp.pos y =? RegExp.pos x)); [reflexivity |].
    apply IH. intros z Hz. apply H. now apply Ahead_trans with y. }
  rewrite (body_continues x _ _ Hd), (H x (Ahead_refl x)).
  destruct max as [[| n] |]; reflexivity.
Qed.

(** Enough fuel gives the result: above [min + remaining x] the fuel does
    not matter. *)
Lemma repeat_matcher_fuel (fuel1 : nat) :
  forall fuel2 min max greedy x k,
    min + remaining x < fuel1 ->
    min + remaining x < fuel2 ->
    RegExp.repeat_matcher fuel1 body min max greedy x k
    = RegExp.repeat_matcher fuel2 body min max greedy x k.
Proof.
  induction fuel1 as [| fuel1 IH]; intros fuel2 min max greedy x k H1 H2; [lia |].
  destruct fuel2 as [| fuel2]; [lia |]. cbn [RegExp.repeat_matcher].
  assert (Hd : forall y, Ahead x y ->
            (if (min =? 0) && (RegExp.pos y =? RegExp.pos x) then None
             else RegExp.repeat_matcher fuel1 body (Nat.pred min) (option_map Nat.pred max) greedy y k)
            = (if (min =? 0) && (RegExp.pos y =? RegExp.pos x) then None
               else RegExp.repeat_matcher fuel2 body (Nat.pred min) (option_map Nat.pred max) greedy y k)).
  { intros y [Hp Hr].
    destruct (min =? 0) eqn:Em; destruct (RegExp.pos y =? RegExp.pos x) eqn:Ep;
      cbn [andb]; try reflexivity.
    - apply Nat.eqb_eq in Em. apply Nat.eqb_neq in Ep. apply IH; lia.
    - apply Nat.eqb_neq in Em. apply IH; lia.
    - apply Nat.eqb_neq in Em. apply IH; lia. }
  rewrite (body_continues x _ _ Hd).
  destruct max as [[| n] |]; reflexivity.
Qed.

Hypothesis body_succeeds : SucceedsAhead body.

Lemma repeat_matcher_SucceedsAhead (fuel : nat) :
  forall min max greedy, SucceedsAhead (fun x k => RegExp.repeat_matcher fuel body min max greedy x k).
Proof.
  induction fuel as [| fuel IH]; intros min max greedy x k z H; cbn [RegExp.repeat_matcher] in H;
    [discriminate |].
  assert (Hbody : forall d : RegExp.cont,
            (forall y, d y = if (min =? 0) && (RegExp.pos y =? RegExp.pos x) then None
                             else RegExp.repeat_matcher fuel body (Nat.pred min)
                                    (option_map Nat.pred max) greedy y k) ->
            body x d = Some z -> exists y, Ahead x y /\ k y = Some z).
  { intros d Hd Hb. apply body_succeeds in Hb as (y & Hy & Hdy). rewrite Hd in Hdy.
    destruct ((min =? 0) && (RegExp.pos y =? RegExp.pos x)); [discriminate |].
    apply IH in Hdy as (y' & Hy' & Hk). exists y'. split; [now apply Ahead_trans with y | exact Hk]. }
  assert (Hk : k x = Some z -> exists y, Ahead x y /\ k y = Some z)
    by (intros E; exists x; split; [apply Ahead_refl | exact E]).
  destruct max as [[| n] |]; [now apply Hk | |];
    (destruct (negb (min =? 0));
     [ eapply Hbody; [| exact H]; reflexivity
     | destruct greedy;
       [ match type of H with
         | match ?b with _ => _ end = _ =>
             destruct b eqn:Eb; [injection H as ->; eapply Hbody; [| exact Eb]; reflexivity
                                | now apply Hk]
         end
       | match type of H with
         | match ?b with _ => _ end = _ =>
             destruct b eqn:Eb; [injection H as ->; now apply Hk
                                | eapply Hbody; [| exact H]; reflexivity]
         end ] ]).
Qed.

End Repeat.

Lemma matcher_ContinuesAhead (r : RegExp.regex) : ContinuesAhead (RegExp.matcher ignoreCase r).
Proof.
  induction r as [| c | | items | r1 IH1 r2 IH2 | r1 IH1 r2 IH2 | r1 IH1 min max greedy
                  | n r1 IH1 | r1 IH1 | |];
    intros x k1 k2 H; cbn [RegExp.matcher].
  - apply H, Ahead_refl.
  - now apply step_char_ContinuesAhead.
  - now apply step_char_ContinuesAhead.
  - now apply step_char_ContinuesAhead.
  - apply IH1. intros y Hy. apply IH2. intros z Hz. apply H. now apply Ahead_trans with y.
  - now rewrite (IH1 x k1 k2 H), (IH2 x k1 k2 H).
  - now apply (repeat_matcher_ContinuesAhead _ IH1).
  - apply IH1. intros y Hy. apply H. now apply Ahead_caps.
  - destruct (RegExp.matcher ignoreCase r1 x (fun y => Some y)); [| reflexivity].
    apply H. unfold Ahead, remaining. cbn. lia.
  - destruct (RegExp.pos x =? 0); [apply H, Ahead_refl | reflexivity].
  - destruct (RegExp.rest x); [apply H, Ahead_refl | reflexivity].
Qed.

Lemma matcher_SucceedsAhead (r : RegExp.regex) : SucceedsAhead (RegExp.matcher ignoreCase r).
Proof.
  induction r as [| c | | items | r1 IH1 r2 IH2 | r1 IH1 r2 IH2 | r1 IH1 min max greedy
                  | n r1 IH1 | r1 IH1 | |];
    intros x k z H; cbn [RegExp.matcher] in H.
  - exists x. split; [apply Ahead_refl | exact H].
  - now apply step_char_SucceedsAhead in H.
  - now apply step_char_SucceedsAhead in H.
  - now apply step_char_SucceedsAhead in H.
  - apply IH1 in H as (y & Hy & H). apply IH2 in H as (y' & Hy' & H).
    exists y'. split; [now apply Ahead_trans with y | exact H].
  - destruct (RegExp.matcher ignoreCase r1 x k) eqn:E1.
    + injection H as ->. now apply IH1 in E1.
    + now apply IH2 in H.
  - now apply (repeat_matcher_SucceedsAhead _ IH1) in H.
  - apply IH1 in H as (y & Hy & H). eexists. split; [| exact H]. now apply Ahead_caps.
  - destruct (RegExp.matcher ignoreCase r1 x (fun y => Some y)) as [y |]; [| discriminate].
    eexists. split; [| exact H]. unfold Ahead, remaining. cbn. lia.
  - destruct (RegExp.pos x =? 0); [| discriminate]. exists x. split; [apply Ahead_refl | exact H].
  - destruct (RegExp.rest x) eqn:E; [| discriminate]. exists x. split; [apply Ahead_refl | exact H].
Qed.

(** The fuel that [matcher] hands to a quantifier is enough: any larger
    amount gives the same result. *)
Lemma matcher_repeat_fuel (r : RegExp.regex) (min : nat) (max : option nat) (greedy : bool)
    (x : RegExp.mstate) (k : RegExp.cont) (extra : nat) :
  RegExp.matcher ignoreCase (RegExp.Repeat r min max greedy) x k =
  RegExp.repeat_matcher (min + remaining x + 1 + extra) (RegExp.matcher ignoreCase r)
                        min max greedy x k.
Proof.
  cbn [RegExp.matcher]. apply repeat_matcher_fuel.
  - apply matcher_ContinuesAhead.
  - unfold remaining. lia.
  - unfold remaining. lia.
Qed.

Lemma drop_length (i : nat) : forall s, String.length (JS.drop i s) = String.length s - i.
Proof.
  induction i as [| i IH]; intros [| c s]; cbn; try reflexivity. apply IH.
Qed.

(** A match anchored at [i] ends between [i] and the end of the input. *)
Lemma match_at_bounds (r : RegExp.regex) (s : string) (i : nat) (y : RegExp.mstate) :
  RegExp.match_at ignoreCase r s i = Some y ->
  i <= RegExp.pos y <= String.length s.
Proof.
  unfold RegExp.match_at. destruct (i <=? String.length s) eqn:Ei; [| discriminate].
  apply Nat.leb_le in Ei. intros H.
  apply matcher_SucceedsAhead in H as (y' & [Hp Hr] & E). injection E as ->.
  unfold remaining in Hr. cbn in Hp, Hr. rewrite drop_length in Hr. lia.
Qed.

Lemma exec_from_bounds (r : RegExp.regex) (s : string) (fuel : nat) :
  forall i start y,
    RegExp.exec_from ignoreCase fuel r s i = Some (start, y) ->
    i <= start /\ start <= RegExp.pos y <= String.length s.
Proof.
  induction fuel as [| fuel IH]; intros i start y H; cbn in H; [discriminate |].
  destruct (RegExp.match_at ignoreCase r s i) as [y' |] eqn:E.
  - injection H as <- <-. apply match_at_bounds in E. lia.
  - apply IH in H. lia.
Qed.

(** The count of global matches does not depend on the fuel once it covers
    the indices left. *)
Lemma count_from_fuel (r : RegExp.regex) (s : string) (fuel1 : nat) :
  forall fuel2 lastIndex,
    String.length s + 2 <= lastIndex + fuel1 ->
    String.length s + 2 <= lastIndex + fuel2 ->
    RegExp.count_from ignoreCase fuel1 r s lastIndex
    = RegExp.count_from ignoreCase fuel2 r s lastIndex.
Proof.
  induction fuel1 as [| fuel1 IH]; intros fuel2 lastIndex H1 H2.
  - destruct fuel2 as [| fuel2]; [reflexivity |]. cbn.
    unfold RegExp.exec. replace (String.length s + 1 - lastIndex) with 0 by lia. reflexivity.
  - destruct fuel2 as [| fuel2].
    + cbn. unfold RegExp.exec. replace (String.length s + 1 - lastIndex) with 0 by lia.
      reflexivity.
    + cbn [RegExp.count_from].
      destruct (RegExp.exec ignoreCase r s lastIndex) as [[start y] |] eqn:E; [| reflexivity].
      apply exec_from_bounds in E. f_equal.
      destruct (RegExp.pos y =? start) eqn:Ep; [| apply Nat.eqb_neq in Ep]; apply IH; lia.
Qed.

(** The split loop is over before its fuel: above twice the length left the
    fuel does not matter. *)
Lemma split_from_fuel (r : RegExp.regex) (s : string) (fuel1 : nat) :
  forall fuel2 p q,
    p <= q ->
    2 * (String.length s - q) + (if p <? q then 1 else 0) < fuel1 ->
    2 * (String.length s - q) + (if p <? q then 1 else 0) < fuel2 ->
    RegExp.split_from ignoreCase fuel1 r s p q = RegExp.split_from ignoreCase fuel2 r s p q.
Proof.
  induction fuel1 as [| fuel1 IH]; intros fuel2 p q Hpq H1 H2; [lia |].
  destruct fuel2 as [| fuel2]; [lia |]. cbn [RegExp.split_from].
  destruct (q <? String.length s) eqn:Eq; [| reflexivity]. apply Nat.ltb_lt in Eq.
  assert (Hnext : RegExp.split_from ignoreCase fuel1 r s p (S q)
                  = RegExp.split_from ignoreCase fuel2 r s p (S q)).
  { apply IH; [lia | |]; destruct (p <? S q), (p <? q); lia. }
  destruct (RegExp.match_at ignoreCase r s q) as [y |] eqn:Em; [| exact Hnext].
  apply match_at_bounds in Em.
  rewrite Nat.min_l by lia.
  destruct (RegExp.pos y =? p) eqn:Ep; [exact Hnext |]. apply Nat.eqb_neq in Ep.
  f_equal. apply IH; [lia | |]; rewrite Nat.ltb_irrefl;
    destruct (p <? q) eqn:E; try apply Nat.ltb_lt in E; try apply Nat.ltb_ge in E; lia.
Qed.

End MatcherFuel.

(** The fixed-width loop ends by its own test: with at least as much fuel as
    there are characters left, the fuel does not matter. *)
Lemma fixedWidthLoop_fuel (content episode : string) (fuel1 : nat) :
  forall fuel2 i chunkIndex,
    String.length content - i <= fuel1 ->
    String.length content - i <= fuel2 ->
    Original.fixedWidthLoop fuel1 content episode i chunkIndex
    = Original.fixedWidthLoop fuel2 content episode i chunkIndex.
Proof.
  induction fuel1 as [| fuel1 IH]; intros fuel2 i chunkIndex H1 H2.
  - assert (E : (i <? String.length content) = false) by (apply Nat.ltb_ge; lia).
    destruct fuel2 as [| fuel2]; cbn [Original.fixedWidthLoop]; [reflexivity |].
    now rewrite E.
  - destruct fuel2 as [| fuel2]; cbn [Original.fixedWidthLoop].
    + assert (E : (i <? String.length content) = false) by (apply Nat.ltb_ge; lia).
      now rewrite E.
    + destruct (i <? String.length content) eqn:E; [| reflexivity]. apply Nat.ltb_lt in E.
      destruct (50 <? _); [f_equal |]; apply IH; lia.
Qed.

(* ================================================================== *)
(** * Facts about binary64 arithmetic *)
(* ================================================================== *)

Module FloatFacts.

Lemma Prim2SF_zero : Prim2SF 0%float = S754_zero false.
Proof. reflexivity. Qed.

(** [x - x] is +0 or NaN, never positive. *)
Lemma sub_self_not_positive (x : float) : JS.gt (x - x)%float 0 = false.
Proof.
  unfold JS.gt. rewrite ltb_spec, sub_spec, Prim2SF_zero.
  destruct (Prim2SF x) as [s | s | | s m e].
  - destruct s; reflexivity.
  - destruct s; reflexivity.
  - reflexivity.
  - unfold SF64sub, SFsub.
    rewrite Z.min_id. unfold shl_align. rewrite !Z.sub_diag. reflexivity.
Qed.





End FloatFacts.

(* ================================================================== *)
(** * The lexical scorers on degenerate and on malformed queries *)
(* ================================================================== *)

(** The patterns of the topic table are all within the parser's fragment. *)
Lemma topicPatterns_compile :
  forallb (fun entry =>
             match RegExp.RegExp_new (snd entry) with
             | RegExp.Compiled _ => true
             | _ => false
             end) Enhanced.topicPatterns = true.
Proof. vm_compute. reflexivity. Qed.

Section LexicalScorer.

(** With no token longer than two characters the loop adds nothing: what
    [calculateKeywordRelevance] returns is decided by the phrase test, and
    the division is by zero. *)
Lemma calculateKeywordRelevance_no_tokens (query text : string) :
  Lexical.queryWords query = [] ->
  Enhanced.calculateKeywordRelevance query text =
  Return (if JS.includes (JS.toLowerCase text) (JS.toLowerCase query)
          then 1%float else PrimFloat.nan).
Proof.
  intros Hw. unfold Enhanced.calculateKeywordRelevance. rewrite Hw. cbn [forEach bind List.length].
  destruct (JS.includes _ _); reflexivity.
Qed.

Lemma calculateContentRelevance_no_tokens (query text : string) :
  Lexical.queryWords query = [] ->
  Simple.calculateContentRelevance query text =
  Return (JS.Math_min
            ((if JS.includes (JS.toLowerCase text) (JS.toLowerCase query)
              then 2 else 0) / (JS.num (String.length text) / 100))%float 1).
Proof.
  intros Hw. unfold Simple.calculateContentRelevance. rewrite Hw. cbn [forEach bind].
  destruct (JS.includes _ _); reflexivity.
Qed.

(** A token that is not a well-formed pattern makes the loop throw at that
    token, whatever the text. *)
Lemma countMatches_syntax_error (text word : string) :
  RegExp.RegExp_new word = RegExp.SyntaxError ->
  Lexical.countMatches text word = Throw.
Proof. intros H. unfold Lexical.countMatches. now rewrite H. Qed.

Lemma queryWords_cpp : Lexical.queryWords "c++" = ["c++"].
Proof. vm_compute. reflexivity. Qed.

Lemma queryWords_paren : Lexical.queryWords "(how" = ["(how"].
Proof. vm_compute. reflexivity. Qed.

Lemma RegExp_cpp : RegExp.RegExp_new "c++" = RegExp.SyntaxError.
Proof. vm_compute. reflexivity. Qed.

Lemma RegExp_paren : RegExp.RegExp_new "(how" = RegExp.SyntaxError.
Proof. vm_compute. reflexivity. Qed.

(** With every token a well-formed pattern the scorer returns a number. *)
Lemma calculateKeywordRelevance_returns (query text : string) :
  Forall Compiles (Lexical.queryWords query) ->
  exists score, Enhanced.calculateKeywordRelevance query text = Return score.
Proof.
  intros H. unfold Enhanced.calculateKeywordRelevance.
  assert (Hloop : forall init, exists score,
            forEach (Lexical.queryWords query)
              (fun score word =>
                 matches <- Lexical.countMatches (JS.toLowerCase text) word ;;
                 Return (score + JS.num matches * (JS.num (String.length word) / 10))%float)
              init = Return score).
  { induction H as [| word words [r Hr] _ IH]; intros init; cbn [forEach].
    - now exists init.
    - unfold Lexical.countMatches at 1. rewrite Hr. cbn [bind]. apply IH. }
  destruct (Hloop 0%float) as [score ->]. cbn [bind]. eauto.
Qed.

Lemma mapM_returns {A B : Type} (f : A -> completion B) (l : list A) :
  (forall a, exists b, f a = Return b) -> exists bs, mapM f l = Return bs.
Proof.
  intros Hf. induction l as [| a l [bs IH]]; cbn [mapM]; [now exists [] |].
  destruct (Hf a) as [b ->]. rewrite IH. cbn [bind]. eauto.
Qed.

Lemma calculateEnhancedRelevance_returns (query : string) (chunk : EnhancedChunk.t)
    (queryEmbedding : option vector) :
  Forall Compiles (Lexical.queryWords query) ->
  exists score, Enhanced.calculateEnhancedRelevance query chunk queryEmbedding = Return score.
Proof.
  intros H. unfold Enhanced.calculateEnhancedRelevance.
  destruct (calculateKeywordRelevance_returns query (EnhancedChunk.text chunk) H) as [k ->].
  destruct (calculateKeywordRelevance_returns query (EnhancedChunk.context chunk) H) as [c ->].
  cbn [bind]. eauto.
Qed.

Lemma scoreCandidates_returns (query : string) (queryEmbedding : option vector)
    (candidates : list EnhancedChunk.t) :
  Forall Compiles (Lexical.queryWords query) ->
  exists results, Enhanced.scoreCandidates query queryEmbedding candidates = Return results.
Proof.
  intros H. unfold Enhanced.scoreCandidates.
  match goal with |- exists results, forEach _ ?f _ = _ => set (step := f) end.
  enough (Hloop : forall acc, exists results, forEach candidates step acc = Return results)
    by apply Hloop.
  induction candidates as [| chunk candidates IH]; intros acc; cbn [forEach];
    [now exists acc |].
  unfold step at 1.
  destruct (calculateEnhancedRelevance_returns query chunk queryEmbedding H) as [score ->].
  cbn [bind]. destruct (JS.gt score 0.3); cbn [bind]; apply IH.
Qed.

(** Retrieval returns a list whenever every token of the query is a
    well-formed pattern. *)
Lemma performMultiStageRetrieval_returns (env : Env) (corpus : list EnhancedChunk.t)
    (query : string) :
  Forall Compiles (Lexical.queryWords query) ->
  exists results, Enhanced.performMultiStageRetrieval env corpus query = Return results.
Proof.
  intros H. unfold Enhanced.performMultiStageRetrieval, Enhanced.fusedCandidates,
    Enhanced.enhancedKeywordSearch.
  edestruct (mapM_returns
               (fun chunk =>
                  score <- Enhanced.calculateKeywordRelevance query
                             (EnhancedChunk.text chunk ++ " " ++ EnhancedChunk.context chunk)%string ;;
                  Return (chunk, score))
               (Enhanced.topicFilter corpus query)) as [scored ->].
  { intros chunk.
    destruct (calculateKeywordRelevance_returns query
                (EnhancedChunk.text chunk ++ " " ++ EnhancedChunk.context chunk)%string H)
      as [score ->].
    cbn [bind]. eauto. }
  cbn [bind].
  match goal with
  | |- exists results, (r <- Enhanced.scoreCandidates _ _ ?l ;; _) = _ =>
      destruct (scoreCandidates_returns query (getEmbedding env query) l H) as [results ->]
  end.
  cbn [bind]. eauto.
Qed.

End LexicalScorer.

(** C5, at a query the scorers can receive: every token of ["hi"] has at most
    two characters, yet [calculateKeywordRelevance] returns 1 for a text that
    contains the query and NaN for one that does not, and
    [calculateContentRelevance] returns 1 for a text that contains it; the
    same holds for the empty query. *)
Theorem lexical_scorer_without_tokens :
  Lexical.queryWords "hi" = [] /\
  Lexical.queryWords "" = [] /\
  Enhanced.calculateKeywordRelevance "hi" "this is it" = Return 1%float /\
  Enhanced.calculateKeywordRelevance "hi" "abc" = Return PrimFloat.nan /\
  Enhanced.calculateKeywordRelevance "" "abc" = Return 1%float /\
  Simple.calculateContentRelevance "hi" "this is it" = Return 1%float /\
  Simple.calculateContentRelevance "" "abc" = Return 1%float.
Proof. repeat apply conj; vm_compute; reflexivity. Qed.

(** C10: the tokens ["c++"] and ["(how"] are longer than two characters and
    are not well-formed patterns, so [new RegExp(word, 'g')] throws: both
    lexical scorers throw for every text, and the keyword search throws on
    every non-empty corpus. *)
Theorem regexp_metacharacter_token_throws :
  (forall text, Enhanced.calculateKeywordRelevance "c++" text = Throw) /\
  (forall text, Enhanced.calculateKeywordRelevance "(how" text = Throw) /\
  (forall text, Simple.calculateContentRelevance "c++" text = Throw) /\
  (forall text, Simple.calculateContentRelevance "(how" text = Throw) /\
  (forall chunk chunks, Enhanced.searchByKeywordsEnhanced (chunk :: chunks) "c++" = Throw) /\
  (forall chunk chunks, Enhanced.searchByKeywordsEnhanced (chunk :: chunks) "(how" = Throw).
Proof.
  repeat apply conj; intros.
  - unfold Enhanced.calculateKeywordRelevance. rewrite queryWords_cpp.
    cbn [forEach bind]. now rewrite (countMatches_syntax_error _ _ RegExp_cpp).
  - unfold Enhanced.calculateKeywordRelevance. rewrite queryWords_paren.
    cbn [forEach bind]. now rewrite (countMatches_syntax_error _ _ RegExp_paren).
  - unfold Simple.calculateContentRelevance. rewrite queryWords_cpp.
    cbn [forEach bind]. now rewrite (countMatches_syntax_error _ _ RegExp_cpp).
  - unfold Simple.calculateContentRelevance. rewrite queryWords_paren.
    cbn [forEach bind]. now rewrite (countMatches_syntax_error _ _ RegExp_paren).
  - unfold Enhanced.searchByKeywordsEnhanced. rewrite queryWords_cpp.
    cbn [List.length Nat.eqb mapM bind]. unfold Enhanced.keywordScore at 1.
    cbn [forEach bind].
    now rewrite (countMatches_syntax_error _ _ RegExp_cpp).
  - unfold Enhanced.searchByKeywordsEnhanced. rewrite queryWords_paren.
    cbn [List.length Nat.eqb mapM bind]. unfold Enhanced.keywordScore at 1.
    cbn [forEach bind].
    now rewrite (countMatches_syntax_error _ _ RegExp_paren).
Qed.

(* ================================================================== *)
(** * Rounding in binary64: squares, roots and quotients *)
(* ================================================================== *)

Section Binary64Rounding.

Local Open Scope Z_scope.

Lemma digits2_pos_size (p : positive) : digits2_pos p = Pos.size p.
Proof. induction p as [p IH | p IH |]; cbn; now rewrite ?IH. Qed.

(** A positive number of [d] binary digits lies in [2^(d-1), 2^d). *)
Lemma digits2_pos_bounds (p : positive) :
  2 ^ (Zpos (digits2_pos p) - 1) <= Zpos p < 2 ^ Zpos (digits2_pos p).
Proof.
  rewrite digits2_pos_size. split.
  - pose proof (Pos.size_le p) as H.
    apply Pos2Z.pos_le_pos in H. rewrite Pos2Z.inj_pow in H.
    change (Zpos p~0) with (2 * Zpos p) in H.
    replace (Zpos (Pos.size p)) with (Z.succ (Zpos (Pos.size p) - 1)) in H by lia.
    rewrite Z.pow_succ_r in H by lia. lia.
  - pose proof (Pos.size_gt p) as H.
    apply Pos2Z.pos_lt_pos in H. now rewrite Pos2Z.inj_pow in H.
Qed.



Lemma shifted_exact (m : Z) : 0 <= m -> shifted m 0 (shr_record_of_loc m loc_Exact).
Proof.
  intros Hm. exists 0. cbn. repeat apply conj; try lia; try discriminate.
Qed.

Lemma shr_1_shifted (m k : Z) (x : shr_record) :
  0 <= k -> shifted m k x -> shifted m (k + 1) (shr_1 x).
Proof.
  intros Hk (rem & Hm & Hrem & Hpos & Hr1 & Hr0 & Hs).
  assert (E : 2 ^ (k + 1) = 2 * 2 ^ k) by (rewrite Z.pow_add_r by lia; lia).
  assert (Hp : 0 < 2 ^ k) by (apply Z.pow_pos_nonneg; lia).
  destruct x as [m' r s]. cbn [shr_m shr_r shr_s] in *.
  unfold shifted. rewrite E. set (P := 2 ^ k) in *.
  destruct m' as [| [p | p |] | p]; cbn [shr_1 shr_m shr_r shr_s]; try lia.
  - exists rem. repeat apply conj; try lia; try discriminate.
    intros Hrs. apply orb_false_iff in Hrs as [-> ->].
    split; [intros _; apply Hs; reflexivity | discriminate].
  - exists (rem + P). rewrite Pos2Z.inj_xI in Hm.
    repeat apply conj; try lia; try discriminate.
    intros Hrs. apply orb_false_iff in Hrs as [-> ->].
    split; [discriminate | intros _].
    assert (rem = 0) by (apply Hs; reflexivity). lia.
  - exists rem. rewrite Pos2Z.inj_xO in Hm.
    repeat apply conj; try lia; try discriminate.
    intros Hrs. apply orb_false_iff in Hrs as [-> ->].
    split; [intros _; apply Hs; reflexivity | discriminate].
  - exists (rem + P).
    repeat apply conj; try lia; try discriminate.
    intros Hrs. apply orb_false_iff in Hrs as [-> ->].
    split; [discriminate | intros _].
    assert (rem = 0) by (apply Hs; reflexivity). lia.
Qed.

Lemma iter_pos_shifted (n : positive) : forall m k x,
  0 <= k -> shifted m k x -> shifted m (k + Zpos n) (SpecFloat.iter_pos shr_1 n x).
Proof.
  induction n as [n IH | n IH |]; intros m k x Hk H; cbn [SpecFloat.iter_pos].
  - replace (k + Zpos n~1) with (k + 1 + Zpos n + Zpos n) by lia.
    apply IH; [lia |]. apply IH; [lia |]. now apply shr_1_shifted.
  - replace (k + Zpos n~0) with (k + Zpos n + Zpos n) by lia.
    apply IH; [lia |]. now apply IH.
  - now apply shr_1_shifted.
Qed.

(** Rounding to nearest after [k] shifts is off by at most half a unit. *)
Lemma round_nearest_even_shifted (m k : Z) (x : shr_record) :
  shifted m k x ->
  let P := round_nearest_even (shr_m x) (loc_of_shr_record x) in
  shr_m x <= P <= shr_m x + 1 /\
  2 * (P * 2 ^ k) <= 2 * m + 2 ^ k /\ 2 * m <= 2 * (P * 2 ^ k) + 2 ^ k.
Proof.
  intros (rem & Hm & Hrem & Hpos & Hr1 & Hr0 & Hs).
  destruct x as [m' r s]. cbn [shr_m shr_r shr_s] in *.
  set (Q := 2 ^ k) in *.
  destruct r, s; cbn [loc_of_shr_record round_nearest_even].
  - specialize (Hr1 eq_refl). nia.
  - specialize (Hr1 eq_refl). destruct Hs as [_ Hs]; [reflexivity |].
    specialize (Hs eq_refl). destruct (Z.even m'); nia.
  - specialize (Hr0 eq_refl). nia.
  - specialize (Hr0 eq_refl). nia.
Qed.



Lemma binary_round_aux_pack (sx : bool) (mx ex : Z) (lx : location) :
  binary_round_aux prec emax sx mx ex lx =
  let '(mrs, e) := shr_fexp prec emax mx ex lx in
  pack sx (round_nearest_even (shr_m mrs) (loc_of_shr_record mrs)) e.
Proof. reflexivity. Qed.











End Binary64Rounding.


Section Binary64Order.

Local Open Scope Z_scope.

(** Bringing a positive mantissa into the format leaves it positive. *)
Lemma shr_fexp_positive (p : positive) (e : Z) :
  -1074 <= e ->
  exists mrs e' k,
    shr_fexp prec emax (Zpos p) e loc_Exact = (mrs, e') /\
    -1074 <= e' /\ 0 < shr_m mrs /\ shifted (Zpos p) k mrs.
Proof.
  intros He. unfold shr_fexp, Zdigits2.
  pose proof (digits2_pos_bounds p) as [Hlo Hhi].
  set (d := Zpos (digits2_pos p)) in *.
  unfold fexp, SpecFloat.emin, prec, emax.
  destruct (Z.max (d + e - 53) (3 - 1024 - 53) - e) as [| n | n] eqn:En.
  - exists (shr_record_of_loc (Zpos p) loc_Exact), e, 0.
    repeat apply conj; try reflexivity; try lia. apply shifted_exact. lia.
  - assert (Hn : Zpos n = d - 53) by lia.
    pose proof (iter_pos_shifted n (Zpos p) 0 _ (Z.le_refl 0) (shifted_exact (Zpos p) ltac:(lia)))
      as Hsh.
    exists (SpecFloat.iter_pos shr_1 n (shr_record_of_loc (Zpos p) loc_Exact)), (e + Zpos n),
           (0 + Zpos n).
    repeat apply conj; try reflexivity; try lia; [| exact Hsh].
    destruct Hsh as (rem & Hm & Hrem & Hpos & _).
    assert (E52 : 2 ^ (d - 1) = 2 ^ 52 * 2 ^ (0 + Zpos n)).
    { rewrite <- Z.pow_add_r by lia. f_equal. lia. }
    rewrite E52 in Hlo.
    assert (HQ : 0 < 2 ^ (0 + Zpos n)) by (apply Z.pow_pos_nonneg; lia).
    set (Q := 2 ^ (0 + Zpos n)) in *. nia.
  - exists (shr_record_of_loc (Zpos p) loc_Exact), e, 0.
    repeat apply conj; try reflexivity; try lia. apply shifted_exact. lia.
Qed.

Lemma pack_positive (P : positive) (e : Z) :
  -1074 <= e -> SFltb (S754_zero false) (pack false (Zpos P) e) = true.
Proof.
  intros He. unfold pack.
  destruct (shr_fexp_positive P e He) as (mrs & e' & k & -> & _ & Hpos & _).
  destruct (shr_m mrs) as [| m | m]; try lia.
  destruct (e' <=? emax - prec); reflexivity.
Qed.

(** Rounding a positive integer never gives zero: the result is positive. *)
Lemma binary_round_aux_positive (p : positive) (e : Z) :
  -1074 <= e ->
  SFltb (S754_zero false) (binary_round_aux prec emax false (Zpos p) e loc_Exact) = true.
Proof.
  intros He. rewrite binary_round_aux_pack.
  destruct (shr_fexp_positive p e He) as (mrs & e' & k & -> & He' & Hpos & Hsh).
  pose proof (round_nearest_even_shifted _ _ _ Hsh) as (HR & _).
  destruct (round_nearest_even (shr_m mrs) (loc_of_shr_record mrs)) as [| R | R]; try lia.
  now apply pack_positive.
Qed.

Lemma iter_xO (d : positive) (m : positive) :
  Zpos (Pos.iter xO m d) = Zpos m * 2 ^ Zpos d.
Proof.
  induction d as [| d IH] using Pos.peano_ind.
  - cbn. lia.
  - rewrite Pos.iter_succ, Pos2Z.inj_xO, IH, Pos2Z.inj_succ, Z.pow_succ_r by lia. lia.
Qed.

Lemma shl_align_fst (m : positive) (e e' : Z) :
  e' <= e -> Zpos (fst (shl_align m e e')) = Zpos m * 2 ^ (e - e').
Proof.
  intros Hle. unfold shl_align.
  destruct (e' - e) as [| d | d] eqn:Ed; try lia.
  - replace (e - e') with 0 by lia. cbn [fst]. lia.
  - cbn [fst]. rewrite iter_xO. f_equal. f_equal. lia.
Qed.

Lemma binary_round_positive (p : positive) (e : Z) :
  -1074 <= e -> SFltb (S754_zero false) (binary_round prec emax false p e) = true.
Proof.
  intros He. unfold binary_round.
  destruct (shl_align p e (fexp prec emax (Zpos (digits2_pos p) + e))) as [mz ez] eqn:E.
  apply binary_round_aux_positive.
  unfold shl_align in E.
  assert (Hf : -1074 <= fexp prec emax (Zpos (digits2_pos p) + e))
    by (unfold fexp, SpecFloat.emin, prec, emax; lia).
  destruct (fexp prec emax (Zpos (digits2_pos p) + e) - e); injection E as <- <-;
    first [lia | exact Hf].
Qed.

(** The mantissa and exponent of a number of the format. *)
Lemma bounded_digits (m : positive) (e : Z) :
  SpecFloat.bounded prec emax m e = true ->
  -1074 <= e /\ Zpos m < 2 ^ 53 /\ (-1074 < e -> 2 ^ 52 <= Zpos m).
Proof.
  unfold SpecFloat.bounded, canonical_mantissa. intros H.
  apply andb_prop in H as [Hc _]. apply Z.eqb_eq in Hc.
  unfold fexp, SpecFloat.emin, prec, emax in Hc.
  pose proof (digits2_pos_bounds m) as [Hlo Hhi].
  set (d := Zpos (digits2_pos m)) in *.
  assert (Hd : d <= 53) by lia.
  repeat apply conj; try lia.
  - assert (2 ^ d <= 2 ^ 53) by (apply Z.pow_le_mono_r; lia). lia.
  - intros He. replace d with 53 in Hlo by lia. exact Hlo.
Qed.

(** Of two numbers of the format with the same sign, the one with the
    smaller exponent has the smaller magnitude. *)
Lemma smaller_exponent (m1 m2 : positive) (e1 e2 : Z) :
  SpecFloat.bounded prec emax m1 e1 = true -> SpecFloat.bounded prec emax m2 e2 = true -> e1 < e2 ->
  Zpos m1 < Zpos m2 * 2 ^ (e2 - e1).
Proof.
  intros H1 H2 Hlt.
  destruct (bounded_digits _ _ H1) as (He1 & Hm1 & _).
  destruct (bounded_digits _ _ H2) as (_ & _ & Hm2). specialize (Hm2 ltac:(lia)).
  assert (2 ^ 1 <= 2 ^ (e2 - e1)) by (apply Z.pow_le_mono_r; lia).
  change (2 ^ 1) with 2 in *. change (2 ^ 53) with (2 * 2 ^ 52) in Hm1.
  assert (0 < 2 ^ 52) by reflexivity.
  set (T := 2 ^ 52) in *. set (Q := 2 ^ (e2 - e1)) in *. nia.
Qed.

(** [x < y] makes the computed difference [y - x] positive: the subtraction
    has gradual underflow, it never rounds a non-zero difference to zero. *)
Lemma SFsub_positive (x y : spec_float) :
  valid_binary x = true -> valid_binary y = true ->
  SFltb x y = true -> SFltb (S754_zero false) (SFsub prec emax y x) = true.
Proof.
  intros Hx Hy Hlt.
  destruct x as [sx | sx | | sx mx ex], y as [sy | sy | | sy my ey];
    try discriminate Hlt;
    try (destruct sx; try discriminate Hlt; destruct sy; try discriminate Hlt; reflexivity);
    try (destruct sx; try discriminate Hlt; reflexivity);
    try (destruct sy; try discriminate Hlt; reflexivity).
  cbn [valid_binary] in Hx, Hy.
  destruct (bounded_digits _ _ Hx) as (Hex & _).
  destruct (bounded_digits _ _ Hy) as (Hey & _).
  cbn [SFsub].
  rewrite !shl_align_fst by lia.
  set (D := cond_Zopp sy (Zpos my * 2 ^ (ey - Z.min ey ex)) -
            cond_Zopp sx (Zpos mx * 2 ^ (ex - Z.min ey ex))).
  assert (HD : 0 < D).
  { unfold D, SFltb, SFcompare in *.
    assert (Hy' : 0 < Zpos my * 2 ^ (ey - Z.min ey ex))
      by (apply Z.mul_pos_pos; [lia | apply Z.pow_pos_nonneg; lia]).
    assert (Hx' : 0 < Zpos mx * 2 ^ (ex - Z.min ey ex))
      by (apply Z.mul_pos_pos; [lia | apply Z.pow_pos_nonneg; lia]).
    destruct sx, sy; cbn [cond_Zopp]; try discriminate Hlt; try lia.
    - destruct (Z.compare_spec ex ey) as [-> | Hl | Hg]; try discriminate Hlt.
      + rewrite Z.min_id, Z.sub_diag. change (2 ^ 0) with 1.
        change (Pos.compare_cont Eq mx my) with (Pos.compare mx my) in Hlt.
        destruct (Pos.compare_spec mx my); first [discriminate Hlt | lia].
      + pose proof (smaller_exponent _ _ _ _ Hy Hx Hg).
        rewrite Z.min_l by lia. rewrite Z.sub_diag. change (2 ^ 0) with 1. lia.
    - destruct (Z.compare_spec ex ey) as [-> | Hl | Hg]; try discriminate Hlt.
      + rewrite Z.min_id, Z.sub_diag. change (2 ^ 0) with 1.
        change (Pos.compare_cont Eq mx my) with (Pos.compare mx my) in Hlt.
        destruct (Pos.compare_spec mx my); first [discriminate Hlt | lia].
      + pose proof (smaller_exponent _ _ _ _ Hx Hy Hl).
        rewrite Z.min_r by lia. rewrite Z.sub_diag. change (2 ^ 0) with 1. lia. }
  destruct D as [| p | p]; try lia.
  cbn [binary_normalize]. apply binary_round_positive. lia.
Qed.

End Binary64Order.

(** [a < b] in binary64 makes [b - a > 0]. *)
Lemma lt_sub_positive (a b : float) :
  (a <? b)%float = true -> JS.gt (b - a)%float 0 = true.
Proof.
  unfold JS.gt. rewrite !ltb_spec, sub_spec. change (Prim2SF 0) with (S754_zero false).
  apply SFsub_positive; apply Prim2SF_valid.
Qed.

Section Binary64Total.

(** On numbers that are not NaN, "not below" is transitive: the middle one
    has to be a number. *)
Lemma SFltb_false_trans (a b c : spec_float) :
  b <> S754_nan ->
  SFltb a b = false -> SFltb b c = false -> SFltb a c = false.
Proof.
  intros Hb Hab Hbc. unfold SFltb, SFcompare in *.
  destruct a as [sa | sa | | sa ma ea]; try reflexivity;
    destruct c as [sc | sc | | sc mc ec]; try reflexivity;
    destruct b as [sb | sb | | sb mb eb]; try congruence;
    repeat match goal with s : bool |- _ => destruct s end;
    try reflexivity; try discriminate Hab; try discriminate Hbc;
    change (Pos.compare_cont Eq) with Pos.compare in *;
    repeat match goal with
           | H : context [Z.compare ?x ?y] |- _ => destruct (Z.compare_spec x y)
           | |- context [Z.compare ?x ?y] => destruct (Z.compare_spec x y)
           | H : context [Pos.compare ?x ?y] |- _ => destruct (Pos.compare_spec x y)
           | |- context [Pos.compare ?x ?y] => destruct (Pos.compare_spec x y)
           end;
    cbn [CompOpp] in *;
    try reflexivity; try discriminate Hab; try discriminate Hbc; exfalso; subst; lia.
Qed.

End Binary64Total.

Lemma ltb_false_trans (t a b c : float) :
  (t <? b)%float = true ->
  (a <? b)%float = false -> (b <? c)%float = false -> (a <? c)%float = false.
Proof.
  rewrite !ltb_spec. intros Ht. apply SFltb_false_trans.
  intros E. rewrite E in Ht. unfold SFltb, SFcompare in Ht.
  now destruct (Prim2SF t).
Qed.

(* ================================================================== *)
(** * Cosine similarity *)
(* ================================================================== *)

Section CosineFloat.





End CosineFloat.

Section CosineSelf.

Variable N : Type.
Variables add mul : N -> N -> N.


End CosineSelf.

Section CosineReal.

Local Open Scope R_scope.




End CosineReal.

Section CosineComputed.





End CosineComputed.




(** Below the range the squares underflow: the computed sum of squares of
    [1e-200] is 0, and the similarity of the vector with itself is 0. *)
Example cosine_self_similarity_underflow :
  (computed_sum_of_squares [1e-200%float] =? 0)%float = true /\
  Enhanced.cosineSimilarity (Some [1e-200%float]) (Some [1e-200%float]) = 0%float.
Proof. split; vm_compute; reflexivity. Qed.

(* ================================================================== *)
(** * The stable sort *)
(* ================================================================== *)

Lemma In_firstn {A : Type} (n : nat) (l : list A) (x : A) :
  In x (firstn n l) -> In x l.
Proof.
  revert l. induction n as [| n IH]; intros [| y l]; cbn; try tauto.
  intros [-> | H]; auto.
Qed.

Section StableSort.

Context {A : Type}.
Variable cmp : A -> A -> float.

Lemma In_sort_insert (x : A) (l : list A) (y : A) :
  In y (sort_insert cmp x l) <-> y = x \/ In y l.
Proof.
  induction l as [| z l IH]; cbn [sort_insert].
  - cbn. intuition auto.
  - destruct (JS.gt (cmp x z) 0); cbn [In]; rewrite ?IH; intuition auto.
Qed.

(** Sorting neither adds nor drops an element. *)
Lemma In_Array_sort (l : list A) (y : A) : In y (Array_sort cmp l) <-> In y l.
Proof.
  induction l as [| x l IH]; cbn [Array_sort In]; [tauto |].
  rewrite In_sort_insert, IH. intuition auto.
Qed.

(** Stability: elements that the comparator never moves behind one another
    keep their relative order. *)
Variable P : A -> bool.
Hypothesis tied : forall x y, P x = true -> P y = true -> JS.gt (cmp x y) 0 = false.

Lemma filter_sort_insert (x : A) (l : list A) :
  filter P (sort_insert cmp x l) = filter P (x :: l).
Proof.
  induction l as [| y l IH]; [reflexivity |].
  cbn [sort_insert]. destruct (JS.gt (cmp x y) 0) eqn:E; [| reflexivity].
  cbn [filter] in *. rewrite IH.
  destruct (P x) eqn:Px, (P y) eqn:Py; try reflexivity.
  rewrite (tied x y Px Py) in E. discriminate.
Qed.

Lemma filter_Array_sort (l : list A) :
  filter P (Array_sort cmp l) = filter P l.
Proof.
  induction l as [| x l IH]; [reflexivity |].
  cbn [Array_sort]. rewrite filter_sort_insert. cbn [filter]. now rewrite IH.
Qed.

End StableSort.

(** Results of one composite score are never reordered by the final sort. *)
Lemma byRelevance_tied (v : float) (x y : RetrievalResult.t) :
  PrimFloat.Leibniz.eqb (RetrievalResult.relevanceScore x) v = true ->
  PrimFloat.Leibniz.eqb (RetrievalResult.relevanceScore y) v = true ->
  JS.gt (Enhanced.byRelevance x y) 0 = false.
Proof.
  intros Hx Hy. apply FloatAxioms.Leibniz.eqb_spec in Hx, Hy.
  unfold Enhanced.byRelevance. rewrite Hx, Hy. apply FloatFacts.sub_self_not_positive.
Qed.

(* ================================================================== *)
(** * Composite relevance and confidence *)
(* ================================================================== *)

Section Relevance.

Variable query : string.
Variable queryEmbedding : option vector.

(** The composite computed by [calculateEnhancedRelevance] is the weighted
    sum of the specification, whenever the two lexical scores return. *)
Lemma calculateEnhancedRelevance_formula (chunk : EnhancedChunk.t) :
  Enhanced.calculateEnhancedRelevance query chunk queryEmbedding =
  (lexical <- Enhanced.calculateKeywordRelevance query (EnhancedChunk.text chunk) ;;
   contextual <- Enhanced.calculateKeywordRelevance query (EnhancedChunk.context chunk) ;;
   Return (compositeScore (semanticSignal queryEmbedding chunk) lexical
                          (topicOverlapRatio query chunk) contextual)).
Proof.
  unfold Enhanced.calculateEnhancedRelevance, compositeScore, weightedSum,
    semanticSignal, topicOverlapRatio.
  destruct (Enhanced.calculateKeywordRelevance query (EnhancedChunk.text chunk))
    as [lexical | |]; cbn [bind]; try reflexivity.
  destruct (Enhanced.calculateKeywordRelevance query (EnhancedChunk.context chunk))
    as [contextual | |]; cbn [bind]; try reflexivity.
  destruct (Enhanced.extractTopics query) as [| t ts];
    destruct queryEmbedding as [q |], (EnhancedChunk.embedding chunk) as [e |];
    reflexivity.
Qed.

Lemma includes_str_In (l : list string) (x : string) :
  includes_str l x = true <-> In x l.
Proof.
  unfold includes_str. rewrite existsb_exists. split.
  - intros (y & Hy & E). apply String.eqb_eq in E. now subst.
  - intros H. exists x. split; [assumption | apply String.eqb_refl].
Qed.

(** The topic test of [determineConfidenceLevel] holds exactly when the
    chunk shares a topic with the query. *)
Lemma topic_test_SharesTopic (chunk : EnhancedChunk.t) :
  (0 <? List.length (EnhancedChunk.topics chunk))
  && existsb (fun topic => includes_str (EnhancedChunk.topics chunk) topic)
             (Enhanced.extractTopics query) = true
  <-> SharesTopic chunk query.
Proof.
  unfold SharesTopic. rewrite andb_true_iff, existsb_exists. split.
  - intros (_ & t & Ht & Hin). apply includes_str_In in Hin. now exists t.
  - intros (t & Hc & Hq). split.
    + destruct (EnhancedChunk.topics chunk); [destruct Hc | reflexivity].
    + exists t. split; [assumption | now apply includes_str_In].
Qed.

Lemma determineConfidenceLevel_spec (score : float) (chunk : EnhancedChunk.t) :
  let level := Enhanced.determineConfidenceLevel score chunk query in
  let strong := JS.gt score 0.7 = true /\ SharesTopic chunk query in
  (level = high <-> strong) /\
  (level = medium <-> JS.gt score 0.5 = true /\ ~ strong) /\
  (level = low <-> JS.gt score 0.5 = false /\ ~ strong).
Proof.
  cbv zeta. unfold Enhanced.determineConfidenceLevel.
  pose proof (topic_test_SharesTopic chunk) as Ht.
  rewrite <- andb_assoc.
  destruct (JS.gt score 0.7) eqn:E7;
    destruct ((0 <? List.length (EnhancedChunk.topics chunk))
              && existsb (fun topic => includes_str (EnhancedChunk.topics chunk) topic)
                         (Enhanced.extractTopics query)) eqn:Et;
    cbn [andb];
    destruct (JS.gt score 0.5) eqn:E5;
    repeat split; intros; try discriminate; try tauto; try congruence;
    try (apply Ht; reflexivity);
    try (intros [_ Hs]; apply Ht in Hs; discriminate);
    try (intros [Hs _]; discriminate);
    try (exfalso; intuition (try discriminate; try congruence)).
Qed.

Lemma scoreCandidates_from (candidates : list EnhancedChunk.t) :
  forall acc results,
    forEach candidates (fun results chunk =>
      relevanceScore <- Enhanced.calculateEnhancedRelevance query chunk queryEmbedding ;;
      let confidenceLevel := Enhanced.determineConfidenceLevel relevanceScore chunk query in
      let matchReason := Enhanced.explainMatch query chunk relevanceScore in
      if JS.gt relevanceScore 0.3
      then Return (results ++ [RetrievalResult.Make chunk relevanceScore confidenceLevel matchReason])
      else Return results) acc = Return results ->
    exists added,
      results = acc ++ added /\
      map RetrievalResult.chunk added = filter (keeps query queryEmbedding) candidates /\
      Forall (WellScored query queryEmbedding) added.
Proof.
  induction candidates as [| chunk candidates IH]; intros acc results H.
  - cbn in H. injection H as <-. exists []. rewrite app_nil_r. repeat split. constructor.
  - cbn [forEach] in H. unfold keeps. cbn [filter].
    destruct (Enhanced.calculateEnhancedRelevance query chunk queryEmbedding)
      as [score | |] eqn:Es; cbn [bind] in H; try discriminate.
    fold (keeps query queryEmbedding).
    destruct (JS.gt score 0.3) eqn:E3; cbn [bind] in H.
    + apply IH in H as (added & -> & Hmap & Hall).
      exists (RetrievalResult.Make chunk score
                (Enhanced.determineConfidenceLevel score chunk query)
                (Enhanced.explainMatch query chunk score) :: added).
      rewrite <- app_assoc. repeat split.
      * cbn. now rewrite Hmap.
      * constructor; [| assumption]. unfold WellScored. cbn. auto.
    + apply IH in H as (added & -> & Hmap & Hall). now exists added.
Qed.

Lemma scoreCandidates_spec (candidates : list EnhancedChunk.t) (results : list RetrievalResult.t) :
  Enhanced.scoreCandidates query queryEmbedding candidates = Return results ->
  map RetrievalResult.chunk results = filter (keeps query queryEmbedding) candidates /\
  Forall (WellScored query queryEmbedding) results.
Proof.
  intros H. apply scoreCandidates_from in H as (added & -> & Hmap & Hall). auto.
Qed.

End Relevance.

(** The shape of a successful retrieval: the fused candidates, scored in
    fusion order, sorted and cut to five. *)
Lemma performMultiStageRetrieval_inv (env : Env) (corpus : list EnhancedChunk.t)
    (query : string) (results : list RetrievalResult.t) :
  Enhanced.performMultiStageRetrieval env corpus query = Return results ->
  exists fused scored,
    Enhanced.fusedCandidates corpus query (getEmbedding env query) = Return fused /\
    Enhanced.scoreCandidates query (getEmbedding env query) fused = Return scored /\
    results = firstn 5 (Array_sort Enhanced.byRelevance scored).
Proof.
  unfold Enhanced.performMultiStageRetrieval. intros H.
  destruct (Enhanced.fusedCandidates corpus query (getEmbedding env query))
    as [fused | |] eqn:Ef; cbn [bind] in H; try discriminate.
  destruct (Enhanced.scoreCandidates query (getEmbedding env query) fused)
    as [scored | |] eqn:Es; cbn [bind] in H; try discriminate.
  injection H as <-. now exists fused, scored.
Qed.

Lemma performMultiStageRetrieval_WellScored (env : Env) (corpus : list EnhancedChunk.t)
    (query : string) (results : list RetrievalResult.t) (r : RetrievalResult.t) :
  Enhanced.performMultiStageRetrieval env corpus query = Return results ->
  In r results ->
  WellScored query (getEmbedding env query) r.
Proof.
  intros H Hin. apply performMultiStageRetrieval_inv in H as (fused & scored & _ & Hs & ->).
  apply scoreCandidates_spec in Hs as [_ Hall].
  apply In_firstn, In_Array_sort in Hin.
  rewrite Forall_forall in Hall. now apply Hall.
Qed.

(** C1: the composite computed for a candidate is the weighted sum of the
    four signals, semantic similarity (0 without both embeddings) at 0.4,
    lexical relevance of the text at 0.3, the topic overlap ratio (0.5
    without query topics) at 0.2 and lexical relevance of the context at 0.1,
    capped at 1; every result of a retrieval carries that score. *)
Theorem composite_relevance_formula :
  (forall query queryEmbedding chunk,
     Enhanced.calculateEnhancedRelevance query chunk queryEmbedding =
     (lexical <- Enhanced.calculateKeywordRelevance query (EnhancedChunk.text chunk) ;;
      contextual <- Enhanced.calculateKeywordRelevance query (EnhancedChunk.context chunk) ;;
      Return (compositeScore (semanticSignal queryEmbedding chunk) lexical
                             (topicOverlapRatio query chunk) contextual))) /\
  (forall env corpus query results r,
     Enhanced.performMultiStageRetrieval env corpus query = Return results ->
     In r results ->
     exists lexical contextual,
       Enhanced.calculateKeywordRelevance query
         (EnhancedChunk.text (RetrievalResult.chunk r)) = Return lexical /\
       Enhanced.calculateKeywordRelevance query
         (EnhancedChunk.context (RetrievalResult.chunk r)) = Return contextual /\
       RetrievalResult.relevanceScore r =
       compositeScore (semanticSignal (getEmbedding env query) (RetrievalResult.chunk r))
                      lexical (topicOverlapRatio query (RetrievalResult.chunk r)) contextual).
Proof.
  split.
  - intros. apply calculateEnhancedRelevance_formula.
  - intros env corpus query results r H Hin.
    destruct (performMultiStageRetrieval_WellScored _ _ _ _ _ H Hin) as (Hs & _).
    rewrite calculateEnhancedRelevance_formula in Hs.
    destruct (Enhanced.calculateKeywordRelevance query
                (EnhancedChunk.text (RetrievalResult.chunk r))) as [lexical | |];
      cbn [bind] in Hs; try discriminate.
    destruct (Enhanced.calculateKeywordRelevance query
                (EnhancedChunk.context (RetrievalResult.chunk r))) as [contextual | |];
      cbn [bind] in Hs; try discriminate.
    injection Hs as Hs. exists lexical, contextual. auto.
Qed.

Lemma sampleResults_returned :
  Enhanced.performMultiStageRetrieval constantEnv embeddedCorpus sampleQuery
  = Return sampleResults.
Proof. vm_compute. reflexivity. Qed.

Lemma sampleResults_single : exists r, sampleResults = [r].
Proof. vm_compute. eexists. reflexivity. Qed.

(** The formula at the one result returned for the sample query. *)
Lemma composite_relevance_formula_witness :
  exists r lexical contextual,
    In r sampleResults /\
    Enhanced.calculateKeywordRelevance sampleQuery
      (EnhancedChunk.text (RetrievalResult.chunk r)) = Return lexical /\
    RetrievalResult.relevanceScore r =
    compositeScore (semanticSignal (getEmbedding constantEnv sampleQuery) (RetrievalResult.chunk r))
                   lexical (topicOverlapRatio sampleQuery (RetrievalResult.chunk r)) contextual.
Proof.
  destruct sampleResults_single as [r E].
  assert (Hin : In r sampleResults) by (rewrite E; left; reflexivity).
  destruct (proj2 composite_relevance_formula _ _ _ _ r sampleResults_returned Hin)
    as (lexical & contextual & Hl & _ & Hs).
  exists r, lexical, contextual.
  split; [exact Hin | split; [exact Hl | exact Hs]].
Defined.

(** C2: a retrieval result scores above 0.3, so a candidate whose composite
    is not above 0.3 is not among the results; its confidence is [high]
    exactly when the score exceeds 0.7 and the chunk shares a topic with the
    query, [medium] exactly when the score exceeds 0.5 and that fails, and
    [low] otherwise. *)
Theorem retrieval_floor_and_confidence (env : Env) (corpus : list EnhancedChunk.t)
    (query : string) (results : list RetrievalResult.t) :
  Enhanced.performMultiStageRetrieval env corpus query = Return results ->
  (forall chunk score,
     Enhanced.calculateEnhancedRelevance query chunk (getEmbedding env query) = Return score ->
     JS.gt score 0.3 = false ->
     ~ In chunk (map RetrievalResult.chunk results)) /\
  (forall r, In r results ->
     let score := RetrievalResult.relevanceScore r in
     let strong := JS.gt score 0.7 = true /\ SharesTopic (RetrievalResult.chunk r) query in
     Enhanced.calculateEnhancedRelevance query (RetrievalResult.chunk r)
       (getEmbedding env query) = Return score /\
     JS.gt score 0.3 = true /\
     (RetrievalResult.confidenceLevel r = high <-> strong) /\
     (RetrievalResult.confidenceLevel r = medium <-> JS.gt score 0.5 = true /\ ~ strong) /\
     (RetrievalResult.confidenceLevel r = low <-> JS.gt score 0.5 = false /\ ~ strong)).
Proof.
  intros H. split.
  - intros chunk score Hs Hlow Hin.
    apply in_map_iff in Hin as (r & <- & Hin).
    destruct (performMultiStageRetrieval_WellScored _ _ _ _ _ H Hin) as (Hr & Hgt & _).
    rewrite Hs in Hr. injection Hr as ->. congruence.
  - intros r Hin. cbv zeta.
    destruct (performMultiStageRetrieval_WellScored _ _ _ _ _ H Hin) as (Hr & Hgt & Hc & _).
    split; [assumption |]. split; [assumption |].
    rewrite Hc.
    apply (determineConfidenceLevel_spec query (RetrievalResult.relevanceScore r)
             (RetrievalResult.chunk r)).
Qed.

(** The result for the sample query scores 0.745 and is labelled [high]. *)
Lemma retrieval_floor_and_confidence_witness :
  exists r,
    In r sampleResults /\
    JS.gt (RetrievalResult.relevanceScore r) 0.3 = true /\
    (RetrievalResult.confidenceLevel r = high <->
     JS.gt (RetrievalResult.relevanceScore r) 0.7 = true
     /\ SharesTopic (RetrievalResult.chunk r) sampleQuery).
Proof.
  destruct sampleResults_single as [r E].
  assert (Hin : In r sampleResults) by (rewrite E; left; reflexivity).
  destruct (retrieval_floor_and_confidence _ _ _ _ sampleResults_returned) as [_ Hr].
  destruct (Hr r Hin) as (_ & Hgt & Hhigh & _).
  exists r. split; [exact Hin | split; [exact Hgt | exact Hhigh]].
Defined.

(* ================================================================== *)
(** * Fusion: the map of unique candidates *)
(* ================================================================== *)

Section Fusion.

Lemma map_has_In (m : Enhanced.CandidateMap) (key : string) :
  Enhanced.map_has m key = true <-> In key (map fst m).
Proof.
  unfold Enhanced.map_has. rewrite existsb_exists, in_map_iff. split.
  - intros (e & He & E). apply String.eqb_eq in E. now exists e.
  - intros (e & E & He). exists e. split; [assumption |]. now apply String.eqb_eq.
Qed.

Lemma rememberFirst_keyed (m : Enhanced.CandidateMap) (chunk : EnhancedChunk.t) :
  KeyedByChunk m -> KeyedByChunk (Enhanced.rememberFirst m chunk).
Proof.
  intros H. unfold Enhanced.rememberFirst, Enhanced.map_set_new.
  destruct (negb _); [| assumption].
  apply Forall_app. split; [assumption |]. now constructor.
Qed.

Lemma rememberFirst_NoDup (m : Enhanced.CandidateMap) (chunk : EnhancedChunk.t) :
  NoDup (map fst m) -> NoDup (map fst (Enhanced.rememberFirst m chunk)).
Proof.
  intros H. unfold Enhanced.rememberFirst, Enhanced.map_set_new.
  destruct (Enhanced.map_has m (Enhanced.chunkKey chunk)) eqn:E; cbn [negb]; [assumption |].
  rewrite map_app. cbn [map fst].
  apply NoDup_rev in H. rewrite <- (rev_involutive (_ ++ _)). apply NoDup_rev.
  rewrite rev_app_distr. cbn [rev app]. constructor; [| assumption].
  rewrite <- in_rev. intros Hin. apply map_has_In in Hin. congruence.
Qed.


Lemma find_entry_none (m : Enhanced.CandidateMap) (key : string) :
  Enhanced.map_has m key = false -> find (fun entry => String.eqb (fst entry) key) m = None.
Proof.
  unfold Enhanced.map_has. induction m as [| e m IH]; [reflexivity |].
  cbn. destruct (String.eqb (fst e) key); [discriminate | exact IH].
Qed.



Lemma fold_rememberFirst_keyed (l : list EnhancedChunk.t) :
  forall m, KeyedByChunk m -> KeyedByChunk (fold_left Enhanced.rememberFirst l m).
Proof.
  induction l as [| chunk l IH]; intros m H; [assumption |].
  cbn. apply IH. now apply rememberFirst_keyed.
Qed.

Lemma fold_rememberFirst_NoDup (l : list EnhancedChunk.t) :
  forall m, NoDup (map fst m) -> NoDup (map fst (fold_left Enhanced.rememberFirst l m)).
Proof.
  induction l as [| chunk l IH]; intros m H; [assumption |].
  cbn. apply IH. now apply rememberFirst_NoDup.
Qed.

Lemma keyed_map_keys (m : Enhanced.CandidateMap) :
  KeyedByChunk m -> map Enhanced.chunkKey (map snd m) = map fst m.
Proof.
  induction 1 as [| e m He _ IH]; [reflexivity |]. cbn. now rewrite IH, He.
Qed.


(** The ids of the unique candidates are pairwise distinct. *)
Lemma uniqueCandidates_NoDup (l : list EnhancedChunk.t) :
  NoDup (map Enhanced.chunkKey (Enhanced.uniqueCandidates l)).
Proof.
  unfold Enhanced.uniqueCandidates.
  rewrite keyed_map_keys by (apply fold_rememberFirst_keyed; constructor).
  apply fold_rememberFirst_NoDup. constructor.
Qed.



End Fusion.



(* ================================================================== *)
(** * The bulk embedding pass *)
(* ================================================================== *)

Section BulkEmbedding.

Variable embed : nat -> string -> option vector.

Lemma trailingFailures_snoc (history : list (option vector)) (o : option vector) :
  trailingFailures (history ++ [o]) =
  match o with Some _ => 0 | None => S (trailingFailures history) end.
Proof.
  unfold trailingFailures. rewrite rev_app_distr. cbn. now destruct o.
Qed.

Lemma successes_cons (o : option vector) (os : list (option vector)) :
  successes (o :: os) = (match o with Some _ => 1 | None => 0 end) + successes os.
Proof. unfold successes. cbn. now destruct o. Qed.

(** The loop entered at turn [i] after the calls of [history], whose
    trailing failures the counter holds: it makes [m] calls, and stops short
    only at the first moment the history ends in five failures. *)
Lemma embedLoop_from (chunksToEmbed : list Chunk.t) :
  forall i embeddedCount history,
    trailingFailures history < 5 ->
    let os := outcomes embed i chunksToEmbed in
    exists m,
      m <= List.length chunksToEmbed /\
      Original.embedLoop embed i chunksToEmbed embeddedCount (trailingFailures history) =
      (afterCalls m chunksToEmbed os,
       embeddedCount + successes (firstn m os),
       trailingFailures (history ++ firstn m os)) /\
      (m < List.length chunksToEmbed -> 5 <= trailingFailures (history ++ firstn m os)) /\
      (forall k, k < m -> trailingFailures (history ++ firstn k os) < 5).
Proof.
  induction chunksToEmbed as [| chunk rest IH]; intros i embeddedCount history Hlt; cbv zeta.
  - exists 0. cbn. rewrite app_nil_r, Nat.add_0_r.
    refine (conj _ (conj _ (conj _ _))); [lia | reflexivity | lia | intros k Hk; lia].
  - cbn [outcomes Original.embedLoop].
    destruct (embed i (Chunk.text chunk)) as [embedding |] eqn:Eo.
    + specialize (IH (S i) (S embeddedCount) (history ++ [Some embedding])).
      rewrite trailingFailures_snoc in IH. specialize (IH ltac:(lia)).
      cbv zeta in IH. destruct IH as (m & Hm & Hrun & Hstop & Hbefore).
      exists (S m). rewrite Hrun. cbn [firstn List.length].
      rewrite successes_cons. rewrite <- app_assoc in Hstop. cbn [app] in Hstop.
      rewrite <- app_assoc. cbn [app].
      refine (conj _ (conj _ (conj _ _))).
      * lia.
      * unfold afterCalls. cbn [firstn combine map app skipn applyOutcome fst snd].
        f_equal. f_equal. lia.
      * intros H. apply Hstop. lia.
      * intros [| k] Hk.
        -- cbn. now rewrite app_nil_r.
        -- cbn [firstn]. specialize (Hbefore k ltac:(lia)).
           now rewrite <- app_assoc in Hbefore.
    + destruct (5 <=? S (trailingFailures history)) eqn:E5.
      * exists 1. cbn [firstn List.length]. rewrite successes_cons.
        rewrite trailingFailures_snoc. apply Nat.leb_le in E5.
        refine (conj _ (conj _ (conj _ _))).
        -- lia.
        -- unfold afterCalls, successes. cbn. f_equal. f_equal. lia.
        -- intros _. exact E5.
        -- intros k Hk. assert (k = 0) as -> by lia. cbn. now rewrite app_nil_r.
      * apply Nat.leb_gt in E5.
        specialize (IH (S i) embeddedCount (history ++ [None])).
        rewrite trailingFailures_snoc in IH. specialize (IH ltac:(lia)).
        cbv zeta in IH. destruct IH as (m & Hm & Hrun & Hstop & Hbefore).
        exists (S m). rewrite Hrun. cbn [firstn List.length].
        rewrite successes_cons. rewrite <- app_assoc in Hstop. cbn [app] in Hstop.
        rewrite <- app_assoc. cbn [app].
        refine (conj _ (conj _ (conj _ _))).
        -- lia.
        -- unfold afterCalls. cbn [firstn combine map app skipn applyOutcome fst snd].
           reflexivity.
        -- intros H. apply Hstop. lia.
        -- intros [| k] Hk.
           ++ cbn. now rewrite app_nil_r.
           ++ cbn [firstn]. specialize (Hbefore k ltac:(lia)).
              now rewrite <- app_assoc in Hbefore.
Qed.

End BulkEmbedding.

Lemma outcomes_length (embed : nat -> string -> option vector) (l : list Chunk.t) :
  forall i, List.length (outcomes embed i l) = List.length l.
Proof. induction l as [| c l IH]; intros i; cbn; [reflexivity | now rewrite IH]. Qed.

Lemma outcomes_nth (embed : nat -> string -> option vector) (l : list Chunk.t) :
  forall i j chunk,
    nth_error l j = Some chunk ->
    nth_error (outcomes embed i l) j = Some (embed (i + j) (Chunk.text chunk)).
Proof.
  induction l as [| c l IH]; intros i [| j] chunk H; try discriminate.
  - cbn in *. injection H as ->. now rewrite Nat.add_0_r.
  - cbn in *. rewrite (IH (S i) j chunk H). f_equal. f_equal. lia.
Qed.

(** A chunk whose call was made carries the answer of that call. *)
Lemma afterCalls_nth (m : nat) :
  forall (l : list Chunk.t) (os : list (option vector)) j chunk o,
    j < m ->
    nth_error l j = Some chunk ->
    nth_error os j = Some o ->
    nth_error (afterCalls m l os) j = Some (applyOutcome (chunk, o)).
Proof.
  unfold afterCalls.
  induction m as [| m IH]; intros l os j chunk o Hj Hl Ho; [lia |].
  destruct l as [| c l]; [destruct j; discriminate |].
  destruct os as [| o' os]; [destruct j; discriminate |].
  destruct j as [| j]; cbn in *.
  - now injection Hl as ->; injection Ho as ->.
  - apply IH; [lia | assumption | assumption].
Qed.

(** The state that [initialize] leaves once chunks were created: the
    embedding pass over the first 50 chunks, whatever its outcome, and
    [isReady] set. *)
Lemma initialize_after_loading (env : Env) (st : Original.State)
    (files : list string) (loaded : list Chunk.t) (total : nat) :
  Original.isReady st = false ->
  truthy (Original.initError st) = false ->
  readdir env = Some files ->
  filter (fun f => JS.endsWith f ".txt") files <> [] ->
  fold_left (Original.loadFile env) (filter (fun f => JS.endsWith f ".txt") files)
            (Original.chunks st, 0) = (loaded, total) ->
  total <> 0 ->
  Original.initialize env st =
  {| Original.chunks :=
       fst (fst (Original.embedLoop (fun _ => getEmbedding env) 0 (firstn 50 loaded) 0 0))
       ++ skipn 50 loaded;
     Original.isReady := true;
     Original.initError := Original.initError st |}.
Proof.
  intros Hr He Hd Hf Hl Ht. unfold Original.initialize.
  rewrite Hr, He, Hd. cbn [orb].
  destruct (filter (fun f => JS.endsWith f ".txt") files) as [| f fs] eqn:Ef; [congruence |].
  cbn [List.length Nat.eqb]. rewrite Hl.
  apply Nat.eqb_neq in Ht. rewrite Ht.
  now destruct (Original.embedLoop _ 0 (firstn 50 loaded) 0 0) as [[embedded n] f'].
Qed.

(** C7: the bulk pass makes [m] calls; it stops before the end of the list
    only when the calls made so far end in five failures, and at no earlier
    moment did they; the counter it ends with is the number of failures
    since the last success (a success restarts it from 0); the chunks whose
    call succeeded carry their embedding in the list the pass leaves, also
    when it stopped early, and [initialize] then marks the system ready. *)
Theorem bulk_embedding_circuit_breaker :
  (forall embed chunksToEmbed,
     let os := outcomes embed 0 chunksToEmbed in
     exists m,
       m <= List.length chunksToEmbed /\
       Original.embedLoop embed 0 chunksToEmbed 0 0 =
       (afterCalls m chunksToEmbed os, successes (firstn m os),
        trailingFailures (firstn m os)) /\
       (m < List.length chunksToEmbed -> 5 <= trailingFailures (firstn m os)) /\
       (forall k, k < m -> trailingFailures (firstn k os) < 5) /\
       (forall j chunk embedding,
          j < m ->
          nth_error chunksToEmbed j = Some chunk ->
          embed j (Chunk.text chunk) = Some embedding ->
          nth_error (afterCalls m chunksToEmbed os) j
          = Some (Chunk.set_embedding chunk embedding))) /\
  (forall embed i chunk rest embeddedCount consecutiveFailures embedding,
     embed i (Chunk.text chunk) = Some embedding ->
     Original.embedLoop embed i (chunk :: rest) embeddedCount consecutiveFailures =
     let '(done, n, f) := Original.embedLoop embed (S i) rest (S embeddedCount) 0 in
     (Chunk.set_embedding chunk embedding :: done, n, f)) /\
  (forall env st files loaded total,
     Original.isReady st = false ->
     truthy (Original.initError st) = false ->
     readdir env = Some files ->
     filter (fun f => JS.endsWith f ".txt") files <> [] ->
     fold_left (Original.loadFile env) (filter (fun f => JS.endsWith f ".txt") files)
               (Original.chunks st, 0) = (loaded, total) ->
     total <> 0 ->
     Original.isReady (Original.initialize env st) = true /\
     Original.chunks (Original.initialize env st) =
     fst (fst (Original.embedLoop (fun _ => getEmbedding env) 0 (firstn 50 loaded) 0 0))
     ++ skipn 50 loaded).
Proof.
  refine (conj _ (conj _ _)).
  - intros embed chunksToEmbed. cbv zeta.
    destruct (embedLoop_from embed chunksToEmbed 0 0 [] ltac:(cbn; lia))
      as (m & Hm & Hrun & Hstop & Hbefore).
    cbn in Hrun, Hstop, Hbefore.
    exists m. refine (conj Hm (conj Hrun (conj Hstop (conj Hbefore _)))).
    intros j chunk embedding Hj Hc He.
    rewrite (afterCalls_nth m chunksToEmbed _ j chunk (Some embedding) Hj Hc); [reflexivity |].
    rewrite (outcomes_nth embed chunksToEmbed 0 j chunk Hc). cbn [Nat.add]. now rewrite He.
  - intros embed i chunk rest n f embedding He. cbn [Original.embedLoop]. now rewrite He.
  - intros env st files loaded total Hr He Hd Hf Hl Ht.
    rewrite (initialize_after_loading env st files loaded total Hr He Hd Hf Hl Ht).
    split; reflexivity.
Qed.

(** Seven chunks, the first call answered and the next five failed: the pass
    stops after six calls, the first chunk keeps its embedding and the
    seventh is never sent. *)
Lemma bulk_embedding_circuit_breaker_witness :
  (exists m,
     m <= 7 /\
     Original.embedLoop failsAfterFirst 0 sevenChunks 0 0 =
     (afterCalls m sevenChunks (outcomes failsAfterFirst 0 sevenChunks),
      successes (firstn m (outcomes failsAfterFirst 0 sevenChunks)),
      trailingFailures (firstn m (outcomes failsAfterFirst 0 sevenChunks)))) /\
  map (has_embedding Chunk.embedding)
      (fst (fst (Original.embedLoop failsAfterFirst 0 sevenChunks 0 0)))
  = [true; false; false; false; false; false; false].
Proof.
  split.
  - destruct (proj1 bulk_embedding_circuit_breaker failsAfterFirst sevenChunks)
      as (m & Hm & Hrun & _).
    exists m. split; [exact Hm | exact Hrun].
  - vm_compute. reflexivity.
Defined.

(* ================================================================== *)
(** * Status introspection *)
(* ================================================================== *)

Section Status.

Lemma initialize_noop (env : Env) (st : Original.State) :
  Initialised st -> Original.initialize env st = st.
Proof.
  intros H. unfold Original.initialize.
  assert (E : Original.isReady st || truthy (Original.initError st) = true)
    by (destruct H as [-> | ->]; [reflexivity | apply orb_true_r]).
  now rewrite E.
Qed.

(** Every path through [initialize] ends ready or with an error recorded. *)
Lemma initialize_Initialised (env : Env) (st : Original.State) :
  Initialised (Original.initialize env st).
Proof.
  unfold Original.initialize, Initialised.
  destruct (Original.isReady st || truthy (Original.initError st)) eqn:E.
  - apply orb_true_iff in E. exact E.
  - destruct (readdir env) as [files |]; [| right; reflexivity].
    destruct (List.length (filter _ files) =? 0); [right; reflexivity |].
    destruct (fold_left _ _ _) as [loaded total].
    destruct (total =? 0); [right; reflexivity |].
    destruct (Original.embedLoop _ _ _ _ _) as [[embedded n] f]. left. reflexivity.
Qed.

Lemma initialize_idempotent (env env' : Env) (st : Original.State) :
  Original.initialize env' (Original.initialize env st) = Original.initialize env st.
Proof. apply initialize_noop, initialize_Initialised. Qed.

Lemma Enhanced_initialize_original (env : Env) (st : Enhanced.State) :
  originalPart (Enhanced.initialize env st) = Original.initialize env (originalPart st).
Proof.
  unfold Enhanced.initialize, originalPart. cbn.
  now destruct (Original.initialize env _).
Qed.

Lemma Enhanced_initialize_noop (env : Env) (st : Enhanced.State) :
  Initialised (originalPart st) -> Enhanced.initialize env st = st.
Proof.
  intros H. unfold Enhanced.initialize. fold (originalPart st).
  rewrite (initialize_noop env _ H). now destruct st.
Qed.

End Status.

(** A first initialisation takes one of its four exits. *)
Lemma initialize_first (env : Env) (st : Original.State) :
  ~ Initialised st -> FirstInitialisation env st (Original.initialize env st).
Proof.
  intros Hn.
  assert (Hr : Original.isReady st = false).
  { destruct (Original.isReady st) eqn:E; [| reflexivity]. exfalso. apply Hn. now left. }
  assert (He : truthy (Original.initError st) = false).
  { destruct (truthy (Original.initError st)) eqn:E; [| reflexivity].
    exfalso. apply Hn. now right. }
  unfold Original.initialize. rewrite Hr, He. cbn [orb].
  destruct (readdir env) as [files |] eqn:Hd; [| now apply NoDirectory].
  destruct (filter (fun f => JS.endsWith f ".txt") files) as [| f fs] eqn:Ef.
  - cbn [List.length Nat.eqb]. now apply (NoTranscripts env st files).
  - cbn [List.length Nat.eqb].
    destruct (fold_left (Original.loadFile env) (f :: fs) (Original.chunks st, 0))
      as [loaded total] eqn:El.
    destruct total as [| total]; cbn [Nat.eqb].
    + apply (NoContent env st files loaded); [assumption | | ]; rewrite Ef; [congruence | exact El].
    + destruct (Original.embedLoop (fun _ => getEmbedding env) 0 (firstn 50 loaded) 0 0)
        as [[embedded n] k] eqn:Ee.
      pose proof (Loaded env st files loaded (S total) Hd) as H.
      rewrite Ef, Ee in H. apply H; [congruence | exact El | congruence].
Qed.

(** C9, as the code has it: status introspection runs [initialize] first.
    Once the system is ready or has recorded an initialisation error the call
    changes nothing, and after any first call a second one changes nothing;
    the enhanced corpus and its flag are never touched; the snapshot reports
    readiness, the error, the corpus size and the embedded count of the state
    the call leaves.  The state it leaves is the one [initialize] leaves: on
    a process that is neither ready nor failed the call itself lists the
    transcript directory, loads the transcripts and runs the embedding pass,
    or records why it could not. *)
Theorem status_introspection_effects :
  (forall env st,
     Initialised (originalPart st) -> fst (Enhanced.getSystemStatus env st) = st) /\
  (forall env st,
     Initialised st -> fst (Simple.getSystemStatus env st) = st) /\
  (forall env env' st,
     fst (Enhanced.getSystemStatus env' (fst (Enhanced.getSystemStatus env st)))
     = fst (Enhanced.getSystemStatus env st)) /\
  (forall env env' st,
     fst (Simple.getSystemStatus env' (fst (Simple.getSystemStatus env st)))
     = fst (Simple.getSystemStatus env st)) /\
  (forall env st,
     let st' := fst (Enhanced.getSystemStatus env st) in
     let status := snd (Enhanced.getSystemStatus env st) in
     Enhanced.enhancedChunks st' = Enhanced.enhancedChunks st /\
     Enhanced.isEnhancedReady st' = Enhanced.isEnhancedReady st /\
     Enhanced.ready status = Enhanced.isReady st' /\
     Enhanced.error status = Enhanced.initError st' /\
     Enhanced.totalChunks status = List.length (Enhanced.chunks st') /\
     Enhanced.embeddedChunks status
     = List.length (filter (has_embedding Chunk.embedding) (Enhanced.chunks st'))) /\
  (forall env st,
     let st' := fst (Simple.getSystemStatus env st) in
     let status := snd (Simple.getSystemStatus env st) in
     Simple.ready status = Original.isReady st' /\
     Simple.error status = Original.initError st' /\
     Simple.totalChunks status = List.length (Original.chunks st') /\
     Simple.embeddedChunks status
     = List.length (filter (has_embedding Chunk.embedding) (Original.chunks st'))) /\
  (forall env st,
     originalPart (fst (Enhanced.getSystemStatus env st))
     = Original.initialize env (originalPart st)) /\
  (forall env st,
     fst (Simple.getSystemStatus env st) = Original.initialize env st) /\
  (forall env st,
     ~ Initialised (originalPart st) ->
     FirstInitialisation env (originalPart st)
       (originalPart (fst (Enhanced.getSystemStatus env st)))) /\
  (forall env st,
     ~ Initialised st ->
     FirstInitialisation env st (fst (Simple.getSystemStatus env st))).
Proof.
  repeat apply conj.
  - intros env st H. cbn. now apply Enhanced_initialize_noop.
  - intros env st H. cbn. now apply initialize_noop.
  - intros env env' st. cbn. apply Enhanced_initialize_noop.
    rewrite Enhanced_initialize_original. apply initialize_Initialised.
  - intros env env' st. cbn. apply initialize_idempotent.
  - intros env st. cbn. repeat split.
  - intros env st. cbn. repeat split.
  - intros env st. cbn [Enhanced.getSystemStatus fst]. apply Enhanced_initialize_original.
  - intros env st. reflexivity.
  - intros env st H. cbn [Enhanced.getSystemStatus fst].
    rewrite Enhanced_initialize_original. now apply initialize_first.
  - intros env st H. cbn [Simple.getSystemStatus fst]. now apply initialize_first.
Qed.

(** The status of the sample process: the first call takes the loading exit
    of the initialisation, and asked a second time it changes nothing. *)
Lemma status_introspection_effects_witness :
  let st := fst (Enhanced.getSystemStatus lexicalEnv emptyState) in
  FirstInitialisation lexicalEnv (originalPart emptyState) (originalPart st) /\
  Initialised (originalPart st) /\ fst (Enhanced.getSystemStatus lexicalEnv st) = st.
Proof.
  cbv zeta.
  destruct status_introspection_effects as (Hnoop & _ & _ & _ & _ & _ & _ & _ & Hfirst & _).
  refine (conj _ (conj _ _)).
  - apply Hfirst. intros [H | H]; discriminate H.
  - left. vm_compute. reflexivity.
  - apply Hnoop. left. vm_compute. reflexivity.
Defined.

(** C9 as stated fails: asked on a process that has not initialised yet, the
    status call loads the transcript of the sample process, one chunk, and
    sets [isReady]. *)
Lemma status_call_initialises :
  ~ (forall env st, fst (Enhanced.getSystemStatus env st) = st).
Proof.
  intros H. specialize (H lexicalEnv emptyState).
  apply (f_equal (fun st => List.length (Enhanced.chunks st))) in H.
  vm_compute in H. discriminate H.
Qed.

(** The same in [ai.ts]: one chunk is loaded and the system marked ready. *)
Example simple_status_call_initialises :
  let st := fst (Simple.getSystemStatus lexicalEnv freshState) in
  Original.isReady st = true /\ List.length (Original.chunks st) = 1.
Proof. vm_compute. split; reflexivity. Qed.

(* ================================================================== *)
(** * The chunkers *)
(* ================================================================== *)

Section Trim.

Lemma trimEnd_app_length (t b : string) :
  String.length (JS.trimEnd t) <= String.length (JS.trimEnd (t ++ b)).
Proof.
  induction t as [| c t IH]; cbn [JS.trimEnd String.append String.length]; [lia |].
  destruct (JS.trimEnd t) as [| c1 r1] eqn:E1;
    destruct (JS.trimEnd (t ++ b)) as [| c2 r2] eqn:E2; cbn [String.length] in *.
  - lia.
  - destruct (JS.is_space c); cbn [String.length]; lia.
  - lia.
  - lia.
Qed.

Lemma trimStart_app (s b : string) :
  JS.trimStart s <> "" -> JS.trimStart (s ++ b) = (JS.trimStart s ++ b)%string.
Proof.
  induction s as [| c s IH]; cbn [JS.trimStart String.append]; [congruence |].
  destruct (JS.is_space c); [exact IH | reflexivity].
Qed.

(** Appending text never shortens what [trim] keeps. *)
Lemma trim_app_length (s b : string) :
  String.length (JS.trim s) <= String.length (JS.trim (s ++ b)).
Proof.
  unfold JS.trim. destruct (JS.trimStart s) as [| c t] eqn:E.
  - cbn. lia.
  - rewrite trimStart_app by congruence. rewrite E. apply trimEnd_app_length.
Qed.

End Trim.

Section SmartChunker.

Variable content episodeName : string.

Lemma createChunkWithMetadata_index (text : string) (index : nat) (context : Enhanced.Context) :
  EnhancedChunk.index (Enhanced.createChunkWithMetadata text episodeName index context) = index.
Proof.
  unfold Enhanced.createChunkWithMetadata.
  destruct (RegExp.exec false Enhanced.speakerPattern text 0) as [[i y] |]; [| reflexivity].
  destruct (RegExp.capture text y 1) as [g1 |]; [| reflexivity].
  destruct (RegExp.capture text y 2) as [g2 |]; [| reflexivity].
  now destruct (JS.includes (JS.toLowerCase g1) "nikhil" || JS.includes (JS.toLowerCase g1) "host").
Qed.

Lemma push_Units (out : Enhanced.Emitted) (section raw : string) (context : Enhanced.Context) :
  UnitsOf content episodeName out ->
  In section (RegExp.split false Enhanced.sectionBoundary content) ->
  CutFrom (JS.trim section) raw ->
  UnitsOf content episodeName (Enhanced.push out raw episodeName context).
Proof.
  destruct out as [chunks chunkIndex]. intros (Hn & Hi & Hall) Hsec Hraw.
  cbn [fst snd] in Hn, Hi, Hall. subst chunkIndex.
  unfold UnitsOf, Enhanced.push. cbn [fst snd].
  rewrite length_app, map_app. cbn [List.length map].
  rewrite Nat.add_1_r, seq_S, Hi, createChunkWithMetadata_index. cbn [Nat.add].
  refine (conj eq_refl (conj eq_refl _)).
  apply Forall_app. split; [assumption |]. constructor; [| constructor].
  exists section, raw, context. rewrite createChunkWithMetadata_index. auto.
Qed.

Section LongSection.

Variable section : string.
Hypothesis section_in : In section (RegExp.split false Enhanced.sectionBoundary content).
Hypothesis section_kept : 50 < String.length (JS.trim section).
Hypothesis section_long : 800 < String.length (JS.trim section).

(** Pushing the trimmed buffer of a long section. *)
Lemma push_buffer (out : Enhanced.Emitted) (run : string) (context : Enhanced.Context) :
  UnitsOf content episodeName out ->
  RunOfKept (JS.trim section) run ->
  run = "" \/ 20 < String.length (JS.trim run) ->
  UnitsOf content episodeName
    (if Enhanced.nonempty (JS.trim run)
     then Enhanced.push out (JS.trim run) episodeName context else out).
Proof.
  intros Hout Hrun [-> | Hlen]; [exact Hout |].
  destruct (Enhanced.nonempty (JS.trim run)); [| exact Hout].
  apply (push_Units out section); [assumption | assumption |].
  split; [assumption |]. right. split; [assumption |]. split; [assumption |].
  now exists run.
Qed.

Lemma sentenceStep_Kept (context : Enhanced.Context) (st : string * Enhanced.Emitted)
    (sentence : string) :
  KeptBuffer content episodeName (JS.trim section) st ->
  KeptSentence (JS.trim section) sentence ->
  KeptBuffer content episodeName (JS.trim section)
    (Enhanced.sentenceStep episodeName context st sentence).
Proof.
  destruct st as [currentChunk out]. intros (Hout & Hrun & Hcur) Hs. cbn [fst snd] in *.
  unfold Enhanced.sentenceStep, KeptBuffer.
  destruct (600 <? String.length (currentChunk ++ sentence)); cbn [fst snd].
  - refine (conj _ (conj _ _)).
    + now apply push_buffer.
    + exists sentence, []. repeat split; [now right | constructor].
    + right. apply Hs.
  - refine (conj Hout (conj _ _)).
    + destruct Hrun as (first & rest & Hfirst & Hrest & ->).
      exists first, (rest ++ [sentence]). repeat split; [assumption | |].
      * apply Forall_app. split; [assumption | now constructor].
      * unfold runOf. now rewrite fold_left_app.
    + right. destruct Hs as [_ Hs]. destruct Hcur as [-> | Hcur].
      * cbn [String.append]. pose proof (trim_app_length sentence ". "). lia.
      * pose proof (trim_app_length currentChunk (sentence ++ ". ")). lia.
Qed.

Lemma sentences_Kept (context : Enhanced.Context) (sentences : list string) :
  Forall (KeptSentence (JS.trim section)) sentences ->
  forall st, KeptBuffer content episodeName (JS.trim section) st ->
    KeptBuffer content episodeName (JS.trim section)
      (fold_left (Enhanced.sentenceStep episodeName context) sentences st).
Proof.
  induction 1 as [| s sentences Hs _ IH]; intros st Hst; [exact Hst |].
  cbn [fold_left]. apply IH. now apply sentenceStep_Kept.
Qed.

End LongSection.

Lemma sectionStep_Units (sections : list string) (out : Enhanced.Emitted) (i : nat) :
  Forall (fun s => In s (RegExp.split false Enhanced.sectionBoundary content) /\
                   50 < String.length (JS.trim s)) sections ->
  i < List.length sections ->
  UnitsOf content episodeName out ->
  UnitsOf content episodeName (Enhanced.sectionStep episodeName sections out i).
Proof.
  intros Hsec Hi Hout. unfold Enhanced.sectionStep.
  set (context := {| Enhanced.prevContext := _; Enhanced.nextContext := _ |}).
  assert (Hs : In (nth i sections "") (RegExp.split false Enhanced.sectionBoundary content) /\
               50 < String.length (JS.trim (nth i sections ""))).
  { rewrite Forall_forall in Hsec. apply Hsec. now apply nth_In. }
  destruct Hs as [Hin Hlen].
  destruct (800 <? String.length (JS.trim (nth i sections ""))) eqn:E.
  - apply Nat.ltb_lt in E.
    pose proof (sentences_Kept (nth i sections "") Hin Hlen E context
                  (filter (fun s => 20 <? String.length (JS.trim s))
                     (RegExp.split false Enhanced.sentenceEnd (JS.trim (nth i sections ""))))) as H.
    specialize (H ltac:(apply Forall_forall; intros s Hs; apply filter_In in Hs as [Hs1 Hs2];
                        split; [exact Hs1 | now apply Nat.ltb_lt in Hs2])).
    specialize (H ("", out)).
    specialize (H ltac:(refine (conj Hout (conj _ (or_introl eq_refl)));
                        exists "", []; repeat split; [now left | constructor])).
    destruct (fold_left _ _ _) as [currentChunk out']. destruct H as (Hout' & Hrun & Hcur).
    cbn [fst snd] in *.
    now apply (push_buffer (nth i sections "")).
  - apply Nat.ltb_ge in E.
    apply (push_Units out (nth i sections "")); [assumption | assumption |].
    split; [assumption |]. left. split; [assumption | reflexivity].
Qed.

Lemma sections_Units (sections : list string) (indices : list nat) :
  Forall (fun s => In s (RegExp.split false Enhanced.sectionBoundary content) /\
                   50 < String.length (JS.trim s)) sections ->
  Forall (fun i => i < List.length sections) indices ->
  forall out, UnitsOf content episodeName out ->
    UnitsOf content episodeName
      (fold_left (Enhanced.sectionStep episodeName sections) indices out).
Proof.
  intros Hsec. induction 1 as [| i indices Hi _ IH]; intros out Hout; [exact Hout |].
  cbn [fold_left]. apply IH. now apply sectionStep_Units.
Qed.

(** Every unit of [createSmartChunks] is cut from a section of the
    transcript, and the units are numbered from 0. *)
Lemma createSmartChunks_Units :
  UnitsOf content episodeName
    (fold_left (Enhanced.sectionStep episodeName (Enhanced.sectionsOf content))
               (seq 0 (List.length (Enhanced.sectionsOf content))) ([], 0)).
Proof.
  apply sections_Units.
  - unfold Enhanced.sectionsOf. apply Forall_forall. intros s Hs.
    apply filter_In in Hs as [Hin Hs]. split; [exact Hin | now apply Nat.ltb_lt in Hs].
  - apply Forall_forall. intros i Hi. apply in_seq in Hi. lia.
  - repeat split. constructor.
Qed.

Lemma UnitOf_EmittedFrom (chunk : EnhancedChunk.t) :
  UnitOf content episodeName chunk -> EmittedFrom episodeName chunk.
Proof.
  intros (section & raw & context & _ & (Hlen & Hcut) & Hc).
  exists raw, context. split; [exact Hc |].
  destruct Hcut as [[_ ->] | (_ & Hraw & _)]; lia.
Qed.

Lemma createSmartChunks_Good :
  GoodEmitted episodeName
    (fold_left (Enhanced.sectionStep episodeName (Enhanced.sectionsOf content))
               (seq 0 (List.length (Enhanced.sectionsOf content))) ([], 0)).
Proof.
  destruct createSmartChunks_Units as (Hn & Hi & Hall).
  refine (conj Hn (conj Hi _)).
  eapply Forall_impl; [| exact Hall]. exact UnitOf_EmittedFrom.
Qed.

End SmartChunker.

Section FixedWidth.

Lemma fixedWidthLoop_spec (content episode : string) (fuel : nat) :
  forall i chunkIndex,
    let chunks := Original.fixedWidthLoop fuel content episode i chunkIndex in
    Forall (fun c => 50 < String.length (Chunk.text c)) chunks /\
    map Chunk.index chunks = seq chunkIndex (List.length chunks).
Proof.
  induction fuel as [| fuel IH]; intros i chunkIndex; cbv zeta; cbn [Original.fixedWidthLoop].
  - split; [constructor | reflexivity].
  - destruct (i <? String.length content); [| split; [constructor | reflexivity]].
    destruct (50 <? String.length (JS.trim (JS.slice content i (i + 500)))) eqn:E.
    + destruct (IH (i + 500) (S chunkIndex)) as [Hall Hidx]. split.
      * constructor; [| exact Hall]. cbn. now apply Nat.ltb_lt.
      * cbn. now rewrite Hidx.
    + apply IH.
Qed.

Lemma seq_increasing (len : nat) : forall start, StronglySorted lt (seq start len).
Proof.
  induction len as [| len IH]; intros start; cbn; constructor.
  - apply IH.
  - apply Forall_forall. intros x Hx. apply in_seq in Hx. lia.
Qed.

End FixedWidth.

(** C8 on the code: the fixed-width chunker emits only texts longer than 50
    characters, and in both modes the indices of a document are 0, 1, 2, ...
    in order, hence strictly increasing.  The smart chunker measures the raw
    text: every unit is cut from a section of the transcript that has,
    trimmed, more than 50 characters (the section itself, or for a section
    over 800 a run of sentences of more than 20 each), and only then does
    [createChunkWithMetadata] take a speaker prefix off.  So the text it
    emits can fall below both thresholds: the one-line transcript of 56
    characters comes out as the unit ["no."]. *)
Theorem chunker_thresholds_and_indices :
  (String.length (JS.trim colonTranscript) = 56 /\
   exists chunk,
     Enhanced.createSmartChunks colonTranscript "ep1" = [chunk] /\
     EnhancedChunk.text chunk = "no." /\
     String.length (EnhancedChunk.text chunk) = 3) /\
  (forall content episodeName,
     let fixed := Original.fixedWidthChunks content episodeName in
     let smart := Enhanced.createSmartChunks content episodeName in
     Forall (fun c => 50 < String.length (Chunk.text c)) fixed /\
     map Chunk.index fixed = seq 0 (List.length fixed) /\
     StronglySorted lt (map Chunk.index fixed) /\
     Forall (UnitOf content episodeName) smart /\
     map EnhancedChunk.index smart = seq 0 (List.length smart) /\
     StronglySorted lt (map EnhancedChunk.index smart)).
Proof.
  split.
  - split; [reflexivity |]. vm_compute. eexists. repeat split.
  - intros content episodeName. cbv zeta.
    destruct (fixedWidthLoop_spec content episodeName (String.length content) 0 0) as [Hf Hfi].
    destruct (createSmartChunks_Units content episodeName) as (_ & Hsi & Hs).
    fold (Original.fixedWidthChunks content episodeName) in Hf, Hfi.
    fold (Enhanced.createSmartChunks content episodeName) in Hsi, Hs.
    refine (conj Hf (conj Hfi (conj _ (conj Hs (conj Hsi _))))).
    + rewrite Hfi. apply seq_increasing.
    + rewrite Hsi. apply seq_increasing.
Qed.

(** Read on the emitted text, the thresholds do not hold for the smart
    chunker: the one-line transcript is longer than 50 characters, its clause
    before the colon is taken for a speaker name, and the unit emitted has
    the three characters ["no."]. *)
Lemma smart_chunk_below_threshold :
  ~ (forall content episodeName chunk,
       In chunk (Enhanced.createSmartChunks content episodeName) ->
       20 < String.length (EnhancedChunk.text chunk)).
Proof.
  intros H.
  assert (E : exists chunk,
             Enhanced.createSmartChunks colonTranscript "ep1" = [chunk] /\
             EnhancedChunk.text chunk = "no.")
    by (vm_compute; eexists; split; reflexivity).
  destruct E as (chunk & Ec & Et).
  specialize (H colonTranscript "ep1" chunk ltac:(rewrite Ec; left; reflexivity)).
  rewrite Et in H. cbn in H. lia.
Qed.

(* ================================================================== *)
(** * Signs and bounds of binary64 scores *)
(* ================================================================== *)

Section FloatSigns.

(** Rounding never flips the sign it is given. *)
Lemma binary_round_aux_sign (sx : bool) (m e : Z) (l : location) :
  sign_sf (binary_round_aux prec emax sx m e l) <> Some (negb sx).
Proof.
  unfold binary_round_aux.
  destruct (shr_fexp prec emax m e l) as [mrs' e'].
  destruct (shr_fexp prec emax _ e' loc_Exact) as [mrs'' e''].
  destruct (shr_m mrs'') as [| p | p]; cbn [sign_sf].
  - now destruct sx.
  - destruct (Z.leb e'' (emax - prec)); cbn [sign_sf]; now destruct sx.
  - discriminate.
Qed.

Lemma binary_round_sign (sx : bool) (m : positive) (e : Z) :
  sign_sf (binary_round prec emax sx m e) <> Some (negb sx).
Proof.
  unfold binary_round. destruct (shl_align _ _ _) as [mz ez]. apply binary_round_aux_sign.
Qed.

Lemma binary_normalize_sign (m e : Z) (szero : bool) :
  sign_sf (binary_normalize prec emax m e szero)
  <> Some (negb match m with Z0 => szero | Zpos _ => false | Zneg _ => true end).
Proof.
  destruct m; cbn [binary_normalize]; [cbn; now destruct szero | |]; apply binary_round_sign.
Qed.

Lemma SignClear_sign (x : float) : SignClear x <-> sign_sf (Prim2SF x) <> Some true.
Proof.
  unfold SignClear. destruct (Prim2SF x) as [s | s | | s m e]; cbn;
    try (split; [intros ->; discriminate | destruct s; congruence]).
  split; [discriminate | trivial].
Qed.

Lemma SignClear_not_negative (x : float) : SignClear x -> (x <? 0)%float = false.
Proof.
  unfold SignClear. rewrite ltb_spec, FloatFacts.Prim2SF_zero.
  destruct (Prim2SF x) as [s | s | | s m e]; intros H; try subst s; reflexivity.
Qed.

Lemma SignClear_mul (x y : float) : SignClear x -> SignClear y -> SignClear (x * y)%float.
Proof.
  rewrite !SignClear_sign, mul_spec.
  destruct (Prim2SF x) as [sx | sx | | sx mx ex], (Prim2SF y) as [sy | sy | | sy my ey];
    cbn [sign_sf SF64mul SFmul]; intros Hx Hy;
    try (destruct sx; [congruence |]); try (destruct sy; [congruence |]);
    cbn; try discriminate.
  apply (binary_round_aux_sign false).
Qed.

Lemma SignClear_div (x y : float) : SignClear x -> SignClear y -> SignClear (x / y)%float.
Proof.
  rewrite !SignClear_sign, div_spec.
  destruct (Prim2SF x) as [sx | sx | | sx mx ex], (Prim2SF y) as [sy | sy | | sy my ey];
    cbn [sign_sf SF64div SFdiv]; intros Hx Hy;
    try (destruct sx; [congruence |]); try (destruct sy; [congruence |]);
    cbn [xorb sign_sf]; try discriminate.
  destruct (SFdiv_core_binary prec emax (Z.pos mx) ex (Z.pos my) ey) as [[mz ez] lz].
  apply (binary_round_aux_sign false).
Qed.

Lemma SignClear_add (x y : float) : SignClear x -> SignClear y -> SignClear (x + y)%float.
Proof.
  rewrite !SignClear_sign, add_spec.
  destruct (Prim2SF x) as [sx | sx | | sx mx ex], (Prim2SF y) as [sy | sy | | sy my ey];
    cbn [sign_sf SF64add SFadd]; intros Hx Hy;
    try (destruct sx; [congruence |]); try (destruct sy; [congruence |]);
    cbn [Bool.eqb sign_sf]; try discriminate.
  cbn [cond_Zopp].
  match goal with |- sign_sf (binary_normalize _ _ ?m ?e ?z) <> _ =>
    pose proof (binary_normalize_sign m e z) as Hn; destruct m eqn:Em end;
    cbn [negb] in Hn; try exact Hn; lia.
Qed.

Lemma SignClear_num (n : nat) : SignClear (JS.num n).
Proof.
  rewrite SignClear_sign. unfold JS.num. rewrite of_uint63_spec.
  pose proof (Uint63.to_Z_bounded (Uint63.of_Z (Z.of_nat n))) as [H _].
  match goal with |- sign_sf (binary_normalize _ _ ?m ?e ?z) <> _ =>
    pose proof (binary_normalize_sign m e z) as Hn; destruct m eqn:Em end;
    cbn [negb] in Hn; try exact Hn; lia.
Qed.

(** The literals the scorers add, multiply and divide by. *)
Lemma SignClear_literals :
  SignClear 0 /\ SignClear 1 /\ SignClear 2 /\ SignClear 5 /\ SignClear 10 /\
  SignClear 100 /\ SignClear 0.5 /\ SignClear 0.3 /\ SignClear 0.4 /\ SignClear 0.2 /\
  SignClear 0.1.
Proof. unfold SignClear. repeat apply conj; reflexivity. Qed.

(** [<] on numbers is asymmetric. *)
Lemma ltb_asym (x y : float) : (x <? y)%float = true -> (y <? x)%float = false.
Proof.
  rewrite !ltb_spec. unfold SFltb.
  destruct (Prim2SF x) as [sx | sx | | sx mx ex], (Prim2SF y) as [sy | sy | | sy my ey];
    cbn; try discriminate; try reflexivity;
    try (destruct sx; try destruct sy; cbn; try discriminate; reflexivity);
    try (destruct sy; cbn; try discriminate; reflexivity).
  change (Pos.compare_cont Eq mx my) with (Pos.compare mx my).
  change (Pos.compare_cont Eq my mx) with (Pos.compare my mx).
  rewrite (Z.compare_antisym ex ey), (Pos.compare_antisym mx my).
  destruct sx, sy; try discriminate; try reflexivity;
    destruct (ex ?= ey)%Z; cbn; try discriminate; try reflexivity;
    destruct (mx ?= my)%positive; cbn; try discriminate; reflexivity.
Qed.

(** A number above 0 has its sign bit clear. *)
Lemma positive_sign (x : float) : JS.gt x 0 = true -> sign_sf (Prim2SF x) = Some false.
Proof.
  unfold JS.gt. rewrite ltb_spec, FloatFacts.Prim2SF_zero.
  destruct (Prim2SF x) as [s | s | | s m e]; cbn; try discriminate; now destruct s.
Qed.

(** The sign of a difference is opposite to the sign of the reversed
    difference, except where both are zero or NaN. *)
Lemma sub_positive_asym (x y : float) :
  JS.gt (x - y) 0 = true -> JS.gt (y - x) 0 = false.
Proof.
  intros H. destruct (JS.gt (y - x) 0) eqn:H'; [| reflexivity]. exfalso.
  pose proof (positive_sign _ H) as S1. pose proof (positive_sign _ H') as S2.
  unfold JS.gt in H. rewrite ltb_spec, FloatFacts.Prim2SF_zero in H.
  rewrite sub_spec in *.
  destruct (Prim2SF x) as [sx | sx | | sx mx ex], (Prim2SF y) as [sy | sy | | sy my ey];
    cbn [SF64sub SFsub sign_sf] in *; try discriminate;
    try (destruct sx, sy; cbn in *; discriminate);
    try (destruct sx; cbn in *; discriminate);
    try (destruct sy; cbn in *; discriminate).
  rewrite (Z.min_comm ey ex) in S2.
  destruct (shl_align mx ex (Z.min ex ey)) as [ax ?], (shl_align my ey (Z.min ex ey)) as [ay ?].
  cbn [fst] in *.
  match type of S1 with sign_sf (binary_normalize _ _ ?m ?e ?z) = _ =>
    pose proof (binary_normalize_sign m e z) as N1 end.
  match type of S2 with sign_sf (binary_normalize _ _ ?m ?e ?z) = _ =>
    pose proof (binary_normalize_sign m e z) as N2 end.
  rewrite S1 in N1. rewrite S2 in N2.
  destruct (cond_Zopp sx (Z.pos ax) - cond_Zopp sy (Z.pos ay))%Z eqn:E1;
    [cbn in H; discriminate | | cbn [negb] in N1; congruence].
  destruct (cond_Zopp sy (Z.pos ay) - cond_Zopp sx (Z.pos ax))%Z eqn:E2;
    cbn [negb] in N2; try congruence; lia.
Qed.

(** [Math.min(x, 1)] is never above 1, and keeps a clear sign. *)
Lemma Math_min_one_le (x : float) : (1 <? JS.Math_min x 1)%float = false.
Proof.
  unfold JS.Math_min.
  destruct (PrimFloat.is_nan x || PrimFloat.is_nan 1) eqn:En; [reflexivity |].
  destruct (x <? 1)%float eqn:E1; [now apply ltb_asym |].
  destruct (1 <? x)%float eqn:E2; [reflexivity |].
  now destruct (PrimFloat.get_sign x).
Qed.

Lemma Math_min_one_SignClear (x : float) : SignClear x -> SignClear (JS.Math_min x 1).
Proof.
  intros H. unfold JS.Math_min.
  destruct (PrimFloat.is_nan x || PrimFloat.is_nan 1); [exact I |].
  destruct (x <? 1)%float; [exact H |].
  destruct (1 <? x)%float; [reflexivity |].
  destruct (PrimFloat.get_sign x); [exact H | reflexivity].
Qed.

Lemma Math_min_one_unit (x : float) : SignClear x -> UnitOrNaN (JS.Math_min x 1).
Proof.
  intros H. split.
  - now apply SignClear_not_negative, Math_min_one_SignClear.
  - apply Math_min_one_le.
Qed.

End FloatSigns.

(** A property of the accumulator that every turn of a [forEach] keeps holds
    of what the loop returns. *)
Lemma forEach_invariant {A S : Type} (P : S -> Prop) (f : S -> A -> completion S)
    (l : list A) :
  (forall s a s', P s -> f s a = Return s' -> P s') ->
  forall s r, P s -> forEach l f s = Return r -> P r.
Proof.
  intros Hf. induction l as [| a l IH]; intros s r Hs H; cbn [forEach] in H.
  - now injection H as <-.
  - destruct (f s a) as [s' | |] eqn:E; cbn [bind] in H; try discriminate.
    eapply IH; [| exact H]. eapply Hf; eauto.
Qed.

Lemma mapM_Forall2 {A B : Type} (f : A -> completion B) (l : list A) (bs : list B) :
  mapM f l = Return bs -> Forall2 (fun a b => f a = Return b) l bs.
Proof.
  revert bs. induction l as [| a l IH]; intros bs H; cbn [mapM] in H.
  - injection H as <-. constructor.
  - destruct (f a) as [b | |] eqn:E; cbn [bind] in H; try discriminate.
    destruct (mapM f l) as [bs' | |]; cbn [bind] in H; try discriminate.
    injection H as <-. constructor; auto.
Qed.

(* ================================================================== *)
(** * Range of the lexical scores *)
(* ================================================================== *)

(** X1: whatever the query and the text, a score that
    [calculateKeywordRelevance] returns is NaN or lies between 0 and 1. *)
Theorem calculateKeywordRelevance_range (query text : string) (score : float) :
  Enhanced.calculateKeywordRelevance query text = Return score -> UnitOrNaN score.
Proof.
  destruct SignClear_literals as (H0 & H1 & H2 & H5 & H10 & _).
  unfold Enhanced.calculateKeywordRelevance. intros H.
  match type of H with (x <- ?loop ;; _) = _ => destruct loop as [s | |] eqn:E end;
    cbn [bind] in H; try discriminate.
  injection H as <-.
  assert (Hs : SignClear s).
  { revert E. apply forEach_invariant; [| exact H0].
    intros acc word acc' Hacc Hstep.
    destruct (Lexical.countMatches (JS.toLowerCase text) word) as [n | |];
      cbn [bind] in Hstep; try discriminate.
    injection Hstep as <-.
    apply SignClear_add; [exact Hacc |].
    apply SignClear_mul; [apply SignClear_num |].
    apply SignClear_div; [apply SignClear_num | exact H10]. }
  apply Math_min_one_unit, SignClear_div.
  - destruct (JS.includes _ _); [apply SignClear_add |]; assumption.
  - apply SignClear_mul; [apply SignClear_num | exact H2].
Qed.

Lemma calculateKeywordRelevance_range_witness :
  exists score,
    Enhanced.calculateKeywordRelevance "raise money" sampleParagraph1 = Return score /\
    UnitOrNaN score.
Proof.
  eexists. split; [vm_compute; reflexivity |].
  apply (calculateKeywordRelevance_range "raise money" sampleParagraph1).
  vm_compute. reflexivity.
Defined.

(** X2: the same for [calculateContentRelevance] of [ai.ts]. *)
Theorem calculateContentRelevance_range (query text : string) (score : float) :
  Simple.calculateContentRelevance query text = Return score -> UnitOrNaN score.
Proof.
  destruct SignClear_literals as (H0 & H1 & H2 & H5 & H10 & H100 & _).
  unfold Simple.calculateContentRelevance. intros H.
  match type of H with (x <- ?loop ;; _) = _ => destruct loop as [[s total] | |] eqn:E end;
    cbn [bind] in H; try discriminate.
  injection H as <-.
  assert (Hs : SignClear (fst (s, total))).
  { revert E. apply (forEach_invariant (fun st => SignClear (fst st))); [| exact H0].
    intros [acc n] word acc' Hacc Hstep. cbn [fst] in Hacc.
    destruct (Lexical.countMatches (JS.toLowerCase text) word) as [m | |];
      cbn [bind] in Hstep; try discriminate.
    destruct (0 <? m); injection Hstep as <-; cbn [fst]; [| exact Hacc].
    apply SignClear_add; [exact Hacc |].
    apply SignClear_mul; [apply SignClear_num |].
    apply SignClear_div; [apply SignClear_num | exact H10]. }
  cbn [fst] in Hs.
  apply Math_min_one_unit, SignClear_div.
  - destruct (JS.includes _ _); [apply SignClear_add |]; assumption.
  - apply SignClear_div; [apply SignClear_num | exact H100].
Qed.

Lemma calculateContentRelevance_range_witness :
  exists score,
    Simple.calculateContentRelevance "raise money" sampleParagraph1 = Return score /\
    UnitOrNaN score.
Proof.
  eexists. split; [vm_compute; reflexivity |].
  apply (calculateContentRelevance_range "raise money" sampleParagraph1).
  vm_compute. reflexivity.
Defined.
(* ================================================================== *)
(** * The sort orders, and keeps distinct elements distinct *)
(* ================================================================== *)

Section SortOrders.

Context {A : Type}.
Variable cmp : A -> A -> float.

Hypothesis asym : forall x y, JS.gt (cmp x y) 0 = true -> JS.gt (cmp y x) 0 = false.

Lemma HdRel_sort_insert (y x : A) (l : list A) :
  JS.gt (cmp y x) 0 = false ->
  HdRel (fun a b => JS.gt (cmp a b) 0 = false) y l ->
  HdRel (fun a b => JS.gt (cmp a b) 0 = false) y (sort_insert cmp x l).
Proof.
  intros Hx Hl. destruct l as [| z l]; cbn [sort_insert]; [now constructor |].
  destruct (JS.gt (cmp x z) 0); constructor; [now inversion Hl | assumption].
Qed.

Lemma Sorted_sort_insert (x : A) (l : list A) :
  Sorted (fun a b => JS.gt (cmp a b) 0 = false) l ->
  Sorted (fun a b => JS.gt (cmp a b) 0 = false) (sort_insert cmp x l).
Proof.
  induction l as [| y l IH]; intros Hs; cbn [sort_insert].
  - repeat constructor.
  - inversion Hs as [| ? ? Hl Hy]; subst.
    destruct (JS.gt (cmp x y) 0) eqn:E.
    + constructor; [now apply IH |]. apply HdRel_sort_insert; [now apply asym | assumption].
    + constructor; [assumption | now constructor].
Qed.

(** After the sort no element is followed by one the comparator puts
    before it. *)
Lemma Sorted_Array_sort (l : list A) :
  Sorted (fun a b => JS.gt (cmp a b) 0 = false) (Array_sort cmp l).
Proof.
  induction l as [| x l IH]; cbn [Array_sort]; [constructor | now apply Sorted_sort_insert].
Qed.

End SortOrders.


Lemma length_firstn_le {A : Type} (n : nat) (l : list A) : List.length (firstn n l) <= n.
Proof. revert l. induction n as [| n IH]; intros [| x l]; cbn; try lia. specialize (IH l). lia. Qed.

Section SortDistinct.

Context {A B : Type}.
Variable cmp : A -> A -> float.
Variable f : A -> B.

Lemma NoDup_map_sort_insert (x : A) (l : list A) :
  NoDup (map f (x :: l)) -> NoDup (map f (sort_insert cmp x l)).
Proof.
  induction l as [| y l IH]; intros H; cbn [sort_insert]; [assumption |].
  destruct (JS.gt (cmp x y) 0); [| assumption].
  cbn [map] in *. inversion H as [| ? ? Hx Hyl]; subst. inversion Hyl as [| ? ? Hy Hl]; subst.
  constructor.
  - rewrite in_map_iff. intros (z & Ez & Hz). apply In_sort_insert in Hz as [-> | Hz].
    + apply Hx. left. now symmetry.
    + apply Hy. rewrite <- Ez. now apply in_map.
  - apply IH. constructor; [| assumption]. intros Hin. apply Hx. now right.
Qed.

Lemma NoDup_map_Array_sort (l : list A) :
  NoDup (map f l) -> NoDup (map f (Array_sort cmp l)).
Proof.
  induction l as [| x l IH]; intros H; cbn [Array_sort]; [constructor |].
  apply NoDup_map_sort_insert. cbn [map] in *. inversion H as [| ? ? Hx Hl]; subst.
  constructor; [| now apply IH].
  rewrite in_map_iff. intros (z & Ez & Hz). apply In_Array_sort in Hz.
  apply Hx. rewrite <- Ez. now apply in_map.
Qed.

Lemma NoDup_map_filter (p : A -> bool) (l : list A) :
  NoDup (map f l) -> NoDup (map f (filter p l)).
Proof.
  induction l as [| x l IH]; intros H; cbn [filter]; [constructor |].
  cbn [map] in H. inversion H as [| ? ? Hx Hl]; subst.
  destruct (p x); [| now apply IH]. cbn [map]. constructor; [| now apply IH].
  rewrite in_map_iff. intros (z & Ez & Hz). apply filter_In in Hz as [Hz _].
  apply Hx. rewrite <- Ez. now apply in_map.
Qed.

Lemma NoDup_map_firstn (n : nat) (l : list A) :
  NoDup (map f l) -> NoDup (map f (firstn n l)).
Proof.
  revert l. induction n as [| n IH]; intros [| x l] H; cbn [firstn map]; try constructor.
  - cbn [map] in H. inversion H as [| ? ? Hx Hl]; subst.
    rewrite in_map_iff. intros (z & Ez & Hz). apply In_firstn in Hz.
    apply Hx. rewrite <- Ez. now apply in_map.
  - cbn [map] in H. inversion H; subst. now apply IH.
Qed.

End SortDistinct.

Lemma Forall2_In_r {A B : Type} (P : A -> B -> Prop) (l : list A) (l' : list B) (b : B) :
  Forall2 P l l' -> In b l' -> exists a, In a l /\ P a b.
Proof.
  induction 1 as [| a b' l l' Hab _ IH]; cbn [In]; [tauto |].
  intros [-> | Hin].
  - exists a. auto.
  - destruct (IH Hin) as (a' & Ha & Hp). exists a'. auto.
Qed.

(* ================================================================== *)
(** * Where the candidates of a retrieval come from *)
(* ================================================================== *)

(** From [Return t = Return u] to [t = u], leaving both sides as they are. *)
Ltac return_inj H :=
  match type of H with
  | Return ?t = Return ?u =>
      let E := fresh in
      assert (E : t = u)
        by exact (f_equal (fun c => match c with Return v => v | _ => t end) H);
      clear H; rename E into H
  end.

Section Stages.

Variable query : string.

Lemma topicFilter_incl (corpus : list EnhancedChunk.t) (chunk : EnhancedChunk.t) :
  In chunk (Enhanced.topicFilter corpus query) -> In chunk corpus.
Proof.
  unfold Enhanced.topicFilter. destruct (0 <? _); [| trivial].
  intros H. now apply filter_In in H.
Qed.

(** With a topic in the query, the topic filter passes only chunks that
    share one. *)
Lemma topicFilter_SharesTopic (corpus : list EnhancedChunk.t) (chunk : EnhancedChunk.t) :
  Enhanced.extractTopics query <> [] ->
  In chunk (Enhanced.topicFilter corpus query) -> SharesTopic chunk query.
Proof.
  intros Hq. unfold Enhanced.topicFilter.
  destruct (Enhanced.extractTopics query) as [| t ts] eqn:E; [congruence |].
  cbn [List.length Nat.ltb Nat.leb]. intros H. apply filter_In in H as [_ H].
  apply existsb_exists in H as (topic & Hc & Hin). apply includes_str_In in Hin.
  exists topic. rewrite E. auto.
Qed.

Lemma semanticStage_spec (chunks : list EnhancedChunk.t) (queryEmbedding : option vector)
    (chunk : EnhancedChunk.t) :
  In chunk (Enhanced.semanticStage chunks queryEmbedding) ->
  In chunk chunks /\ SemanticCandidate queryEmbedding chunk.
Proof.
  unfold Enhanced.semanticStage. destruct queryEmbedding as [q |]; [| intros []].
  intros H. apply in_map_iff in H as ([c s] & <- & H). cbn [fst].
  apply (In_firstn 10), In_Array_sort, filter_In in H as [H Hs].
  apply in_map_iff in H as (c' & E & H). injection E as -> <-.
  apply filter_In in H as [H He]. split; [assumption |].
  destruct (EnhancedChunk.embedding c) as [e |] eqn:Ee; [| discriminate].
  exists q, e. auto.
Qed.

Lemma enhancedKeywordSearch_spec (chunks found : list EnhancedChunk.t)
    (chunk : EnhancedChunk.t) :
  Enhanced.enhancedKeywordSearch query chunks = Return found ->
  In chunk found -> In chunk chunks /\ KeywordCandidate query chunk.
Proof.
  unfold Enhanced.enhancedKeywordSearch. intros H Hin.
  match type of H with (x <- ?m ;; _) = _ => destruct m as [scored | |] eqn:E end;
    cbn [bind] in H; try discriminate.
  return_inj H. subst found. apply mapM_Forall2 in E.
  apply in_map_iff in Hin as ([c s] & <- & Hin). cbn [fst].
  apply (In_firstn 8), In_Array_sort, filter_In in Hin as [Hin Hs]. cbn [snd] in Hs.
  destruct (Forall2_In_r _ _ _ _ E Hin) as (c' & Hc' & Hf).
  destruct (Enhanced.calculateKeywordRelevance query _) as [s' | |] eqn:Ek;
    cbn [bind] in Hf; try discriminate.
  injection Hf as -> ->. split; [assumption |]. now exists s.
Qed.

Lemma enhancedKeywordSearch_length (chunks found : list EnhancedChunk.t) :
  Enhanced.enhancedKeywordSearch query chunks = Return found -> List.length found <= 8.
Proof.
  unfold Enhanced.enhancedKeywordSearch. intros H.
  match type of H with (x <- ?m ;; _) = _ => destruct m as [scored | |] end;
    cbn [bind] in H; try discriminate.
  return_inj H. subst found. rewrite length_map. apply length_firstn_le.
Qed.

Lemma fold_rememberFirst_incl (l : list EnhancedChunk.t) :
  forall (m : Enhanced.CandidateMap) (chunk : EnhancedChunk.t),
    In chunk (map snd (fold_left Enhanced.rememberFirst l m)) ->
    In chunk (map snd m) \/ In chunk l.
Proof.
  induction l as [| c l IH]; intros m chunk H; cbn [fold_left] in H; [now left |].
  apply IH in H as [H | H]; [| right; now right].
  unfold Enhanced.rememberFirst, Enhanced.map_set_new in H.
  destruct (negb _); [| now left].
  rewrite map_app in H. apply in_app_or in H as [H | [<- | []]]; [now left |].
  right. now left.
Qed.

Lemma uniqueCandidates_incl (l : list EnhancedChunk.t) (chunk : EnhancedChunk.t) :
  In chunk (Enhanced.uniqueCandidates l) -> In chunk l.
Proof.
  unfold Enhanced.uniqueCandidates. intros H.
  apply fold_rememberFirst_incl in H as [[] | H]. assumption.
Qed.

Lemma fusedCandidates_spec (corpus fused : list EnhancedChunk.t)
    (queryEmbedding : option vector) (chunk : EnhancedChunk.t) :
  Enhanced.fusedCandidates corpus query queryEmbedding = Return fused ->
  In chunk fused ->
  In chunk (Enhanced.topicFilter corpus query) /\
  (SemanticCandidate queryEmbedding chunk \/ KeywordCandidate query chunk).
Proof.
  unfold Enhanced.fusedCandidates. intros H Hin.
  destruct (Enhanced.enhancedKeywordSearch query _) as [found | |] eqn:Ek;
    cbn [bind] in H; try discriminate.
  injection H as <-. apply uniqueCandidates_incl, in_app_or in Hin as [Hin | Hin].
  - apply semanticStage_spec in Hin as [H1 H2]. auto.
  - apply (enhancedKeywordSearch_spec _ _ _ Ek) in Hin as [H1 H2]. auto.
Qed.

End Stages.

(** Every result of a retrieval is the scoring of a fused candidate. *)
Lemma performMultiStageRetrieval_fused (env : Env) (corpus : list EnhancedChunk.t)
    (query : string) (results : list RetrievalResult.t) :
  Enhanced.performMultiStageRetrieval env corpus query = Return results ->
  exists fused,
    Enhanced.fusedCandidates corpus query (getEmbedding env query) = Return fused /\
    NoDup (map Enhanced.chunkKey (map RetrievalResult.chunk results)) /\
    forall r, In r results -> In (RetrievalResult.chunk r) fused.
Proof.
  intros H. apply performMultiStageRetrieval_inv in H as (fused & scored & Hf & Hs & ->).
  exists fused. split; [exact Hf |].
  apply scoreCandidates_spec in Hs as [Hmap _]. split.
  - rewrite map_map. apply NoDup_map_firstn, NoDup_map_Array_sort.
    rewrite <- map_map, Hmap. apply NoDup_map_filter.
    unfold Enhanced.fusedCandidates in Hf.
    destruct (Enhanced.enhancedKeywordSearch query _) as [found | |];
      cbn [bind] in Hf; try discriminate.
    injection Hf as <-. apply uniqueCandidates_NoDup.
  - intros r Hin. apply In_firstn, In_Array_sort in Hin.
    apply (in_map RetrievalResult.chunk) in Hin. rewrite Hmap in Hin.
    now apply filter_In in Hin.
Qed.



(** X4: the chunks of the results are chunks of the corpus that passed the
    topic filter, and no two results carry the same unit id. *)
Theorem retrieval_results_from_corpus (env : Env) (corpus : list EnhancedChunk.t)
    (query : string) (results : list RetrievalResult.t) :
  Enhanced.performMultiStageRetrieval env corpus query = Return results ->
  NoDup (map Enhanced.chunkKey (map RetrievalResult.chunk results)) /\
  Forall (fun r => In (RetrievalResult.chunk r) corpus) results.
Proof.
  intros H. apply performMultiStageRetrieval_fused in H as (fused & Hf & Hnd & Hin).
  split; [exact Hnd |]. apply Forall_forall. intros r Hr.
  apply Hin in Hr. apply (fusedCandidates_spec _ _ _ _ _ Hf) in Hr as [Hr _].
  now apply topicFilter_incl in Hr.
Qed.

Lemma retrieval_results_from_corpus_witness :
  NoDup (map Enhanced.chunkKey (map RetrievalResult.chunk tiedResults)) /\
  Forall (fun r => In (RetrievalResult.chunk r) lexicalCorpus) tiedResults.
Proof.
  apply (retrieval_results_from_corpus lexicalEnv lexicalCorpus "raise money").
  vm_compute. reflexivity.
Defined.

(** X5: when the query mentions a topic of the table, every result shares a
    topic with it; when it mentions none, no result is labelled [high]. *)
Theorem retrieval_topic_gate (env : Env) (corpus : list EnhancedChunk.t)
    (query : string) (results : list RetrievalResult.t) :
  Enhanced.performMultiStageRetrieval env corpus query = Return results ->
  (Enhanced.extractTopics query <> [] ->
   Forall (fun r => SharesTopic (RetrievalResult.chunk r) query) results) /\
  (Enhanced.extractTopics query = [] ->
   Forall (fun r => RetrievalResult.confidenceLevel r <> high) results).
Proof.
  intros H. split; intros Hq; apply Forall_forall; intros r Hr.
  - apply performMultiStageRetrieval_fused in H as (fused & Hf & _ & Hin).
    apply Hin in Hr. apply (fusedCandidates_spec _ _ _ _ _ Hf) in Hr as [Hr _].
    now apply topicFilter_SharesTopic in Hr.
  - destruct (performMultiStageRetrieval_WellScored _ _ _ _ _ H Hr) as (_ & _ & Hc & _).
    rewrite Hc. unfold Enhanced.determineConfidenceLevel. rewrite Hq.
    cbn [existsb]. rewrite andb_false_r.
    now destruct (JS.gt (RetrievalResult.relevanceScore r) 0.5).
Qed.

Lemma retrieval_topic_gate_witness :
  Forall (fun r => RetrievalResult.confidenceLevel r <> high) tiedResults.
Proof.
  refine (proj2 (retrieval_topic_gate lexicalEnv lexicalCorpus "raise money" tiedResults _) _).
  - vm_compute. reflexivity.
  - vm_compute. reflexivity.
Defined.

(** X6: when no chunk passes the topic filter (an empty corpus, or a query
    whose topics no chunk shares) retrieval returns the empty list without
    compiling a single token, whatever the query. *)
Theorem retrieval_nothing_to_search (env : Env) (corpus : list EnhancedChunk.t)
    (query : string) :
  Enhanced.topicFilter corpus query = [] ->
  Enhanced.performMultiStageRetrieval env corpus query = Return [].
Proof.
  intros H. unfold Enhanced.performMultiStageRetrieval, Enhanced.fusedCandidates.
  rewrite H. now destruct (getEmbedding env query).
Qed.

Lemma retrieval_nothing_to_search_witness :
  Enhanced.performMultiStageRetrieval lexicalEnv lexicalCorpus "c++ gaming" = Return [] /\
  Enhanced.performMultiStageRetrieval lexicalEnv [] "c++" = Return [].
Proof.
  split.
  - apply (retrieval_nothing_to_search lexicalEnv lexicalCorpus "c++ gaming").
    vm_compute. reflexivity.
  - apply (retrieval_nothing_to_search lexicalEnv [] "c++"). reflexivity.
Defined.

(** X7: every result was admitted by one of the two candidate stages: the
    semantic one (both embeddings present, cosine similarity above 0.25) or
    the keyword one (lexical relevance of text and context above 0.3); with
    no credential, or a query of fewer than 10 characters once trimmed,
    only the keyword stage admits. *)
Theorem retrieval_candidate_admission (env : Env) (corpus : list EnhancedChunk.t)
    (query : string) (results : list RetrievalResult.t) :
  Enhanced.performMultiStageRetrieval env corpus query = Return results ->
  Forall (fun r => SemanticCandidate (getEmbedding env query) (RetrievalResult.chunk r) \/
                   KeywordCandidate query (RetrievalResult.chunk r)) results /\
  (truthy (OPENAI_API_KEY env) = false \/ String.length (JS.trim query) < 10 ->
   Forall (fun r => KeywordCandidate query (RetrievalResult.chunk r)) results).
Proof.
  intros H. apply performMultiStageRetrieval_fused in H as (fused & Hf & _ & Hin).
  assert (Hall : Forall (fun r => SemanticCandidate (getEmbedding env query) (RetrievalResult.chunk r) \/
                   KeywordCandidate query (RetrievalResult.chunk r)) results).
  { apply Forall_forall. intros r Hr. apply Hin in Hr.
    now apply (fusedCandidates_spec _ _ _ _ _ Hf) in Hr as [_ Hr]. }
  split; [exact Hall |].
  intros Hnone.
  assert (He : getEmbedding env query = None).
  { unfold getEmbedding. destruct Hnone as [-> | Hlen]; [reflexivity |].
    destruct (negb _); [reflexivity |].
    apply Nat.ltb_lt in Hlen. now rewrite Hlen. }
  eapply Forall_impl; [| exact Hall]. cbn beta. intros r [(q & e & Hq & _) | Hk]; [| exact Hk].
  congruence.
Qed.

Lemma retrieval_candidate_admission_witness :
  Forall (fun r => KeywordCandidate "raise money" (RetrievalResult.chunk r)) tiedResults.
Proof.
  refine (proj2 (retrieval_candidate_admission lexicalEnv lexicalCorpus "raise money"
                   tiedResults _) _).
  - vm_compute. reflexivity.
  - left. reflexivity.
Defined.

(* ================================================================== *)
(** * Reproducibility and the order of ties *)
(* ================================================================== *)

Section Ranking.

Context {A : Type}.
Variable score : A -> float.

(** The scored pairs that the stages sort: each carries the score of its
    element. *)
Let Scored (l : list (A * float)) : Prop := Forall (fun p => snd p = score (fst p)) l.

Lemma map_fst_filter (f : float -> bool) (l : list (A * float)) :
  Scored l ->
  map fst (filter (fun p => f (snd p)) l) = filter (fun a => f (score a)) (map fst l).
Proof.
  induction 1 as [| p l Hp _ IH]; [reflexivity |].
  cbn [filter map]. rewrite Hp. destruct (f (score (fst p))); cbn [map]; now rewrite IH.
Qed.

(** Among scores above a threshold, none of them NaN, a list without an
    ascent between neighbours has no ascent at all. *)
Lemma Descending_neighbours (threshold : float) (l : list A) :
  Forall (fun a => JS.gt (score a) threshold = true) l ->
  Sorted (fun a b => (score a <? score b)%float = false) l ->
  Descending score l.
Proof.
  intros Ht Hs. unfold Descending.
  induction Hs as [| a l _ IH Hd]; [constructor |].
  inversion Ht as [| ? ? Ha Hl]; subst. specialize (IH Hl).
  constructor; [exact IH |].
  destruct Hd as [| b l Hab]; constructor; [exact Hab |].
  apply StronglySorted_inv in IH as [_ Hb].
  inversion Hl as [| ? ? Hbt _]; subst.
  eapply Forall_impl; [| exact Hb]. cbn beta. intros c Hbc.
  exact (ltb_false_trans threshold _ _ _ Hbt Hab Hbc).
Qed.

Lemma Sorted_map_fst (l : list (A * float)) :
  Scored l ->
  Sorted (fun a b => JS.gt (snd b - snd a)%float 0 = false) l ->
  Sorted (fun a b => (score a <? score b)%float = false) (map fst l).
Proof.
  intros Hs Hl.
  induction Hl as [| p l _ IH Hd]; cbn [map]; [constructor |].
  inversion Hs as [| ? ? Hp Hs']; subst.
  constructor; [now apply IH |].
  destruct Hd as [| q l Hpq]; cbn [map]; constructor.
  inversion Hs' as [| ? ? Hq _]; subst.
  destruct (score (fst p) <? score (fst q))%float eqn:E; [| reflexivity].
  apply lt_sub_positive in E. rewrite <- Hp, <- Hq in E. congruence.
Qed.

(** Scoring, keeping what is above the threshold and sorting by
    [b.score - a.score] ranks the kept elements. *)
Lemma sort_ranks (threshold : float) (scored : list (A * float)) :
  Scored scored ->
  Ranks score
    (filter (fun a => JS.gt (score a) threshold) (map fst scored))
    (map fst (Array_sort (fun a b => (snd b - snd a)%float)
                (filter (fun p => JS.gt (snd p) threshold) scored))).
Proof.
  intros Hs.
  set (kept := filter (fun p => JS.gt (snd p) threshold) scored).
  assert (Hkept : Forall (fun p => snd p = score (fst p) /\ JS.gt (snd p) threshold = true) kept).
  { apply Forall_forall. intros p Hp. apply filter_In in Hp as [Hp Ht].
    unfold Scored in Hs. rewrite Forall_forall in Hs. auto. }
  assert (Hsorted : Forall (fun p => snd p = score (fst p) /\ JS.gt (snd p) threshold = true)
                           (Array_sort (fun a b => (snd b - snd a)%float) kept)).
  { apply Forall_forall. intros p Hp. apply In_Array_sort in Hp.
    rewrite Forall_forall in Hkept. now apply Hkept. }
  assert (Hkept' : Scored kept) by (eapply Forall_impl; [| exact Hkept]; now intros p [H _]).
  assert (Hsorted' : Scored (Array_sort (fun a b => (snd b - snd a)%float) kept))
    by (eapply Forall_impl; [| exact Hsorted]; now intros p [H _]).
  split.
  - apply (Descending_neighbours threshold).
    + apply Forall_forall. intros a Ha. apply in_map_iff in Ha as (p & <- & Hp).
      rewrite Forall_forall in Hsorted. destruct (Hsorted p Hp) as [E Ht]. now rewrite <- E.
    + apply Sorted_map_fst; [exact Hsorted' |].
      apply (Sorted_Array_sort (fun a b : A * float => (snd b - snd a)%float)).
      intros x y. apply sub_positive_asym.
  - intros v. unfold scoreIs.
    rewrite <- (map_fst_filter (fun s => PrimFloat.Leibniz.eqb s v) _ Hsorted').
    rewrite (filter_Array_sort (fun a b : A * float => (snd b - snd a)%float)
               (fun p => PrimFloat.Leibniz.eqb (snd p) v)).
    + rewrite (map_fst_filter (fun s => PrimFloat.Leibniz.eqb s v) _ Hkept').
      unfold kept. now rewrite (map_fst_filter (fun s => JS.gt s threshold) _ Hs).
    + intros x y Hx Hy. apply FloatAxioms.Leibniz.eqb_spec in Hx, Hy.
      rewrite Hx, Hy. apply FloatFacts.sub_self_not_positive.
Qed.

End Ranking.

(** The map of unique candidates holds, in order, the first chunk of each
    unit id. *)
Lemma fold_rememberFirst_firstOfEachId (l : list EnhancedChunk.t) :
  forall m : Enhanced.CandidateMap,
    map snd (fold_left Enhanced.rememberFirst l m)
    = map snd m ++ firstOfEachId (map fst m) l.
Proof.
  induction l as [| chunk l IH]; intros m; cbn [fold_left firstOfEachId].
  - now rewrite app_nil_r.
  - rewrite IH. unfold Enhanced.rememberFirst, Enhanced.map_set_new.
    assert (E : Enhanced.map_has m (Enhanced.chunkKey chunk)
                = includes_str (map fst m) (Enhanced.chunkKey chunk)).
    { unfold Enhanced.map_has, includes_str. clear.
      induction m as [| entry m IHm]; [reflexivity |].
      cbn [existsb map]. now rewrite IHm, String.eqb_sym. }
    rewrite E. destruct (includes_str (map fst m) (Enhanced.chunkKey chunk)); cbn [negb].
    + reflexivity.
    + rewrite !map_app. cbn [map fst snd]. now rewrite <- app_assoc.
Qed.

Lemma uniqueCandidates_firstOfEachId (l : list EnhancedChunk.t) :
  Enhanced.uniqueCandidates l = firstOfEachId [] l.
Proof. unfold Enhanced.uniqueCandidates. now rewrite fold_rememberFirst_firstOfEachId. Qed.

Lemma filter_filter_implied {A : Type} (p q : A -> bool) (l : list A) :
  (forall a, p a = true -> q a = true) -> filter p (filter q l) = filter p l.
Proof.
  intros H. induction l as [| a l IH]; [reflexivity |].
  cbn [filter]. destruct (q a) eqn:Eq; cbn [filter].
  - now rewrite IH.
  - destruct (p a) eqn:Ep; [| exact IH]. rewrite (H a Ep) in Eq. discriminate.
Qed.

Section StageOrder.

Variable query : string.

(** Stage 2 hands over the first ten of the ranking of its pool by cosine
    similarity. *)
Lemma semanticStage_ranked (chunks : list EnhancedChunk.t) (queryEmbedding : option vector) :
  exists ranked,
    Enhanced.semanticStage chunks queryEmbedding = firstn 10 ranked /\
    Ranks (semanticSignal queryEmbedding) (semanticPool queryEmbedding chunks) ranked.
Proof.
  destruct queryEmbedding as [q |].
  - unfold Enhanced.semanticStage.
    set (embedded := filter _ chunks).
    set (scored := map _ embedded).
    assert (Hs : Forall (fun p => snd p = semanticSignal (Some q) (fst p)) scored).
    { apply Forall_forall. intros p Hp. apply in_map_iff in Hp as (c & <- & Hc).
      apply filter_In in Hc as [_ Hc]. cbn [fst snd]. unfold semanticSignal.
      now destruct (EnhancedChunk.embedding c). }
    eexists. split; [symmetry; apply firstn_map |].
    pose proof (sort_ranks (semanticSignal (Some q)) 0.25 scored Hs) as H.
    assert (E : filter (fun a => JS.gt (semanticSignal (Some q) a) 0.25) (map fst scored)
                = semanticPool (Some q) chunks).
    { unfold scored. rewrite map_map. cbn [fst]. rewrite map_id.
      unfold embedded, semanticPool. apply filter_filter_implied.
      intros c Hc. unfold semanticSignal in Hc.
      destruct (EnhancedChunk.embedding c); [reflexivity | discriminate Hc]. }
    rewrite E in H. exact H.
  - exists []. split; [reflexivity |]. split; [constructor |].
    intros v. unfold semanticPool. cbn [filter].
    induction chunks as [| c chunks IH]; [reflexivity | exact IH].
Qed.

(** Stage 3 hands over the first eight of the ranking of its pool by keyword
    signal. *)
Lemma enhancedKeywordSearch_ranked (chunks found : list EnhancedChunk.t) :
  Enhanced.enhancedKeywordSearch query chunks = Return found ->
  exists ranked,
    found = firstn 8 ranked /\
    Ranks (keywordSignal query) (keywordPool query chunks) ranked.
Proof.
  unfold Enhanced.enhancedKeywordSearch. intros H.
  match type of H with (x <- ?m ;; _) = _ => destruct m as [scored | |] eqn:E end;
    cbn [bind] in H; try discriminate.
  return_inj H. subst found. apply mapM_Forall2 in E.
  assert (Hs : map fst scored = chunks /\
               Forall (fun p => snd p = keywordSignal query (fst p)) scored).
  { clear -E. induction E as [| c p chunks scored Hp _ [IH1 IH2]]; [split; constructor |].
    unfold keywordSignal in *.
    destruct (Enhanced.calculateKeywordRelevance query _) as [s | |] eqn:Ek;
      cbn [bind] in Hp; try discriminate.
    injection Hp as <-. cbn [map fst snd]. split; [now rewrite IH1 |].
    constructor; [| exact IH2]. cbn [fst snd]. now rewrite Ek. }
  destruct Hs as [Hfst Hs].
  eexists. split; [symmetry; apply firstn_map |].
  pose proof (sort_ranks (keywordSignal query) 0.3 scored Hs) as H.
  rewrite Hfst in H. exact H.
Qed.

End StageOrder.

(** Once the enhanced system is ready, a further call leaves the globals as
    they are and retrieves over the same corpus. *)
Lemma enhancedRetrieval_ready (env : Env) (st : Enhanced.State) (query : string) :
  Enhanced.isEnhancedReady st = true ->
  Enhanced.enhancedRetrieval env st query =
  (st, Some (Enhanced.performMultiStageRetrieval env (Enhanced.enhancedChunks st) query)).
Proof.
  intros H. unfold Enhanced.enhancedRetrieval, Enhanced.initializeEnhanced.
  rewrite H. cbv beta iota zeta. now rewrite H.
Qed.

(** A call that retrieves leaves the system ready. *)
Lemma enhancedRetrieval_inv (env : Env) (st : Enhanced.State) (query : string)
    (r : completion (list RetrievalResult.t)) :
  snd (Enhanced.enhancedRetrieval env st query) = Some r ->
  let st' := fst (Enhanced.enhancedRetrieval env st query) in
  Enhanced.isEnhancedReady st' = true /\
  st' = Enhanced.initializeEnhanced env st /\
  r = Enhanced.performMultiStageRetrieval env (Enhanced.enhancedChunks st') query.
Proof.
  unfold Enhanced.enhancedRetrieval.
  destruct (Enhanced.isEnhancedReady (Enhanced.initializeEnhanced env st)) eqn:E;
    cbn [negb fst snd]; intros H; [| discriminate H].
  injection H as <-. auto.
Qed.

(** In a list numbered from 0, what comes before has the smaller index. *)
Lemma Before_index (corpus : list EnhancedChunk.t) (c1 c2 : EnhancedChunk.t) :
  map EnhancedChunk.index corpus = seq 0 (List.length corpus) ->
  Before corpus c1 c2 -> EnhancedChunk.index c1 < EnhancedChunk.index c2.
Proof.
  intros Hseq (l1 & l2 & l3 & E).
  pose proof (seq_increasing (List.length corpus) 0) as Hs. rewrite <- Hseq, E in Hs.
  clear -Hs. induction l1 as [| x l1 IH]; cbn [app map] in Hs.
  - apply StronglySorted_inv in Hs as [_ Hall]. rewrite Forall_forall in Hall.
    apply Hall. rewrite map_app. apply in_or_app. right. now left.
  - apply StronglySorted_inv in Hs as [Hs _]. now apply IH.
Qed.

(** C3, as the code has it.  Two calls: a call that retrieves leaves the
    enhanced system ready, and a further call for the same query, answered
    the same embedding for it, finds the globals as the first left them,
    leaves them so, and returns the same list.  The order: the semantic stage
    ranks the chunks of similarity above 0.25 and the keyword stage those of
    keyword signal above 0.3, each in descending order of its score, equal
    scores in corpus order; the first ten and the first eight are fused,
    semantic candidates first, a chunk already present not repeated; the fused
    candidates that score above 0.3 are ranked by composite score, and results
    of equal composite score come in the order of the fused list. *)
Theorem retrieval_reproducible_ties_in_fusion_order (env : Env) (st : Enhanced.State)
    (query : string) (results : list RetrievalResult.t) :
  snd (Enhanced.enhancedRetrieval env st query) = Some (Return results) ->
  let st' := fst (Enhanced.enhancedRetrieval env st query) in
  let queryEmbedding := getEmbedding env query in
  let filtered := Enhanced.topicFilter (Enhanced.enhancedChunks st') query in
  (forall env',
     getEmbedding env' query = queryEmbedding ->
     Enhanced.enhancedRetrieval env' st' query = (st', Some (Return results))) /\
  exists semantic keyword scored ranked,
    Ranks (semanticSignal queryEmbedding) (semanticPool queryEmbedding filtered) semantic /\
    Ranks (keywordSignal query) (keywordPool query filtered) keyword /\
    let fused := firstOfEachId [] (firstn 10 semantic ++ firstn 8 keyword) in
    Enhanced.scoreCandidates query queryEmbedding fused = Return scored /\
    map RetrievalResult.chunk scored = filter (keeps query queryEmbedding) fused /\
    Forall (WellScored query queryEmbedding) scored /\
    Ranks RetrievalResult.relevanceScore scored ranked /\
    results = firstn 5 ranked.
Proof.
  intros H. cbv zeta.
  apply enhancedRetrieval_inv in H. cbv zeta in H. destruct H as (Hready & _ & Hr).
  set (st' := fst (Enhanced.enhancedRetrieval env st query)) in *.
  symmetry in Hr. split.
  - intros env' He. rewrite (enhancedRetrieval_ready env' st' query Hready).
    unfold Enhanced.performMultiStageRetrieval in *. now rewrite He, Hr.
  - apply performMultiStageRetrieval_inv in Hr as (fused & scored & Hf & Hs & ->).
    unfold Enhanced.fusedCandidates in Hf.
    destruct (Enhanced.enhancedKeywordSearch query _) as [found | |] eqn:Ek;
      cbn [bind] in Hf; try discriminate.
    return_inj Hf. subst fused.
    destruct (semanticStage_ranked (Enhanced.topicFilter (Enhanced.enhancedChunks st') query)
                (getEmbedding env query)) as (semantic & Esem & Hsem).
    destruct (enhancedKeywordSearch_ranked query _ _ Ek) as (keyword & -> & Hkey).
    rewrite Esem, uniqueCandidates_firstOfEachId in Hs.
    exists semantic, keyword, scored, (Array_sort Enhanced.byRelevance scored).
    refine (conj Hsem (conj Hkey _)). cbv zeta.
    destruct (scoreCandidates_spec _ _ _ _ Hs) as [Hmap Hall].
    refine (conj Hs (conj Hmap (conj Hall (conj _ eq_refl)))).
    split.
    + apply (Descending_neighbours RetrievalResult.relevanceScore 0.3).
      * apply Forall_forall. intros r Hr. apply In_Array_sort in Hr.
        rewrite Forall_forall in Hall. now destruct (Hall r Hr) as (_ & Hgt & _).
      * pose proof (Sorted_Array_sort Enhanced.byRelevance
                      (fun x y => sub_positive_asym _ _) scored) as Hsorted.
        induction Hsorted as [| a l _ IH Hd]; constructor; [exact IH |].
        destruct Hd as [| b l Hab]; constructor.
        destruct (RetrievalResult.relevanceScore a <? RetrievalResult.relevanceScore b)%float
          eqn:E; [| reflexivity].
        apply lt_sub_positive in E. unfold Enhanced.byRelevance in Hab. congruence.
    + intros v. apply filter_Array_sort. intros x y. apply byRelevance_tied.
Qed.

Lemma rankedResults_returned :
  snd (Enhanced.enhancedRetrieval rankedEnv emptyState "raise money")
  = Some (Return rankedResults).
Proof. vm_compute. reflexivity. Qed.

(** The sample process with embeddings: asked "raise money" again, it
    returns the same four results and stays as it was; the results are the
    first five of the ranking of the scored candidates, which come from the
    two ranked stages. *)
Lemma retrieval_reproducible_ties_in_fusion_order_witness :
  Enhanced.enhancedRetrieval rankedEnv rankedState "raise money"
  = (rankedState, Some (Return rankedResults)) /\
  exists semantic keyword scored ranked,
    Ranks (semanticSignal (getEmbedding rankedEnv "raise money"))
          (semanticPool (getEmbedding rankedEnv "raise money")
             (Enhanced.topicFilter rankedCorpus "raise money")) semantic /\
    Ranks (keywordSignal "raise money")
          (keywordPool "raise money" (Enhanced.topicFilter rankedCorpus "raise money"))
          keyword /\
    map RetrievalResult.chunk scored
    = filter (keeps "raise money" (getEmbedding rankedEnv "raise money"))
        (firstOfEachId [] (firstn 10 semantic ++ firstn 8 keyword)) /\
    Ranks RetrievalResult.relevanceScore scored ranked /\
    rankedResults = firstn 5 ranked.
Proof.
  destruct (retrieval_reproducible_ties_in_fusion_order rankedEnv emptyState "raise money"
              rankedResults rankedResults_returned) as [Hagain Horder].
  split.
  - exact (Hagain rankedEnv eq_refl).
  - destruct Horder as (semantic & keyword & scored & ranked & Hs & Hk & _ & Hm & _ & Hr & E).
    exists semantic, keyword, scored, ranked.
    exact (conj Hs (conj Hk (conj Hm (conj Hr E)))).
Defined.

(** The same run in numbers: the semantic stage hands over the second
    paragraph (similarity 1) before the first (0.6), the keyword stage the
    fourth, the third and the second; fused, the order is second, first,
    fourth, third, and the four results come in that order, the last two
    with one composite score. *)
Example ranked_fusion_order :
  map EnhancedChunk.index
      (Enhanced.semanticStage (Enhanced.topicFilter rankedCorpus "raise money")
         (getEmbedding rankedEnv "raise money")) = [1; 0] /\
  map EnhancedChunk.index
      (returned (Enhanced.enhancedKeywordSearch "raise money"
                   (Enhanced.topicFilter rankedCorpus "raise money"))) = [3; 2; 1] /\
  map (fun r => EnhancedChunk.index (RetrievalResult.chunk r)) rankedResults = [1; 0; 3; 2] /\
  match rankedResults with
  | [_; _; r3; r4] => RetrievalResult.relevanceScore r3 = RetrievalResult.relevanceScore r4
  | _ => False
  end.
Proof. vm_compute. repeat split. Qed.

Lemma rankedCorpus_retrieval :
  Enhanced.performMultiStageRetrieval rankedEnv rankedCorpus "raise money"
  = Return rankedResults.
Proof. vm_compute. reflexivity. Qed.

(** C3 as stated fails: over the embedded sample corpus, with the semantic
    stage admitting the first two paragraphs, retrieval for "raise money"
    returns the fourth paragraph before the third, both with composite score
    0.3375. *)
Lemma ties_not_in_corpus_order :
  ~ (forall env corpus query results,
       Enhanced.performMultiStageRetrieval env corpus query = Return results ->
       TiesInCorpusOrder corpus results).
Proof.
  intros H.
  specialize (H rankedEnv rankedCorpus "raise money" rankedResults rankedCorpus_retrieval).
  assert (E : exists r1 r2 r3 r4,
             rankedResults = [r1; r2; r3; r4] /\
             RetrievalResult.relevanceScore r3 = RetrievalResult.relevanceScore r4 /\
             EnhancedChunk.index (RetrievalResult.chunk r3) = 3 /\
             EnhancedChunk.index (RetrievalResult.chunk r4) = 2)
    by (vm_compute; do 4 eexists; repeat split).
  destruct E as (r1 & r2 & r3 & r4 & Er & Es & I3 & I4).
  assert (Hb : Before rankedResults r3 r4) by (exists [r1; r2], [], []; exact Er).
  specialize (H r3 r4 Hb Es).
  apply Before_index in H; [| vm_compute; reflexivity].
  rewrite I3, I4 in H. lia.
Qed.

(* ================================================================== *)
(** * Case folding *)
(* ================================================================== *)

Section CaseFolding.

Lemma lower_char_idempotent (c : ascii) : JS.lower_char (JS.lower_char c) = JS.lower_char c.
Proof. destruct c as [[] [] [] [] [] [] [] []]; vm_compute; reflexivity. Qed.

Lemma canonicalize_lower_char (c : ascii) :
  JS.canonicalize (JS.lower_char c) = JS.canonicalize c.
Proof. destruct c as [[] [] [] [] [] [] [] []]; vm_compute; reflexivity. Qed.

Lemma is_line_terminator_lower_char (c : ascii) :
  JS.is_line_terminator (JS.lower_char c) = JS.is_line_terminator c.
Proof. destruct c as [[] [] [] [] [] [] [] []]; vm_compute; reflexivity. Qed.

Lemma toLowerCase_idempotent (s : string) :
  JS.toLowerCase (JS.toLowerCase s) = JS.toLowerCase s.
Proof.
  induction s as [| c s IH]; cbn [JS.toLowerCase]; [reflexivity |].
  now rewrite lower_char_idempotent, IH.
Qed.

Lemma toLowerCase_length (s : string) : String.length (JS.toLowerCase s) = String.length s.
Proof. induction s as [| c s IH]; cbn; [reflexivity | now rewrite IH]. Qed.

Lemma toLowerCase_drop (n : nat) (s : string) :
  JS.drop n (JS.toLowerCase s) = JS.toLowerCase (JS.drop n s).
Proof.
  revert s. induction n as [| n IH]; intros [| c s]; cbn [JS.drop JS.toLowerCase];
    try reflexivity. apply IH.
Qed.

(** With the [i] flag a pattern character, a class and the dot accept a code
    unit exactly when they accept its lower-case form. *)
Lemma char_matches_lower (a c : ascii) :
  RegExp.char_matches true a (JS.lower_char c) = RegExp.char_matches true a c.
Proof. unfold RegExp.char_matches. now rewrite canonicalize_lower_char. Qed.

Lemma class_matches_lower (items : list RegExp.class_item) (c : ascii) :
  RegExp.class_matches true items (JS.lower_char c) = RegExp.class_matches true items c.
Proof. unfold RegExp.class_matches. now rewrite canonicalize_lower_char. Qed.

Lemma step_char_lower (p p' : ascii -> bool) (x : RegExp.mstate) (k k' : RegExp.cont) :
  (forall c, p' (JS.lower_char c) = p c) ->
  FoldsCase k k' ->
  RegExp.step_char p' (lowerState x) k' = option_map lowerState (RegExp.step_char p x k).
Proof.
  intros Hp Hk. unfold RegExp.step_char. cbn [lowerState RegExp.rest RegExp.pos RegExp.caps].
  destruct (RegExp.rest x) as [| c s]; cbn [JS.toLowerCase]; [reflexivity |].
  rewrite Hp. destruct (p c); [| reflexivity]. apply (Hk (RegExp.MState _ s _)).
Qed.

Lemma repeat_matcher_lower (body body' : RegExp.mstate -> RegExp.cont -> option RegExp.mstate) :
  (forall x k k', FoldsCase k k' ->
                  body' (lowerState x) k' = option_map lowerState (body x k)) ->
  forall fuel min max greedy x k k',
    FoldsCase k k' ->
    RegExp.repeat_matcher fuel body' min max greedy (lowerState x) k'
    = option_map lowerState (RegExp.repeat_matcher fuel body min max greedy x k).
Proof.
  intros Hb. induction fuel as [| fuel IH]; intros min max greedy x k k' Hk;
    cbn [RegExp.repeat_matcher]; [reflexivity |].
  assert (Hd : FoldsCase
                 (fun y => if (min =? 0) && (RegExp.pos y =? RegExp.pos x) then None
                           else RegExp.repeat_matcher fuel body (Nat.pred min)
                                  (option_map Nat.pred max) greedy y k)
                 (fun y => if (min =? 0) && (RegExp.pos y =? RegExp.pos (lowerState x)) then None
                           else RegExp.repeat_matcher fuel body' (Nat.pred min)
                                  (option_map Nat.pred max) greedy y k')).
  { intros y. cbn [lowerState RegExp.pos].
    destruct ((min =? 0) && (RegExp.pos y =? RegExp.pos x)); [reflexivity |].
    now apply IH. }
  destruct max as [[| m] |]; try apply Hk;
    (destruct (negb (min =? 0)); [now apply Hb |]);
    (destruct greedy;
     [ rewrite (Hb x _ _ Hd); match goal with |- context [body x ?d] => destruct (body x d) end;
       [reflexivity | apply Hk]
     | rewrite (Hk x); destruct (k x); [reflexivity | now apply Hb] ]).
Qed.

(** The matcher with the [i] flag does on the lower-cased input what it does
    on the input. *)
Lemma matcher_lower (r : RegExp.regex) :
  forall x k k',
    FoldsCase k k' ->
    RegExp.matcher true r (lowerState x) k' = option_map lowerState (RegExp.matcher true r x k).
Proof.
  induction r as [| a | | items | r1 IH1 r2 IH2 | r1 IH1 r2 IH2 | r1 IH1 min max greedy
                  | n r1 IH1 | r1 IH1 | |]; intros x k k' Hk; cbn [RegExp.matcher].
  - apply Hk.
  - apply step_char_lower; [apply char_matches_lower | assumption].
  - apply step_char_lower; [| assumption].
    intros c. now rewrite is_line_terminator_lower_char.
  - apply step_char_lower; [apply class_matches_lower | assumption].
  - apply IH1. intros y. now apply IH2.
  - rewrite (IH1 x k k' Hk). destruct (RegExp.matcher true r1 x k); [reflexivity |].
    now apply IH2.
  - cbn [lowerState RegExp.rest]. rewrite toLowerCase_length.
    now apply repeat_matcher_lower.
  - apply IH1. intros y. cbn [lowerState RegExp.pos RegExp.rest RegExp.caps].
    apply (Hk (RegExp.MState (RegExp.pos y) (RegExp.rest y) _)).
  - rewrite (IH1 x (fun y => Some y) (fun y => Some y)) by (intros y; reflexivity).
    destruct (RegExp.matcher true r1 x (fun y => Some y)) as [y |]; [| reflexivity].
    cbn [option_map lowerState RegExp.pos RegExp.rest RegExp.caps].
    apply (Hk (RegExp.MState (RegExp.pos x) (RegExp.rest x) (RegExp.caps y))).
  - cbn [lowerState RegExp.pos]. destruct (RegExp.pos x =? 0); [apply Hk | reflexivity].
  - destruct x as [p [| c s] cs]; cbn [lowerState RegExp.rest JS.toLowerCase]; [| reflexivity].
    apply (Hk (RegExp.MState p EmptyString cs)).
Qed.

Lemma match_at_lower (r : RegExp.regex) (s : string) (i : nat) :
  RegExp.match_at true r (JS.toLowerCase s) i
  = option_map lowerState (RegExp.match_at true r s i).
Proof.
  unfold RegExp.match_at. rewrite toLowerCase_length, toLowerCase_drop.
  destruct (i <=? String.length s); [| reflexivity].
  apply (matcher_lower r (RegExp.MState i (JS.drop i s) [])). intros y. reflexivity.
Qed.

Lemma exec_from_lower (r : RegExp.regex) (s : string) (fuel : nat) :
  forall i,
    RegExp.exec_from true fuel r (JS.toLowerCase s) i
    = option_map (fun m => (fst m, lowerState (snd m))) (RegExp.exec_from true fuel r s i).
Proof.
  induction fuel as [| fuel IH]; intros i; cbn [RegExp.exec_from]; [reflexivity |].
  rewrite match_at_lower. destruct (RegExp.match_at true r s i); [reflexivity | apply IH].
Qed.

(** A case-insensitive test does not see the case of the text. *)
Lemma test_lower (r : RegExp.regex) (s : string) :
  RegExp.test true r (JS.toLowerCase s) = RegExp.test true r s.
Proof.
  unfold RegExp.test, RegExp.exec. rewrite toLowerCase_length, exec_from_lower.
  now destruct (RegExp.exec_from true _ r s 0).
Qed.

Lemma extractTopics_lower (text : string) :
  Enhanced.extractTopics (JS.toLowerCase text) = Enhanced.extractTopics text.
Proof.
  unfold Enhanced.extractTopics. f_equal. apply filter_ext. intros entry. apply test_lower.
Qed.

End CaseFolding.

(** X8, for queries and texts of code units 0..255 (the strings of this
    development; beyond them [toLowerCase] can change the length of a text):
    the lexical scorers of both files read the query and the text only
    through their lower-case forms (and the text's length): two queries and
    two texts that differ in case only get the same score, or both throw. *)
Theorem lexical_scores_ignore_case (query query' text text' : string) :
  JS.toLowerCase query = JS.toLowerCase query' ->
  JS.toLowerCase text = JS.toLowerCase text' ->
  Enhanced.calculateKeywordRelevance query text
  = Enhanced.calculateKeywordRelevance query' text' /\
  Simple.calculateContentRelevance query text
  = Simple.calculateContentRelevance query' text'.
Proof.
  intros Hq Ht.
  assert (Hl : String.length text = String.length text')
    by (rewrite <- (toLowerCase_length text), Ht; apply toLowerCase_length).
  unfold Enhanced.calculateKeywordRelevance, Simple.calculateContentRelevance,
    Lexical.queryWords.
  rewrite Hq, Ht, Hl. split; reflexivity.
Qed.

Lemma lexical_scores_ignore_case_witness :
  Enhanced.calculateKeywordRelevance "Raise MONEY" (JS.toLowerCase sampleParagraph1)
  = Enhanced.calculateKeywordRelevance "raise money" sampleParagraph1.
Proof.
  apply (lexical_scores_ignore_case "Raise MONEY" "raise money"
           (JS.toLowerCase sampleParagraph1) sampleParagraph1).
  - vm_compute. reflexivity.
  - apply toLowerCase_idempotent.
Defined.

(** X9, for texts of code units 0..255 (the strings of this development;
    beyond them the case-insensitive matcher has pairs that [toLowerCase]
    does not follow, as U+212A and k): topic tagging does not see the case of
    the text: texts with the same lower-case form get the same topics. *)
Theorem extractTopics_ignores_case (text text' : string) :
  JS.toLowerCase text = JS.toLowerCase text' ->
  Enhanced.extractTopics text = Enhanced.extractTopics text'.
Proof.
  intros H. rewrite <- (extractTopics_lower text), <- (extractTopics_lower text').
  now rewrite H.
Qed.

Lemma extractTopics_ignores_case_witness :
  Enhanced.extractTopics "Our STARTUP raised Funding" =
  Enhanced.extractTopics "our startup raised funding".
Proof.
  apply (extractTopics_ignores_case "Our STARTUP raised Funding" "our startup raised funding").
  vm_compute. reflexivity.
Defined.

(* ================================================================== *)
(** * What initialisation leaves *)
(* ================================================================== *)

Section StringLengths.

Lemma take_length (n : nat) (s : string) : String.length (JS.take n s) <= n.
Proof.
  revert s. induction n as [| n IH]; intros [| c s]; cbn; try lia. specialize (IH s). lia.
Qed.

Lemma take_length_min (n : nat) (s : string) :
  String.length (JS.take n s) = Nat.min n (String.length s).
Proof.
  revert s. induction n as [| n IH]; intros [| c s]; cbn; try lia. now rewrite IH.
Qed.

Lemma take_all (n : nat) (s : string) : String.length s <= n -> JS.take n s = s.
Proof.
  revert s. induction n as [| n IH]; intros [| c s]; cbn; intros H; try reflexivity; try lia.
  now rewrite IH by lia.
Qed.

Lemma trimStart_length (s : string) : String.length (JS.trimStart s) <= String.length s.
Proof.
  induction s as [| c s IH]; cbn [JS.trimStart]; [lia |].
  destruct (JS.is_space c); cbn [String.length] in *; lia.
Qed.

Lemma trimEnd_length (s : string) : String.length (JS.trimEnd s) <= String.length s.
Proof.
  induction s as [| c s IH]; cbn [JS.trimEnd]; [lia |].
  destruct (JS.trimEnd s); [destruct (JS.is_space c) |]; cbn [String.length] in *; lia.
Qed.

Lemma trim_length (s : string) : String.length (JS.trim s) <= String.length s.
Proof.
  unfold JS.trim. pose proof (trimEnd_length (JS.trimStart s)).
  pose proof (trimStart_length s). lia.
Qed.

Lemma slice_length (s : string) (from to : nat) :
  String.length (JS.slice s from to) <= to - from.
Proof. apply take_length. Qed.

End StringLengths.

Section Loading.

Variable env : Env.

Lemma fixedWidthLoop_fresh (content episode : string) (fuel : nat) :
  forall i chunkIndex,
    Forall (fun c => String.length (Chunk.text c) <= 500 /\ Chunk.embedding c = None /\
                     Chunk.episode c = episode)
           (Original.fixedWidthLoop fuel content episode i chunkIndex).
Proof.
  induction fuel as [| fuel IH]; intros i chunkIndex; cbn [Original.fixedWidthLoop];
    [constructor |].
  destruct (i <? String.length content); [| constructor].
  destruct (50 <? String.length (JS.trim (JS.slice content i (i + 500)))); [| apply IH].
  constructor; [| apply IH]. cbn. repeat apply conj; try reflexivity.
  pose proof (trim_length (JS.slice content i (i + 500))).
  pose proof (slice_length content i (i + 500)). lia.
Qed.

Lemma fixedWidthChunks_fresh (files : list string) (filename content : string) :
  In filename files -> JS.endsWith filename ".txt" = true ->
  Forall (FreshChunk files)
         (Original.fixedWidthChunks content (JS.remove_first filename ".txt")).
Proof.
  intros Hin Hext. unfold Original.fixedWidthChunks.
  pose proof (fixedWidthLoop_spec content (JS.remove_first filename ".txt")
                (String.length content) 0 0) as [Hmin _].
  pose proof (fixedWidthLoop_fresh content (JS.remove_first filename ".txt")
                (String.length content) 0 0) as Hmax.
  rewrite Forall_forall in *. intros c Hc.
  specialize (Hmin c Hc). destruct (Hmax c Hc) as (Hlen & Hemb & Hep).
  unfold FreshChunk. repeat apply conj; try assumption; try lia.
  exists filename. auto.
Qed.

(** The loop over the files appends chunks and counts what it appends. *)
Lemma fold_loadFile (all : list string) (files : list string) :
  (forall f, In f files -> In f all /\ JS.endsWith f ".txt" = true) ->
  forall chunks total,
    exists created,
      fold_left (Original.loadFile env) files (chunks, total)
      = (chunks ++ created, total + List.length created) /\
      Forall (FreshChunk all) created.
Proof.
  induction files as [| f files IH]; intros Hfiles chunks total; cbn [fold_left].
  - exists []. rewrite app_nil_r, Nat.add_0_r. split; [reflexivity | constructor].
  - assert (Hrest : forall g, In g files -> In g all /\ JS.endsWith g ".txt" = true)
      by (intros g Hg; apply Hfiles; now right).
    destruct (Hfiles f (or_introl eq_refl)) as [Hin Hext].
    unfold Original.loadFile at 2.
    destruct (readFile env f) as [content |]; [| now apply IH].
    destruct (String.length (JS.trim content) <? 100); [now apply IH |].
    destruct (IH Hrest (chunks ++ Original.fixedWidthChunks content (JS.remove_first f ".txt"))
                (total + List.length (Original.fixedWidthChunks content
                                        (JS.remove_first f ".txt"))))
      as (created & E & Hall).
    exists (Original.fixedWidthChunks content (JS.remove_first f ".txt") ++ created).
    rewrite E, <- app_assoc, length_app, Nat.add_assoc. split; [reflexivity |].
    apply Forall_app. split; [now apply fixedWidthChunks_fresh | assumption].
Qed.

(** The bulk pass gives back the chunks it was given, in order, some of them
    with the embedding of their text. *)
Lemma embedLoop_EmbeddedFrom (chunksToEmbed : list Chunk.t) :
  forall i embeddedCount consecutiveFailures,
    Forall2 (EmbeddedFrom env) chunksToEmbed
      (fst (fst (Original.embedLoop (fun _ => getEmbedding env) i chunksToEmbed
                   embeddedCount consecutiveFailures))).
Proof.
  assert (Hrefl : forall l, Forall2 (EmbeddedFrom env) l l)
    by (induction l; constructor; [now left | assumption]).
  induction chunksToEmbed as [| chunk rest IH]; intros i n f; cbn [Original.embedLoop];
    [constructor |].
  destruct (getEmbedding env (Chunk.text chunk)) as [e |] eqn:Ee.
  - specialize (IH (S i) (S n) 0).
    destruct (Original.embedLoop _ (S i) rest (S n) 0) as [[done n'] f'].
    cbn [fst] in *. constructor; [| assumption]. right. now exists e.
  - destruct (5 <=? S f); [apply Hrefl |].
    specialize (IH (S i) n (S f)).
    destruct (Original.embedLoop _ (S i) rest n (S f)) as [[done n'] f'].
    cbn [fst] in *. constructor; [now left | assumption].
Qed.

Lemma Forall2_length_eq {A B : Type} (R : A -> B -> Prop) (l : list A) (l' : list B) :
  Forall2 R l l' -> List.length l = List.length l'.
Proof. induction 1; cbn; congruence. Qed.

Lemma Forall2_Forall_r {A B : Type} (R : A -> B -> Prop) (P : A -> Prop) (Q : B -> Prop)
    (l : list A) (l' : list B) :
  (forall a b, R a b -> P a -> Q b) -> Forall2 R l l' -> Forall P l -> Forall Q l'.
Proof.
  intros H. induction 1 as [| a b l l' Hab _ IH]; intros Hl; constructor;
    inversion Hl; subst; eauto.
Qed.

Lemma Forall_firstn {A : Type} (P : A -> Prop) (n : nat) (l : list A) :
  Forall P l -> Forall P (firstn n l).
Proof.
  intros H. apply Forall_forall. intros x Hx. apply In_firstn in Hx.
  rewrite Forall_forall in H. auto.
Qed.

Lemma Forall_skipn {A : Type} (P : A -> Prop) (n : nat) (l : list A) :
  Forall P l -> Forall P (skipn n l).
Proof.
  revert l. induction n as [| n IH]; intros [| x l] H; cbn [skipn]; try assumption.
  inversion H; subst. now apply IH.
Qed.

Lemma FreshChunk_EmbeddedFrom (files : list string) (c d : Chunk.t) :
  EmbeddedFrom env c d -> FreshChunk files c -> CorpusChunk env files d.
Proof.
  intros [-> | (e & He & ->)] (Hlen & Hemb & Hfile); unfold CorpusChunk;
    (split; [exact Hlen | split; [exact Hfile |]]).
  - intros e He. congruence.
  - cbn. intros e' He'. injection He' as <-. exact He.
Qed.

End Loading.

(** X10: a run of [initialize] on a process that is neither ready nor failed
    ends in one of two ways: ready, with the error still unset and at least
    one chunk added; or not ready, with an error recorded and the chunks as
    they were. *)
Theorem initialize_outcome (env : Env) (st : Original.State) :
  Original.isReady st = false ->
  truthy (Original.initError st) = false ->
  let st' := Original.initialize env st in
  (Original.isReady st' = true /\
   Original.initError st' = Original.initError st /\
   List.length (Original.chunks st) < List.length (Original.chunks st'))
  \/
  (Original.isReady st' = false /\
   truthy (Original.initError st') = true /\
   Original.chunks st' = Original.chunks st).
Proof.
  intros Hr He. cbv zeta. unfold Original.initialize. rewrite Hr, He. cbn [orb].
  destruct (readdir env) as [files |]; [| right; cbn; auto].
  destruct (List.length (filter _ files) =? 0); [right; cbn; auto |].
  destruct (fold_loadFile env files (filter (fun f => JS.endsWith f ".txt") files)
              ltac:(intros f Hf; apply filter_In in Hf; exact Hf)
              (Original.chunks st) 0) as (created & -> & _).
  cbn [Nat.add]. destruct (List.length created =? 0) eqn:Ec.
  - right. cbn. apply Nat.eqb_eq in Ec. destruct created; [| discriminate].
    rewrite app_nil_r. auto.
  - left. apply Nat.eqb_neq in Ec.
    pose proof (embedLoop_EmbeddedFrom env (firstn 50 (Original.chunks st ++ created)) 0 0 0)
      as Hemb.
    destruct (Original.embedLoop _ 0 _ 0 0) as [[embedded n] f]. cbn [fst] in Hemb.
    cbn. repeat apply conj; try reflexivity.
    apply Forall2_length_eq in Hemb.
    rewrite length_app, <- Hemb, <- length_app, firstn_skipn, length_app. lia.
Qed.

Lemma initialize_outcome_witness :
  Original.isReady (Original.initialize lexicalEnv freshState) = true \/
  truthy (Original.initError (Original.initialize lexicalEnv freshState)) = true.
Proof.
  destruct (initialize_outcome lexicalEnv freshState eq_refl eq_refl) as [(H & _) | (_ & H & _)].
  - left. exact H.
  - right. exact H.
Defined.

(** On a process that starts without chunks, no chunk beyond the first 50
    has an embedding after [initialize]. *)
Lemma initialize_unembedded_tail (env : Env) (st : Original.State) :
  Original.isReady st = false ->
  truthy (Original.initError st) = false ->
  Original.chunks st = [] ->
  Forall (fun c => Chunk.embedding c = None)
         (skipn 50 (Original.chunks (Original.initialize env st))).
Proof.
  intros Hr He Hc. unfold Original.initialize. rewrite Hr, He, Hc. cbn [orb].
  destruct (readdir env) as [files |]; [| cbn; constructor].
  destruct (List.length (filter _ files) =? 0); [cbn; constructor |].
  destruct (fold_loadFile env files (filter (fun f => JS.endsWith f ".txt") files)
              ltac:(intros f Hf; apply filter_In in Hf; exact Hf) [] 0)
    as (created & -> & Hfresh).
  cbn [Nat.add app].
  assert (Hs : Forall (fun c => Chunk.embedding c = None) (skipn 50 created))
    by (apply Forall_skipn; eapply Forall_impl; [| exact Hfresh]; now intros c (_ & H & _)).
  destruct (List.length created =? 0); [exact Hs |].
  pose proof (embedLoop_EmbeddedFrom env (firstn 50 created) 0 0 0) as Hemb.
  destruct (Original.embedLoop _ 0 _ 0 0) as [[embedded n] f]. cbn [fst] in Hemb.
  cbn [Original.chunks].
  assert (Hlen : List.length embedded = List.length (firstn 50 created))
    by (symmetry; eapply Forall2_length_eq; exact Hemb).
  rewrite length_firstn in Hlen.
  rewrite skipn_app. apply Forall_app. split.
  - rewrite skipn_all2 by lia. constructor.
  - apply Forall_skipn. exact Hs.
Qed.

(** X11: the corpus that [initialize] builds on a fresh process: every chunk
    is a text of 51 to 500 characters filed under a [.txt] file of the
    directory; an embedding stored with a chunk is the provider's answer for
    that chunk's text; no chunk beyond the first 50 has one. *)
Theorem initialize_corpus_shape (env : Env) (st : Original.State) (files : list string) :
  Original.isReady st = false ->
  truthy (Original.initError st) = false ->
  Original.chunks st = [] ->
  readdir env = Some files ->
  let corpus := Original.chunks (Original.initialize env st) in
  Forall (CorpusChunk env files) corpus /\
  Forall (fun c => Chunk.embedding c = None) (skipn 50 corpus).
Proof.
  intros Hr He Hc Hd. cbv zeta. split; [| now apply initialize_unembedded_tail].
  unfold Original.initialize. rewrite Hr, He, Hd, Hc. cbn [orb].
  destruct (List.length (filter _ files) =? 0); [cbn; constructor |].
  destruct (fold_loadFile env files (filter (fun f => JS.endsWith f ".txt") files)
              ltac:(intros f Hf; apply filter_In in Hf; exact Hf) [] 0)
    as (created & -> & Hfresh).
  cbn [Nat.add app].
  assert (Hkept : Forall (CorpusChunk env files) created).
  { eapply Forall_impl; [| exact Hfresh].
    intros c Hc'. apply (FreshChunk_EmbeddedFrom env files c c); [now left | assumption]. }
  destruct (List.length created =? 0); [exact Hkept |].
  pose proof (embedLoop_EmbeddedFrom env (firstn 50 created) 0 0 0) as Hemb.
  destruct (Original.embedLoop _ 0 _ 0 0) as [[embedded n] f]. cbn [fst] in Hemb.
  cbn [Original.chunks]. apply Forall_app. split.
  - apply (Forall2_Forall_r _ _ _ _ _ (FreshChunk_EmbeddedFrom env files) Hemb).
    now apply Forall_firstn.
  - now apply Forall_skipn.
Qed.

Lemma initialize_corpus_shape_witness :
  Forall (CorpusChunk constantEnv ["ep1.txt"])
         (Original.chunks (Original.initialize constantEnv freshState)).
Proof.
  apply (initialize_corpus_shape constantEnv freshState ["ep1.txt"]); reflexivity.
Defined.

(* ================================================================== *)
(** * The enhanced corpus *)
(* ================================================================== *)

Section EnhancedLoading.

Variable env : Env.

(** The loop over the files only appends to the chunks it starts from. *)
Lemma loadEnhanced_app (files : list string) :
  forall acc,
    Enhanced.loadEnhanced env files acc
    = (acc ++ fst (Enhanced.loadEnhanced env files []), snd (Enhanced.loadEnhanced env files [])).
Proof.
  induction files as [| f files IH]; intros acc; cbn [Enhanced.loadEnhanced].
  - cbn. now rewrite app_nil_r.
  - destruct (readFile env f) as [content |]; [| cbn; now rewrite app_nil_r].
    rewrite (IH (acc ++ _)), (IH ([] ++ _)). cbn [fst snd app]. now rewrite app_assoc.
Qed.

Lemma EnhancedEmbeddedFrom_refl (l : list EnhancedChunk.t) :
  Forall2 (EnhancedEmbeddedFrom env) l l.
Proof. induction l; constructor; [now left | assumption]. Qed.

Lemma EnhancedEmbeddedFrom_map (l : list EnhancedChunk.t) :
  Forall2 (EnhancedEmbeddedFrom env) l
    (map (fun chunk =>
            match getEmbedding env (EnhancedChunk.text chunk) with
            | Some embedding => EnhancedChunk.set_embedding chunk embedding
            | None => chunk
            end) l).
Proof.
  induction l as [| c l IH]; cbn [map]; constructor; [| assumption].
  destruct (getEmbedding env (EnhancedChunk.text c)) as [e |] eqn:E; [| now left].
  right. now exists e.
Qed.

End EnhancedLoading.

(** X12: [initializeEnhanced] never touches the original corpus, its flag or
    the error; it does nothing once the enhanced system is ready, and a run
    that ends ready is never repeated; the chunks already in the enhanced
    corpus stay in place, the call only appending chunks and storing, with
    some of the first 30, the provider's answer for their text. *)
Theorem initializeEnhanced_effects (env : Env) (st : Enhanced.State) :
  let st' := Enhanced.initializeEnhanced env st in
  Enhanced.chunks st' = Enhanced.chunks st /\
  Enhanced.isReady st' = Enhanced.isReady st /\
  Enhanced.initError st' = Enhanced.initError st /\
  (Enhanced.isEnhancedReady st = true -> st' = st) /\
  (forall env', Enhanced.isEnhancedReady st' = true ->
                Enhanced.initializeEnhanced env' st' = st') /\
  exists added,
    Forall2 (EnhancedEmbeddedFrom env) (Enhanced.enhancedChunks st ++ added)
            (Enhanced.enhancedChunks st') /\
    skipn 30 (Enhanced.enhancedChunks st') = skipn 30 (Enhanced.enhancedChunks st ++ added).
Proof.
  cbv zeta.
  assert (Hnoop : forall env' s, Enhanced.isEnhancedReady s = true ->
                                 Enhanced.initializeEnhanced env' s = s)
    by (intros env' s H; unfold Enhanced.initializeEnhanced; now rewrite H).
  refine (conj _ (conj _ (conj _ (conj (Hnoop env st) (conj (fun env' => Hnoop env' _) _))))).
  1-3: unfold Enhanced.initializeEnhanced;
       destruct (Enhanced.isEnhancedReady st); [reflexivity |];
       destruct (readdir env) as [files |]; [| reflexivity];
       destruct (Enhanced.loadEnhanced env _ _) as [loaded []]; reflexivity.
  unfold Enhanced.initializeEnhanced.
  destruct (Enhanced.isEnhancedReady st).
  { exists []. rewrite app_nil_r. split; [apply EnhancedEmbeddedFrom_refl | reflexivity]. }
  destruct (readdir env) as [files |].
  2: { exists []. rewrite app_nil_r. split; [apply EnhancedEmbeddedFrom_refl | reflexivity]. }
  rewrite loadEnhanced_app.
  set (added := fst (Enhanced.loadEnhanced env _ [])).
  exists added. destruct (snd (Enhanced.loadEnhanced env _ [])); cbn [Enhanced.enhancedChunks].
  - split.
    + rewrite <- (firstn_skipn 30 (Enhanced.enhancedChunks st ++ added)) at 1.
      apply Forall2_app; [apply EnhancedEmbeddedFrom_map | apply EnhancedEmbeddedFrom_refl].
    + rewrite skipn_app, length_map, length_firstn.
      rewrite skipn_all2 by (rewrite length_map, length_firstn; lia).
      cbn [app]. 
      destruct (Nat.le_gt_cases 30 (List.length (Enhanced.enhancedChunks st ++ added))).
      * replace (30 - Nat.min 30 _) with 0 by lia. reflexivity.
      * rewrite !skipn_all2 by (rewrite ?length_skipn; lia). reflexivity.
  - split; [apply EnhancedEmbeddedFrom_refl | reflexivity].
Qed.

(** X13: when a transcript cannot be read, [initializeEnhanced] stops there:
    the chunks of the files before it stay appended to the enhanced corpus and
    the system stays not ready, so the next attempt appends them again. *)
Theorem initializeEnhanced_failed_attempt (env : Env) (st : Enhanced.State)
    (files : list string) :
  Enhanced.isEnhancedReady st = false ->
  readdir env = Some files ->
  let txtFiles := filter (fun f => JS.endsWith f ".txt") files in
  let before := fst (Enhanced.loadEnhanced env txtFiles []) in
  snd (Enhanced.loadEnhanced env txtFiles []) = false ->
  let st1 := Enhanced.initializeEnhanced env st in
  let st2 := Enhanced.initializeEnhanced env st1 in
  Enhanced.isEnhancedReady st1 = false /\
  Enhanced.enhancedChunks st1 = Enhanced.enhancedChunks st ++ before /\
  Enhanced.isEnhancedReady st2 = false /\
  Enhanced.enhancedChunks st2 = Enhanced.enhancedChunks st ++ before ++ before.
Proof.
  intros Hr Hd. cbv zeta. intros Hfail.
  assert (Hstep : forall s, Enhanced.isEnhancedReady s = false ->
            Enhanced.isEnhancedReady (Enhanced.initializeEnhanced env s) = false /\
            Enhanced.enhancedChunks (Enhanced.initializeEnhanced env s)
            = Enhanced.enhancedChunks s
                ++ fst (Enhanced.loadEnhanced env
                          (filter (fun f => JS.endsWith f ".txt") files) [])).
  { intros s Hs. unfold Enhanced.initializeEnhanced. rewrite Hs, Hd, loadEnhanced_app, Hfail.
    cbn. auto. }
  destruct (Hstep st Hr) as [H1 E1]. destruct (Hstep _ H1) as [H2 E2].
  rewrite E2, E1, <- app_assoc. auto.
Qed.

Lemma initializeEnhanced_failed_attempt_witness :
  map Enhanced.chunkKey
      (Enhanced.enhancedChunks
         (Enhanced.initializeEnhanced brokenEnv (Enhanced.initializeEnhanced brokenEnv emptyState)))
  = ["ep1-0"; "ep1-1"; "ep1-0"; "ep1-1"].
Proof.
  destruct (initializeEnhanced_failed_attempt brokenEnv emptyState
              ["ep1.txt"; "ep2.txt"; "notes.md"] eq_refl eq_refl)
    as (_ & _ & _ & E).
  - vm_compute. reflexivity.
  - rewrite E. vm_compute. reflexivity.
Defined.

(* ================================================================== *)
(** * Metadata of the smart chunks *)
(* ================================================================== *)

Lemma extractTopics_NoDup (text : string) : NoDup (Enhanced.extractTopics text).
Proof.
  unfold Enhanced.extractTopics. apply NoDup_map_filter.
  vm_compute. repeat (constructor; [cbn; intuition discriminate |]). constructor.
Qed.

Lemma extractTopics_incl (text : string) :
  incl (Enhanced.extractTopics text) (map fst Enhanced.topicPatterns).
Proof.
  unfold Enhanced.extractTopics. intros t Ht. apply in_map_iff in Ht as (e & <- & He).
  apply filter_In in He as [He _]. now apply in_map.
Qed.

Lemma createChunkWithMetadata_WellTagged (text episodeName : string) (index : nat)
    (context : Enhanced.Context) :
  WellTagged episodeName (Enhanced.createChunkWithMetadata text episodeName index context).
Proof.
  unfold Enhanced.createChunkWithMetadata, WellTagged.
  destruct (RegExp.exec false Enhanced.speakerPattern text 0) as [[i y] |].
  1: destruct (RegExp.capture text y 1) as [g1 |].
  1: destruct (RegExp.capture text y 2) as [g2 |].
  1: destruct (JS.includes (JS.toLowerCase g1) "nikhil" || JS.includes (JS.toLowerCase g1) "host").
  all: cbn [EnhancedChunk.episode EnhancedChunk.embedding EnhancedChunk.speaker
            EnhancedChunk.guestName EnhancedChunk.topics];
    refine (conj eq_refl (conj eq_refl (conj _ (conj (extractTopics_NoDup _)
                                                    (extractTopics_incl _)))));
    split; intros H; congruence.
Qed.

(** X14: every chunk of [createSmartChunks] is filed under the episode it
    was cut from, carries no embedding, has a guest name exactly when its
    speaker is a guest, and has topics of the table, each once. *)
Theorem smart_chunks_well_tagged (content episodeName : string) :
  Forall (WellTagged episodeName) (Enhanced.createSmartChunks content episodeName).
Proof.
  destruct (createSmartChunks_Good content episodeName) as (_ & _ & H).
  fold (Enhanced.createSmartChunks content episodeName) in H.
  eapply Forall_impl; [| exact H].
  intros c (raw & context & -> & _). apply createChunkWithMetadata_WellTagged.
Qed.

Section AvailableTopics.

Lemma fold_addTopic_In (topics : list string) :
  forall seen t, In t (fold_left addTopic topics seen) <-> In t seen \/ In t topics.
Proof.
  induction topics as [| u topics IH]; intros seen t; cbn [fold_left In]; [tauto |].
  rewrite IH. unfold addTopic. destruct (includes_str seen u) eqn:E.
  - apply includes_str_In in E. split; [tauto |]. intros [H | [<- | H]]; auto.
  - rewrite in_app_iff. cbn [In]. tauto.
Qed.

Lemma fold_addTopic_NoDup (topics : list string) :
  forall seen, NoDup seen -> NoDup (fold_left addTopic topics seen).
Proof.
  induction topics as [| u topics IH]; intros seen H; cbn [fold_left]; [assumption |].
  apply IH. unfold addTopic. destruct (includes_str seen u) eqn:E; [assumption |].
  apply NoDup_app; [assumption | repeat constructor; intros [] |].
  intros x Hx [<- | []]. apply includes_str_In in Hx. congruence.
Qed.

End AvailableTopics.

(** X15: [getAvailableTopics] lists at most ten topics, none twice, each the
    topic of some chunk of the enhanced corpus; when the topics of the corpus
    all come from the topic table, as those of the smart chunker do, it
    lists every topic of every chunk. *)
Theorem getAvailableTopics_spec (st : Enhanced.State) :
  let listed := Enhanced.getAvailableTopics st in
  List.length listed <= 10 /\
  NoDup listed /\
  (forall t, In t listed ->
             exists c, In c (Enhanced.enhancedChunks st) /\ In t (EnhancedChunk.topics c)) /\
  ((forall c, In c (Enhanced.enhancedChunks st) ->
              incl (EnhancedChunk.topics c) (map fst Enhanced.topicPatterns)) ->
   forall c t, In c (Enhanced.enhancedChunks st) -> In t (EnhancedChunk.topics c) ->
               In t listed).
Proof.
  cbv zeta. unfold Enhanced.getAvailableTopics.
  change (fun seen topic => if includes_str seen topic then seen else seen ++ [topic])
    with addTopic.
  set (all := flat_map EnhancedChunk.topics (Enhanced.enhancedChunks st)).
  assert (Hnd : NoDup (fold_left addTopic all [])) by (apply fold_addTopic_NoDup; constructor).
  assert (Hin : forall t, In t (fold_left addTopic all []) <->
                          exists c, In c (Enhanced.enhancedChunks st)
                                    /\ In t (EnhancedChunk.topics c)).
  { intros t. rewrite fold_addTopic_In. unfold all. rewrite in_flat_map. cbn [In]. tauto. }
  repeat apply conj.
  - apply length_firstn_le.
  - rewrite <- (firstn_skipn 10 (fold_left addTopic all [])) in Hnd.
    now apply NoDup_app_remove_r in Hnd.
  - intros t Ht. apply In_firstn in Ht. now apply Hin.
  - intros Htable c t Hc Ht.
    assert (Hlen : List.length (fold_left addTopic all []) <= 10).
    { change 10 with (List.length (map fst Enhanced.topicPatterns)).
      apply NoDup_incl_length; [exact Hnd |].
      intros u Hu. apply Hin in Hu as (c' & Hc' & Hu). now apply (Htable c'). }
    rewrite firstn_all2 by exact Hlen. apply Hin. now exists c.
Qed.

(* ================================================================== *)
(** * Retrieval of the original system *)
(* ================================================================== *)

Section TopOfSorted.

Context {A B : Type}.
Variable cmp : A * B -> A * B -> float.
Variable keep : A * B -> bool.

(** What the chain [filter], [sort], [slice(0, n)], [map] selects. *)
Lemma top_selected (n : nat) (scored : list (A * B)) (x : A) :
  In x (map fst (firstn n (Array_sort cmp (filter keep scored)))) ->
  exists s, In (x, s) scored /\ keep (x, s) = true.
Proof.
  intros H. apply in_map_iff in H as ([x' s] & <- & H).
  apply In_firstn, In_Array_sort, filter_In in H. now exists s.
Qed.

Lemma top_length (n : nat) (scored : list (A * B)) :
  List.length (map fst (firstn n (Array_sort cmp (filter keep scored)))) <= n.
Proof. rewrite length_map. apply length_firstn_le. Qed.

End TopOfSorted.

Lemma Array_sort_nonempty {A : Type} (cmp : A -> A -> float) (l : list A) :
  l <> [] -> Array_sort cmp l <> [].
Proof.
  destruct l as [| x l]; [congruence |]. intros _ E.
  assert (H : In x (Array_sort cmp (x :: l))) by (apply In_Array_sort; now left).
  rewrite E in H. destruct H.
Qed.

Lemma keywordScore_chunk (query : string) (queryWords : list string) (chunk c : Chunk.t)
    (s : float) :
  Enhanced.keywordScore query queryWords chunk = Return (c, s) -> c = chunk.
Proof.
  unfold Enhanced.keywordScore. intros H.
  match type of H with (x <- ?m ;; _) = _ => destruct m as [[score n] | |] end;
    cbn [bind] in H; try discriminate.
  now injection H as <- _.
Qed.

Lemma Enhanced_searchByKeywordsEnhanced_spec (chunks found : list Chunk.t) (query : string) :
  Enhanced.searchByKeywordsEnhanced chunks query = Return found ->
  List.length found <= 3 /\ incl found chunks /\
  (Lexical.queryWords query = [] -> found = []).
Proof.
  unfold Enhanced.searchByKeywordsEnhanced. intros H.
  destruct (Lexical.queryWords query) as [| w ws] eqn:Ew.
  - cbn in H. injection H as <-.
    repeat apply conj; [cbn; lia | intros c [] | reflexivity].
  - cbn [List.length Nat.eqb] in H.
    match type of H with (x <- ?m ;; _) = _ => destruct m as [scored | |] eqn:E end;
      cbn [bind] in H; try discriminate.
    return_inj H. subst found. repeat apply conj; [apply top_length | | discriminate].
    intros c Hc. apply top_selected in Hc as (s & Hc & _).
    apply mapM_Forall2 in E. destruct (Forall2_In_r _ _ _ _ E Hc) as (c' & Hc' & Hk).
    apply keywordScore_chunk in Hk. now subst.
Qed.

(** X16: [findRelevantChunks] of [lib/ai.ts] leaves the state that
    [initialize] leaves; what it returns are at most three chunks of the
    corpus, and none when the system is not ready. *)
Theorem Enhanced_findRelevantChunks_spec (env : Env) (st : Enhanced.State) (query : string)
    (found : list Chunk.t) :
  snd (Enhanced.findRelevantChunks env st query) = Return found ->
  let st' := Enhanced.initialize env st in
  fst (Enhanced.findRelevantChunks env st query) = st' /\
  List.length found <= 3 /\
  incl found (Enhanced.chunks st') /\
  (Enhanced.isReady st' = false -> found = []).
Proof.
  cbv zeta. unfold Enhanced.findRelevantChunks.
  set (st' := Enhanced.initialize env st).
  destruct (Enhanced.isReady st') eqn:Er; cbn [negb].
  2: { cbn. intros H. injection H as <-.
       repeat apply conj; [reflexivity | cbn; lia | intros c [] | reflexivity]. }
  assert (Hfb : forall found',
             Enhanced.searchByKeywordsEnhanced (Enhanced.chunks st') query = Return found' ->
             List.length found' <= 3 /\ incl found' (Enhanced.chunks st') /\
             (true = false -> found' = []))
    by (intros found' H; apply Enhanced_searchByKeywordsEnhanced_spec in H as (H1 & H2 & _);
        repeat apply conj; [assumption | assumption | discriminate]).
  destruct (getEmbedding env query) as [q |]; [| cbn; intros H; split; [reflexivity | auto]].
  destruct (0 <? List.length (filter _ (Enhanced.chunks st')));
    [| cbn; intros H; split; [reflexivity | auto]].
  match goal with |- context [0 <? List.length ?l] => destruct (0 <? List.length l) end;
    [| cbn; intros H; split; [reflexivity | auto]].
  cbn [fst snd]. intros H. return_inj H. subst found.
  repeat apply conj; [reflexivity | apply top_length | | discriminate].
  intros c Hc. apply top_selected in Hc as (s & Hc & _).
  apply in_map_iff in Hc as (c' & E & Hc). injection E as -> _.
  now apply filter_In in Hc.
Qed.

Lemma Enhanced_findRelevantChunks_spec_witness :
  List.length sampleFound <= 3 /\ incl sampleFound (Enhanced.chunks (Enhanced.initialize lexicalEnv emptyState)).
Proof.
  assert (H : snd (Enhanced.findRelevantChunks lexicalEnv emptyState "raise money")
              = Return sampleFound) by (vm_compute; reflexivity).
  destruct (Enhanced_findRelevantChunks_spec lexicalEnv emptyState "raise money" sampleFound H)
    as (_ & Hlen & Hincl & _).
  split; [exact Hlen | exact Hincl].
Defined.

(** X17: when the query has an embedding and some chunk of the ready corpus
    matches it semantically, [findRelevantChunks] of [lib/ai.ts] returns
    semantic matches only and never reaches the keyword search: it returns
    whatever the tokens of the query are. *)
Theorem Enhanced_findRelevantChunks_semantic_first (env : Env) (st : Enhanced.State)
    (query : string) (q : vector) (c : Chunk.t) :
  let st' := Enhanced.initialize env st in
  Enhanced.isReady st' = true ->
  getEmbedding env query = Some q ->
  In c (Enhanced.chunks st') ->
  SemanticMatch q c ->
  exists found,
    snd (Enhanced.findRelevantChunks env st query) = Return found /\
    found <> [] /\
    Forall (SemanticMatch q) found.
Proof.
  cbv zeta. intros Hr Hq Hc (e & He & Hs). unfold Enhanced.findRelevantChunks.
  cbv zeta. rewrite Hr, Hq. cbn [negb].
  match goal with
  | |- context [0 <? List.length (filter (has_embedding ?f) ?l)] =>
      assert (Hw : In c (filter (has_embedding f) l))
        by (apply filter_In; split; [assumption | unfold has_embedding; now rewrite He]);
      assert (E1 : (0 <? List.length (filter (has_embedding f) l)) = true)
        by (destruct (filter (has_embedding f) l); [destruct Hw | reflexivity])
  end.
  rewrite E1.
  match goal with
  | |- context [0 <? List.length (firstn 3 (Array_sort ?cmp ?scored))] =>
      assert (Hin : In (c, Enhanced.similarity (Some q) (Chunk.embedding c)) scored)
        by (apply filter_In; split;
            [apply in_map_iff; now exists c | cbn [snd]; now rewrite He]);
      assert (E2 : (0 <? List.length (firstn 3 (Array_sort cmp scored))) = true)
  end.
  { match goal with |- (0 <? List.length (firstn 3 (Array_sort ?cmp ?scored))) = true =>
      pose proof (Array_sort_nonempty cmp scored) as Hs';
      destruct (Array_sort cmp scored) end;
      [| reflexivity].
    exfalso. apply Hs'; [| reflexivity]. intros E. rewrite E in Hin. destruct Hin. }
  rewrite E2. cbn [snd]. eexists. split; [reflexivity |]. split.
  - intros E. apply map_eq_nil in E. rewrite E in E2. discriminate.
  - apply Forall_forall. intros d Hd.
    apply top_selected in Hd as (s & Hd & Hgt). cbn [snd] in Hgt.
    apply in_map_iff in Hd as (d' & E & Hd). injection E as -> <-.
    apply filter_In in Hd as [_ Hd]. unfold has_embedding in Hd.
    destruct (Chunk.embedding d) as [e' |] eqn:Ed; [| discriminate].
    exists e'. auto.
Qed.

Lemma Enhanced_findRelevantChunks_semantic_first_witness :
  exists found,
    snd (Enhanced.findRelevantChunks constantEnv emptyState "c++ pricing strategy")
    = Return found /\
    found <> [].
Proof.
  assert (E : exists c, Enhanced.chunks (Enhanced.initialize constantEnv emptyState) = [c] /\
                        Chunk.embedding c = Some [1; 0]%float)
    by (vm_compute; eexists; split; reflexivity).
  destruct E as (c & Ec & Ee).
  destruct (Enhanced_findRelevantChunks_semantic_first constantEnv emptyState
              "c++ pricing strategy" [1; 0]%float c) as (found & Hf & Hne & _).
  - vm_compute. reflexivity.
  - vm_compute. reflexivity.
  - rewrite Ec. left. reflexivity.
  - exists [1; 0]%float. split; [exact Ee | vm_compute; reflexivity].
  - exists found. split; [exact Hf | exact Hne].
Defined.

(* ================================================================== *)
(** * ai.ts: query expansion, signals and retrieval *)
(* ================================================================== *)

Section Substrings.

Lemma append_assoc_str (a b c : string) : ((a ++ b) ++ c = a ++ (b ++ c))%string.
Proof. induction a as [| x a IH]; cbn; [reflexivity | now rewrite IH]. Qed.

Lemma append_empty_r (a : string) : (a ++ "")%string = a.
Proof. induction a as [| x a IH]; cbn; [reflexivity | now rewrite IH]. Qed.

Lemma startsWith_app (a b : string) : JS.startsWith (a ++ b) a = true.
Proof.
  induction a as [| x a IH]; cbn; [now destruct b |].
  now rewrite Ascii.eqb_refl, IH.
Qed.

Lemma includes_cons (c : ascii) (s k : string) :
  JS.includes s k = true -> JS.includes (String c s) k = true.
Proof. intros H. cbn [JS.includes]. rewrite H. apply orb_true_r. Qed.

Variable sep : ascii.

(** A key without the separator cannot start before a separator and end
    after it. *)
Lemma startsWith_app_sep (k : string) :
  JS.includes k (String sep "") = false ->
  forall a b, JS.startsWith (a ++ String sep b) k = JS.startsWith a k.
Proof.
  induction k as [| c k IH]; intros Hk a b.
  - now destruct a.
  - cbn [JS.includes JS.startsWith] in Hk. apply orb_false_iff in Hk as [Hc Hk].
    destruct a as [| x a]; cbn [String.append JS.startsWith].
    + destruct (Ascii.eqb c sep) eqn:E; [| reflexivity].
      apply Ascii.eqb_eq in E. subst c. rewrite Ascii.eqb_refl in Hc.
      now destruct k.
    + rewrite IH; [reflexivity |].
      destruct k as [| c' k']; [reflexivity | exact Hk].
Qed.

Lemma includes_eq (s k : string) :
  JS.includes s k
  = JS.startsWith s k
    || match s with EmptyString => false | String _ s' => JS.includes s' k end.
Proof. destruct s; reflexivity. Qed.

Lemma includes_app_sep (k : string) :
  JS.includes k (String sep "") = false ->
  forall a b, JS.includes (a ++ String sep b) k = JS.includes a k || JS.includes b k.
Proof.
  intros Hk. induction a as [| x a IH]; intros b.
  - rewrite (includes_eq ("" ++ String sep b)), (includes_eq "").
    rewrite (startsWith_app_sep k Hk "" b). cbn [String.append].
    now rewrite orb_false_r.
  - rewrite (includes_eq (String x a ++ String sep b)), (includes_eq (String x a)).
    rewrite (startsWith_app_sep k Hk (String x a) b). cbn [String.append].
    rewrite IH. now rewrite orb_assoc.
Qed.

End Substrings.

Section Expansion.

(** The loop of [expandQueryTerms] from a text [query ++ suffix] whose suffix
    holds none of the keys still to come: every test sees the query alone. *)
Lemma expand_from (query : string) (entries : list (string * list string)) :
  forallb (fun entry => spaceless (fst entry)) entries = true ->
  no_cascade entries = true ->
  forall suffix,
    forallb (fun entry => negb (JS.includes suffix (fst entry))) entries = true ->
    fold_left Simple.expandStep entries (query ++ String " " suffix)%string
    = (query ++ String " " suffix
         ++ String.concat "" (map expansionOf (triggered query entries)))%string.
Proof.
  induction entries as [| entry rest IH]; intros Hsp Hnc suffix Hsuf.
  - cbn. now rewrite append_empty_r.
  - cbn [forallb no_cascade] in Hsp, Hnc, Hsuf.
    apply andb_true_iff in Hsp as [Hk Hsp]. apply andb_true_iff in Hnc as [Hsyn Hnc].
    apply andb_true_iff in Hsuf as [Hs Hsuf].
    apply negb_true_iff in Hk, Hs.
    cbn [fold_left]. unfold Simple.expandStep at 2, triggered. cbn [filter].
    rewrite (includes_app_sep " " (fst entry) Hk), Hs, orb_false_r.
    fold (triggered query rest).
    destruct (JS.includes query (fst entry)).
    + change (String " " suffix) with (" " ++ suffix)%string at 1.
      rewrite !append_assoc_str. cbn [String.append].
      change (String " " (suffix ++ String " " (JS.join " " (snd entry))))%string
        with (String " " (suffix ++ expansionOf entry))%string.
      rewrite IH; [| assumption | assumption |].
      * cbn [map]. 
        destruct (map expansionOf (triggered query rest)) eqn:Em.
        -- cbn [String.concat]. now rewrite !append_empty_r, ?append_assoc_str.
        -- cbn [String.concat String.append]. now rewrite append_assoc_str.
      * rewrite forallb_forall in *. intros later Hl.
        specialize (Hsyn later Hl). specialize (Hsuf later Hl). specialize (Hsp later Hl).
        apply negb_true_iff in Hsyn, Hsuf, Hsp. apply negb_true_iff.
        unfold expansionOf. cbn [String.append].
        rewrite (includes_app_sep " " (fst later) Hsp), Hsuf, Hsyn.
        reflexivity.
    + rewrite IH; [reflexivity | assumption | assumption | assumption].
Qed.

Lemma expand_from_query (query : string) (entries : list (string * list string)) :
  forallb (fun entry => spaceless (fst entry)) entries = true ->
  no_cascade entries = true ->
  fold_left Simple.expandStep entries query
  = (query ++ String.concat "" (map expansionOf (triggered query entries)))%string.
Proof.
  induction entries as [| entry rest IH]; intros Hsp Hnc.
  - cbn. now rewrite append_empty_r.
  - cbn [fold_left]. unfold Simple.expandStep at 2, triggered. cbn [filter].
    fold (triggered query rest).
    pose proof Hsp as Hsp'. pose proof Hnc as Hnc'.
    cbn [forallb no_cascade] in Hsp', Hnc'.
    apply andb_true_iff in Hsp' as [Hk Hsp']. apply andb_true_iff in Hnc' as [Hsyn Hnc'].
    destruct (JS.includes query (fst entry)); [| now apply IH].
    cbn [String.append].
    rewrite (expand_from query rest Hsp' Hnc' (JS.join " " (snd entry)) Hsyn).
    cbn [map]. unfold expansionOf at 2. cbn [String.append].
    destruct (map expansionOf (triggered query rest)) eqn:Em.
    + cbn [String.concat]. now rewrite !append_empty_r.
    + cbn [String.concat String.append]. reflexivity.
Qed.

End Expansion.

(** X20: query expansion never cascades: the expanded query is the
    lower-cased query followed by the synonyms of exactly those keys that
    occur in the lower-cased query itself, in table order; synonyms appended
    on the way never trigger a further key. *)
Theorem expandQueryTerms_no_cascade (query : string) :
  Simple.expandQueryTerms query
  = (JS.toLowerCase query
       ++ String.concat ""
            (map expansionOf (triggered (JS.toLowerCase query) Simple.expansions)))%string /\
  JS.startsWith (Simple.expandQueryTerms query) (JS.toLowerCase query) = true.
Proof.
  unfold Simple.expandQueryTerms.
  rewrite expand_from_query by (vm_compute; reflexivity).
  split; [reflexivity | apply startsWith_app].
Qed.

Section SimpleSignals.

Lemma fold_left_invariant {A S : Type} (P : S -> Prop) (f : S -> A -> S) (l : list A) :
  (forall s a, P s -> P (f s a)) -> forall s, P s -> P (fold_left f l s).
Proof. intros Hf. induction l as [| a l IH]; intros s Hs; cbn; auto. Qed.

Lemma calculateTopicRelevance_range (queryTopics : list string) (episodeName : string) :
  UnitOrNaN (Simple.calculateTopicRelevance queryTopics episodeName).
Proof.
  destruct SignClear_literals as (H0 & H1 & _).
  unfold Simple.calculateTopicRelevance.
  destruct (List.length queryTopics =? 0); [split; reflexivity |].
  apply Math_min_one_unit, SignClear_div; [| apply SignClear_num].
  apply fold_left_invariant; [| exact H0].
  intros s topic Hs. destruct (JS.includes episodeName topic); [| exact Hs].
  now apply SignClear_add.
Qed.

Lemma calculateKeywordScore_range (queryWords : list string) (text originalQuery : string)
    (score : float) :
  Simple.calculateKeywordScore queryWords text originalQuery = Return score ->
  UnitOrNaN score.
Proof.
  destruct SignClear_literals as (H0 & H1 & H2 & H5 & H10 & H100 & H05 & _).
  unfold Simple.calculateKeywordScore. intros H.
  match type of H with (x <- ?loop ;; _) = _ => destruct loop as [[s n] | |] eqn:E end;
    cbn [bind] in H; try discriminate.
  injection H as <-.
  assert (Hs : SignClear (fst (s, n))).
  { revert E. apply (forEach_invariant (fun st => SignClear (fst st))); [| exact H0].
    intros [acc m] word acc' Hacc Hstep. cbn [fst] in Hacc.
    destruct (Lexical.countMatches text word) as [k | |]; cbn [bind] in Hstep;
      try discriminate.
    destruct (0 <? k); injection Hstep as <-; cbn [fst]; [| exact Hacc].
    apply SignClear_add; [exact Hacc | apply SignClear_num]. }
  cbn [fst] in Hs.
  apply Math_min_one_unit, SignClear_div; [| exact H10].
  assert (Hb : SignClear (if JS.includes text originalQuery then (s + 5)%float else s))
    by (destruct (JS.includes text originalQuery); [apply SignClear_add |]; assumption).
  destruct (_ <? _)%float; [apply SignClear_mul |]; assumption.
Qed.

End SimpleSignals.

(** X19: the topic and keyword signals of the keyword search of [ai.ts] are
    each NaN or between 0 and 1, whatever the words, the text and the episode
    name. *)
Theorem simple_signals_range (words : list string) (text phrase : string) :
  UnitOrNaN (Simple.calculateTopicRelevance words text) /\
  forall score,
    Simple.calculateKeywordScore words text phrase = Return score -> UnitOrNaN score.
Proof.
  split; [apply calculateTopicRelevance_range | apply calculateKeywordScore_range].
Qed.

Section SimpleRetrieval.

Lemma combinedScore_chunk (query : string) (queryWords queryTopics : list string)
    (chunk c : Chunk.t) (s : float) :
  Simple.combinedScore query queryWords queryTopics chunk = Return (c, s) -> c = chunk.
Proof.
  unfold Simple.combinedScore. intros H.
  destruct (Simple.calculateContentRelevance query (Chunk.text chunk)) as [cr | |];
    cbn [bind] in H; try discriminate.
  destruct (Simple.calculateKeywordScore _ _ _) as [ks | |]; cbn [bind] in H;
    try discriminate.
  now injection H as <- _.
Qed.

Lemma Simple_searchByKeywordsEnhanced_spec (chunks found : list Chunk.t) (query : string) :
  Simple.searchByKeywordsEnhanced chunks query = Return found ->
  List.length found <= 3 /\ incl found chunks.
Proof.
  unfold Simple.searchByKeywordsEnhanced. intros H.
  destruct (List.length (Lexical.queryWords (Simple.expandQueryTerms query)) =? 0).
  - injection H as <-. split; [cbn; lia | intros c []].
  - match type of H with (x <- ?m ;; _) = _ => destruct m as [scored | |] eqn:E end;
      cbn [bind] in H; try discriminate.
    return_inj H. subst found. split; [apply top_length |].
    intros c Hc. apply top_selected in Hc as (s & Hc & _).
    apply mapM_Forall2 in E. destruct (Forall2_In_r _ _ _ _ E Hc) as (c' & Hc' & Hk).
    apply combinedScore_chunk in Hk. now subst.
Qed.

End SimpleRetrieval.

(** X18: [findRelevantChunks] of [ai.ts] leaves the state that [initialize]
    leaves; what it returns are at most three chunks of the corpus, and none
    when the system is not ready. *)
Theorem Simple_findRelevantChunks_spec (env : Env) (st : Original.State) (query : string)
    (found : list Chunk.t) :
  snd (Simple.findRelevantChunks env st query) = Return found ->
  let st' := Original.initialize env st in
  fst (Simple.findRelevantChunks env st query) = st' /\
  List.length found <= 3 /\
  incl found (Original.chunks st') /\
  (Original.isReady st' = false -> found = []).
Proof.
  cbv zeta. unfold Simple.findRelevantChunks. cbv zeta.
  destruct (Original.isReady (Original.initialize env st)) eqn:Er; cbn [negb].
  2: { cbn. intros H. injection H as <-.
       repeat apply conj; [reflexivity | cbn; lia | intros c [] | reflexivity]. }
  assert (Hfb : forall found',
             Simple.searchByKeywordsEnhanced (Original.chunks (Original.initialize env st)) query
             = Return found' ->
             List.length found' <= 3 /\
             incl found' (Original.chunks (Original.initialize env st)) /\
             (true = false -> found' = []))
    by (intros found' H; apply Simple_searchByKeywordsEnhanced_spec in H as (H1 & H2);
        repeat apply conj; [assumption | assumption | discriminate]).
  destruct (getEmbedding env (Simple.expandQueryTerms query)) as [q |];
    [| cbn; intros H; split; [reflexivity | auto]].
  destruct (0 <? List.length (filter _ (Original.chunks (Original.initialize env st))));
    [| cbn; intros H; split; [reflexivity | auto]].
  cbn [fst snd]. intros H.
  match type of H with (x <- ?m ;; _) = _ => destruct m as [scored | |] eqn:E end;
    cbn [bind] in H; try discriminate.
  match type of H with (if 0 <? List.length ?l then _ else _) = _ =>
    destruct (0 <? List.length l) end; [| split; [reflexivity | auto]].
  return_inj H. subst found.
  repeat apply conj; [reflexivity | | | discriminate].
  - rewrite length_map. apply length_firstn_le.
  - intros c Hc. apply in_map_iff in Hc as (m & <- & Hm).
    apply (In_firstn 3), (In_firstn 5), In_Array_sort, filter_In in Hm as [Hm _].
    apply mapM_Forall2 in E. destruct (Forall2_In_r _ _ _ _ E Hm) as (c' & Hc' & Hk).
    destruct (Simple.calculateContentRelevance query (Chunk.text c')) as [cr | |];
      cbn [bind] in Hk; try discriminate.
    injection Hk as <-. cbn [Simple.chunk]. now apply filter_In in Hc'.
Qed.

Lemma Simple_findRelevantChunks_spec_witness :
  List.length sampleFound <= 3 /\
  incl sampleFound (Original.chunks (Original.initialize lexicalEnv freshState)).
Proof.
  assert (H : snd (Simple.findRelevantChunks lexicalEnv freshState "raise money")
              = Return sampleFound) by (vm_compute; reflexivity).
  destruct (Simple_findRelevantChunks_spec lexicalEnv freshState "raise money" sampleFound H)
    as (_ & Hlen & Hincl & _).
  split; [exact Hlen | exact Hincl].
Defined.

(* ================================================================== *)
(** * Transcript utilities and episode titles *)
(* ================================================================== *)

Lemma append_length_str (a b : string) :
  String.length (a ++ b)%string = String.length a + String.length b.
Proof. induction a as [| c a IH]; cbn; [reflexivity | now rewrite IH]. Qed.

Section KeyTopics.

Lemma length_sort_insert {A : Type} (cmp : A -> A -> float) (x : A) (l : list A) :
  List.length (sort_insert cmp x l) = S (List.length l).
Proof.
  induction l as [| y l IH]; cbn [sort_insert]; [reflexivity |].
  destruct (JS.gt (cmp x y) 0); cbn [List.length]; [now rewrite IH | reflexivity].
Qed.

Lemma length_Array_sort {A : Type} (cmp : A -> A -> float) (l : list A) :
  List.length (Array_sort cmp l) = List.length l.
Proof.
  induction l as [| x l IH]; cbn [Array_sort]; [reflexivity |].
  rewrite length_sort_insert. cbn. now rewrite IH.
Qed.

(** Every keyword is a well-formed pattern. *)
Lemma businessKeywords_compile : Forall Compiles Transcript.businessKeywords.
Proof.
  apply Forall_forall. intros k Hk.
  assert (H : forallb (fun k => match RegExp.RegExp_new k with
                                | RegExp.Compiled _ => true
                                | _ => false
                                end) Transcript.businessKeywords = true)
    by (vm_compute; reflexivity).
  rewrite forallb_forall in H. specialize (H k Hk). unfold Compiles.
  destruct (RegExp.RegExp_new k) as [r | |]; try discriminate. now exists r.
Qed.

Lemma businessKeywords_NoDup : NoDup Transcript.businessKeywords.
Proof.
  apply (NoDup_count_occ' string_dec). intros k Hk.
  repeat (destruct Hk as [<- | Hk]; [vm_compute; reflexivity |]). destruct Hk.
Qed.

(** Counting well-formed keywords returns one count per keyword, in
    order. *)
Lemma topicCounts_returns (lowerTranscript : string) (topics : list string) :
  Forall Compiles topics ->
  exists counts,
    Transcript.topicCounts lowerTranscript topics = Return counts /\
    map fst counts = topics.
Proof.
  unfold Transcript.topicCounts.
  induction 1 as [| t topics [r Hr] _ (counts & IH & Hmap)]; cbn [mapM].
  - now exists [].
  - unfold Lexical.countMatches at 1. rewrite Hr. cbn [bind]. rewrite IH. cbn [bind].
    eexists. split; [reflexivity |]. cbn. now rewrite Hmap.
Qed.

End KeyTopics.

(** X21: [extractKeyTopics] returns for every transcript: at most eight
    topics, none twice, each a keyword of the table that occurs in the
    lower-cased transcript; it returns all such keywords when there are at
    most eight. *)
Theorem extractKeyTopics_spec (transcript : string) :
  let found := filter (fun keyword => JS.includes (JS.toLowerCase transcript) keyword)
                      Transcript.businessKeywords in
  exists topics,
    Transcript.extractKeyTopics transcript = Return topics /\
    List.length topics = Nat.min 8 (List.length found) /\
    NoDup topics /\
    incl topics found.
Proof.
  cbv zeta. unfold Transcript.extractKeyTopics.
  set (lower := JS.toLowerCase transcript).
  set (found := filter _ Transcript.businessKeywords).
  assert (Hc : Forall Compiles found).
  { apply Forall_forall. intros k Hk. apply filter_In in Hk as [Hk _].
    pose proof businessKeywords_compile as H. rewrite Forall_forall in H. now apply H. }
  destruct (topicCounts_returns lower found Hc) as (counts & -> & Hmap). cbn [bind].
  eexists. split; [reflexivity |]. repeat apply conj.
  - now rewrite length_map, length_firstn, length_Array_sort, <- Hmap, length_map.
  - apply NoDup_map_firstn, NoDup_map_Array_sort. rewrite Hmap.
    apply NoDup_filter, businessKeywords_NoDup.
  - intros t Ht. apply in_map_iff in Ht as (e & <- & He).
    apply In_firstn, In_Array_sort in He. rewrite <- Hmap. now apply in_map.
Qed.

(** X22: [generateSummary] answers with the fixed sentence when no sentence
    of the transcript keeps more than 20 characters; otherwise it joins the
    first three and the last two sentences and returns that text as it is
    when it is shorter than [maxLength], and its first [maxLength] characters
    followed by an ellipsis when it is not, so at most [maxLength + 3]
    characters; a transcript of one sentence yields that sentence twice. *)
Theorem generateSummary_spec (transcript : string) (maxLength : nat) :
  let sentences :=
    filter (fun s => 20 <? String.length (JS.trim s))
           (RegExp.split false Enhanced.sentenceEnd transcript) in
  let joined := JS.join ". " (firstn 3 sentences ++ Transcript.slice_last sentences 2) in
  (sentences = [] ->
   Transcript.generateSummary transcript maxLength = "No summary available.") /\
  (sentences <> [] ->
   Transcript.generateSummary transcript maxLength
   = (if String.length joined <? maxLength then joined
      else (JS.take maxLength joined ++ "...")%string) /\
   String.length (Transcript.generateSummary transcript maxLength) <= maxLength + 3) /\
  (forall s, sentences = [s] -> joined = (s ++ ". " ++ s)%string).
Proof.
  cbv zeta. unfold Transcript.generateSummary.
  set (sentences := filter _ _).
  set (joined := JS.join ". " _).
  repeat apply conj.
  - intros ->. reflexivity.
  - intros Hne.
    assert (E0 : (List.length sentences =? 0) = false)
      by (destruct sentences; [congruence | reflexivity]).
    rewrite E0, take_length_min.
    assert (Hcut : String.append (JS.take maxLength joined)
                      (if Nat.min maxLength (String.length joined) =? maxLength
                       then "..." else "")
                   = if String.length joined <? maxLength then joined
                     else (JS.take maxLength joined ++ "...")%string).
    { destruct (String.length joined <? maxLength) eqn:El.
      - apply Nat.ltb_lt in El. rewrite take_all by lia.
        replace (Nat.min maxLength (String.length joined) =? maxLength) with false
          by (symmetry; apply Nat.eqb_neq; lia).
        apply append_empty_r.
      - apply Nat.ltb_ge in El.
        replace (Nat.min maxLength (String.length joined) =? maxLength) with true
          by (symmetry; apply Nat.eqb_eq; lia).
        reflexivity. }
    split; [exact Hcut |].
    rewrite append_length_str.
    pose proof (take_length maxLength joined).
    destruct (Nat.min maxLength (String.length joined) =? maxLength);
      cbn [String.length]; lia.
  - intros s E. unfold joined. rewrite E. reflexivity.
Qed.

Lemma generateSummary_spec_witness :
  String.length (Transcript.generateSummary sampleParagraph1 50) <= 53.
Proof.
  refine (proj2 (proj1 (proj2 (generateSummary_spec sampleParagraph1 50)) _)).
  vm_compute. discriminate.
Defined.

Section EpisodeTitles.

Lemma spaceOut_length (s : string) :
  String.length (Enhanced.spaceOut s) = String.length s.
Proof. induction s as [| c s IH]; cbn; [reflexivity | now rewrite IH]. Qed.

Lemma capitalizeWords_length (s : string) :
  forall afterWord, String.length (Enhanced.capitalizeWords afterWord s) = String.length s.
Proof. induction s as [| c s IH]; intros a; cbn; [reflexivity | now rewrite IH]. Qed.

(** A code unit that is neither a hyphen nor an underscore. *)
Let plain (c : ascii) : bool := negb (Ascii.eqb c "-" || Ascii.eqb c "_").

Lemma plain_spaced (c : ascii) :
  plain (if Ascii.eqb c "-" || Ascii.eqb c "_" then " "%char else c) = true.
Proof. destruct c as [[] [] [] [] [] [] [] []]; vm_compute; reflexivity. Qed.

Lemma spaced_plain (c : ascii) :
  plain c = true -> (if Ascii.eqb c "-" || Ascii.eqb c "_" then " "%char else c) = c.
Proof. unfold plain. now destruct (Ascii.eqb c "-" || Ascii.eqb c "_"). Qed.

Lemma plain_capital (c : ascii) (afterWord : bool) :
  plain c = true ->
  plain (if Enhanced.is_word c && negb afterWord then JS.canonicalize c else c) = true.
Proof.
  destruct afterWord; destruct c as [[] [] [] [] [] [] [] []]; vm_compute;
    try reflexivity; discriminate.
Qed.

Lemma capital_again (c : ascii) (afterWord : bool) :
  let c' := if Enhanced.is_word c && negb afterWord then JS.canonicalize c else c in
  Enhanced.is_word c' = Enhanced.is_word c /\
  (if Enhanced.is_word c' && negb afterWord then JS.canonicalize c' else c') = c'.
Proof.
  destruct afterWord; destruct c as [[] [] [] [] [] [] [] []]; vm_compute;
    split; reflexivity.
Qed.

Fixpoint all_plain (s : string) : bool :=
  match s with
  | EmptyString => true
  | String c s' => plain c && all_plain s'
  end.

Lemma spaceOut_plain (s : string) : all_plain (Enhanced.spaceOut s) = true.
Proof.
  induction s as [| c s IH]; cbn [Enhanced.spaceOut all_plain]; [reflexivity |].
  now rewrite plain_spaced, IH.
Qed.

Lemma spaceOut_of_plain (s : string) : all_plain s = true -> Enhanced.spaceOut s = s.
Proof.
  induction s as [| c s IH]; cbn [Enhanced.spaceOut all_plain]; [reflexivity |].
  intros H. apply andb_true_iff in H as [Hc Hs]. now rewrite (spaced_plain c Hc), IH.
Qed.

Lemma capitalizeWords_plain (s : string) :
  forall afterWord, all_plain s = true ->
                    all_plain (Enhanced.capitalizeWords afterWord s) = true.
Proof.
  induction s as [| c s IH]; intros a; cbn [Enhanced.capitalizeWords all_plain];
    [reflexivity |].
  intros H. apply andb_true_iff in H as [Hc Hs]. now rewrite plain_capital, IH.
Qed.

Lemma capitalizeWords_idempotent (s : string) :
  forall afterWord,
    Enhanced.capitalizeWords afterWord (Enhanced.capitalizeWords afterWord s)
    = Enhanced.capitalizeWords afterWord s.
Proof.
  induction s as [| c s IH]; intros a; cbn [Enhanced.capitalizeWords]; [reflexivity |].
  destruct (capital_again c a) as [Hw Hc]. cbv zeta in Hw, Hc.
  rewrite Hc, Hw, IH. reflexivity.
Qed.

Lemma all_plain_includes (s : string) :
  all_plain s = true -> JS.includes s "-" = false /\ JS.includes s "_" = false.
Proof.
  induction s as [| c s IH]; [split; reflexivity |].
  cbn [all_plain]. intros H. apply andb_true_iff in H as [Hc Hs].
  destruct (IH Hs) as [H1 H2]. rewrite (includes_eq (String c s)), (includes_eq (String c s)).
  rewrite H1, H2. cbn [JS.startsWith]. unfold plain in Hc.
  apply negb_true_iff, orb_false_iff in Hc as [Hh Hu].
  rewrite (Ascii.eqb_sym "-" c), (Ascii.eqb_sym "_" c), Hh, Hu. split; reflexivity.
Qed.

End EpisodeTitles.

(** X23: [formatEpisodeTitle] keeps the length of the episode name, leaves
    no hyphen and no underscore in it, and formatting a formatted title
    changes nothing. *)
Theorem formatEpisodeTitle_spec (episodeName : string) :
  let title := Enhanced.formatEpisodeTitle episodeName in
  String.length title = String.length episodeName /\
  JS.includes title "-" = false /\
  JS.includes title "_" = false /\
  Enhanced.formatEpisodeTitle title = title.
Proof.
  cbv zeta. unfold Enhanced.formatEpisodeTitle.
  assert (Hp : all_plain (Enhanced.capitalizeWords false (Enhanced.spaceOut episodeName)) = true)
    by apply capitalizeWords_plain, spaceOut_plain.
  destruct (all_plain_includes _ Hp) as [H1 H2].
  repeat apply conj; try assumption.
  - now rewrite capitalizeWords_length, spaceOut_length.
  - rewrite (spaceOut_of_plain _ Hp). apply capitalizeWords_idempotent.
Qed.

(* ================================================================== *)
(** * Further properties of the retrieval stages *)
(* ================================================================== *)

(** X24: the keyword searches of both files return at most three chunks, all
    of the corpus; with no token (for [ai.ts]: none in the expanded query)
    they return the empty list before any pattern is compiled. *)
Theorem keyword_search_spec (chunks : list Chunk.t) (query : string) :
  (forall found,
     Enhanced.searchByKeywordsEnhanced chunks query = Return found ->
     List.length found <= 3 /\ incl found chunks) /\
  (forall found,
     Simple.searchByKeywordsEnhanced chunks query = Return found ->
     List.length found <= 3 /\ incl found chunks) /\
  (Lexical.queryWords query = [] ->
   Enhanced.searchByKeywordsEnhanced chunks query = Return []) /\
  (Lexical.queryWords (Simple.expandQueryTerms query) = [] ->
   Simple.searchByKeywordsEnhanced chunks query = Return []).
Proof.
  repeat apply conj.
  - intros found H. apply Enhanced_searchByKeywordsEnhanced_spec in H as (H1 & H2 & _). auto.
  - intros found H. now apply Simple_searchByKeywordsEnhanced_spec in H.
  - intros H. unfold Enhanced.searchByKeywordsEnhanced. now rewrite H.
  - intros H. unfold Simple.searchByKeywordsEnhanced. now rewrite H.
Qed.

Lemma keyword_search_spec_witness :
  Enhanced.searchByKeywordsEnhanced sevenChunks "to be or no" = Return [].
Proof.
  apply (proj1 (proj2 (proj2 (keyword_search_spec sevenChunks "to be or no")))).
  vm_compute. reflexivity.
Defined.

Section FusedBound.

Lemma fold_rememberFirst_length (l : list EnhancedChunk.t) :
  forall m, List.length (fold_left Enhanced.rememberFirst l m) <= List.length m + List.length l.
Proof.
  induction l as [| c l IH]; intros m; cbn [fold_left List.length]; [lia |].
  specialize (IH (Enhanced.rememberFirst m c)).
  unfold Enhanced.rememberFirst, Enhanced.map_set_new in *.
  destruct (negb _); [rewrite length_app in IH; cbn [List.length] in IH |]; lia.
Qed.

Lemma uniqueCandidates_length (l : list EnhancedChunk.t) :
  List.length (Enhanced.uniqueCandidates l) <= List.length l.
Proof.
  unfold Enhanced.uniqueCandidates. rewrite length_map.
  pose proof (fold_rememberFirst_length l []). cbn [List.length] in *. lia.
Qed.

Lemma semanticStage_length (chunks : list EnhancedChunk.t) (queryEmbedding : option vector) :
  List.length (Enhanced.semanticStage chunks queryEmbedding)
  <= match queryEmbedding with Some _ => 10 | None => 0 end.
Proof.
  unfold Enhanced.semanticStage. destruct queryEmbedding; [| cbn; lia].
  rewrite length_map. apply length_firstn_le.
Qed.

End FusedBound.

(** X25: at most 18 candidates reach the scoring loop, at most eight when
    the query has no embedding; they have pairwise distinct ids, and all of
    them passed the topic filter. *)
Theorem fused_candidates_bound (corpus fused : list EnhancedChunk.t) (query : string)
    (queryEmbedding : option vector) :
  Enhanced.fusedCandidates corpus query queryEmbedding = Return fused ->
  List.length fused <= match queryEmbedding with Some _ => 18 | None => 8 end /\
  NoDup (map Enhanced.chunkKey fused) /\
  incl fused (Enhanced.topicFilter corpus query).
Proof.
  intros H. repeat apply conj.
  - unfold Enhanced.fusedCandidates in H.
    destruct (Enhanced.enhancedKeywordSearch query _) as [found | |] eqn:Ek;
      cbn [bind] in H; try discriminate.
    injection H as <-. apply enhancedKeywordSearch_length in Ek.
    pose proof (uniqueCandidates_length
                  (Enhanced.semanticStage (Enhanced.topicFilter corpus query) queryEmbedding
                     ++ found)) as Hu.
    pose proof (semanticStage_length (Enhanced.topicFilter corpus query) queryEmbedding) as Hs.
    rewrite length_app in Hu. destruct queryEmbedding; lia.
  - unfold Enhanced.fusedCandidates in H.
    destruct (Enhanced.enhancedKeywordSearch query _) as [found | |];
      cbn [bind] in H; try discriminate.
    injection H as <-. apply uniqueCandidates_NoDup.
  - intros c Hc. now apply (fusedCandidates_spec _ _ _ _ _ H) in Hc as [Hc _].
Qed.

Lemma fused_candidates_bound_witness :
  exists fused,
    Enhanced.fusedCandidates lexicalCorpus "raise money" None = Return fused /\
    List.length fused <= 8.
Proof.
  assert (E : exists fused,
             Enhanced.fusedCandidates lexicalCorpus "raise money" None = Return fused)
    by (vm_compute; eexists; reflexivity).
  destruct E as [fused E].
  destruct (fused_candidates_bound lexicalCorpus fused "raise money" None E) as (Hlen & _).
  exists fused. split; [exact E | exact Hlen].
Defined.

Section StatusCounts.

Lemma filter_length_le {A : Type} (p : A -> bool) (l : list A) :
  List.length (filter p l) <= List.length l.
Proof. induction l as [| x l IH]; cbn; [lia |]. destruct (p x); cbn; lia. Qed.

Lemma filter_none (l : list Chunk.t) :
  Forall (fun c => Chunk.embedding c = None) l ->
  filter (has_embedding Chunk.embedding) l = [].
Proof.
  induction 1 as [| c l Hc _ IH]; cbn [filter]; [reflexivity |].
  unfold has_embedding at 1. now rewrite Hc.
Qed.

Lemma embedded_among_first (n : nat) (l : list Chunk.t) :
  Forall (fun c => Chunk.embedding c = None) (skipn n l) ->
  List.length (filter (has_embedding Chunk.embedding) l) <= n.
Proof.
  intros H. rewrite <- (firstn_skipn n l), filter_app, length_app, (filter_none _ H).
  pose proof (filter_length_le (has_embedding Chunk.embedding) (firstn n l)).
  pose proof (length_firstn_le n l). cbn [List.length]. lia.
Qed.

End StatusCounts.

(** X26: a status snapshot never reports more embedded chunks than chunks,
    in either corpus, and lists topics only when the enhanced system is
    ready; on a process whose original corpus was built by this call or is
    still empty it reports at most 50 embedded chunks. *)
Theorem status_counts (env : Env) (st : Enhanced.State) :
  let status := snd (Enhanced.getSystemStatus env st) in
  Enhanced.embeddedChunks status <= Enhanced.totalChunks status /\
  Enhanced.enhancedEmbeddedChunks status <= Enhanced.enhancedChunksCount status /\
  (Enhanced.isEnhancedReady st = false -> Enhanced.availableTopics status = []) /\
  (Enhanced.chunks st = [] -> Enhanced.isReady st = false ->
   truthy (Enhanced.initError st) = false ->
   Enhanced.embeddedChunks status <= 50).
Proof.
  cbv zeta. cbn [snd Enhanced.getSystemStatus Enhanced.embeddedChunks Enhanced.totalChunks
                 Enhanced.enhancedEmbeddedChunks Enhanced.enhancedChunksCount
                 Enhanced.availableTopics].
  repeat apply conj.
  - apply filter_length_le.
  - apply filter_length_le.
  - intros H. unfold Enhanced.initialize. cbn [Enhanced.isEnhancedReady]. now rewrite H.
  - intros Hc Hr He. apply embedded_among_first.
    unfold Enhanced.initialize. cbn [Enhanced.chunks].
    apply initialize_unembedded_tail; cbn; assumption.
Qed.

Lemma status_counts_witness :
  Enhanced.embeddedChunks (snd (Enhanced.getSystemStatus constantEnv emptyState)) <= 50.
Proof.
  apply (proj2 (proj2 (proj2 (status_counts constantEnv emptyState)))); reflexivity.
Defined.

(* ================================================================== *)
(** * Cosine similarity is symmetric *)
(* ================================================================== *)

Section CosineSymmetry.

Lemma mul_comm_float (x y : float) : (x * y)%float = (y * x)%float.
Proof.
  apply Prim2SF_inj. rewrite !mul_spec.
  destruct (Prim2SF x) as [sx | sx | | sx mx ex], (Prim2SF y) as [sy | sy | | sy my ey];
    cbn [SF64mul SFmul]; rewrite ?(xorb_comm sy sx); try reflexivity.
  now rewrite (Pos.mul_comm my mx), (Z.add_comm ey ex).
Qed.

Lemma accumulate_exchanged (a : vector) :
  forall (b : vector) (acc : float * float * float),
    accumulate float PrimFloat.add PrimFloat.mul b a (exchanged acc)
    = exchanged (accumulate float PrimFloat.add PrimFloat.mul a b acc).
Proof.
  induction a as [| x a IH]; intros [| y b] [[dot magA] magB];
    cbn [accumulate exchanged]; try reflexivity.
  rewrite (mul_comm_float y x). apply (IH b (_, _, _)).
Qed.

Lemma similarity_body_sym (a b : vector) :
  similarity_body float 0%float PrimFloat.add PrimFloat.mul PrimFloat.div JS.Math_sqrt JS.gt b a
  = similarity_body float 0%float PrimFloat.add PrimFloat.mul PrimFloat.div JS.Math_sqrt JS.gt a b.
Proof.
  unfold similarity_body.
  change (0%float, 0%float, 0%float) with (exchanged (0%float, 0%float, 0%float)) at 1.
  rewrite accumulate_exchanged.
  destruct (accumulate float PrimFloat.add PrimFloat.mul a b _) as [[dot magA] magB].
  cbn [exchanged]. now rewrite (mul_comm_float magB magA).
Qed.

End CosineSymmetry.

(** X27: the similarity functions of both files are symmetric in their two
    vectors, bit for bit. *)
Theorem cosine_similarity_symmetric (a b : option vector) :
  Enhanced.similarity a b = Enhanced.similarity b a /\
  Enhanced.cosineSimilarity a b = Enhanced.cosineSimilarity b a /\
  Simple.similarity a b = Simple.similarity b a.
Proof.
  assert (Hs : Enhanced.similarity a b = Enhanced.similarity b a).
  { unfold Enhanced.similarity, similarity_gen.
    destruct a as [a |], b as [b |]; try reflexivity.
    rewrite (Nat.eqb_sym (List.length b)).
    destruct (negb _); [reflexivity | symmetry; apply similarity_body_sym]. }
  repeat apply conj; [exact Hs | | exact Hs].
  unfold Enhanced.cosineSimilarity, cosineSimilarity_gen.
  destruct a as [a |], b as [b |]; try reflexivity.
  rewrite (Nat.eqb_sym (List.length b)).
  destruct (List.length a =? List.length b) eqn:E; cbn [negb orb]; [| reflexivity].
  apply Nat.eqb_eq in E. rewrite E.
  destruct (List.length b =? 0); [reflexivity | symmetry; apply similarity_body_sym].
Qed.

(* ================================================================== *)
(** * Unit ids *)
(* ================================================================== *)

Section UnitIds.

Lemma no_hyphen_digits (d : Decimal.uint) : no_hyphen (NilEmpty.string_of_uint d) = true.
Proof. induction d; cbn [NilEmpty.string_of_uint no_hyphen]; try rewrite IHd; reflexivity. Qed.

Lemma no_hyphen_nat_to_string (n : nat) : no_hyphen (JS.nat_to_string n) = true.
Proof.
  unfold JS.nat_to_string, NilZero.string_of_uint.
  destruct (Nat.to_uint n) eqn:E; try reflexivity; rewrite <- E at 1;
    rewrite E; apply no_hyphen_digits.
Qed.

Lemma no_hyphen_app (a b : string) : no_hyphen (a ++ String "-" b) = false.
Proof. induction a as [| c a IH]; cbn; [reflexivity | rewrite IH; apply andb_false_r]. Qed.

(** A name, a hyphen and a text without hyphen can be taken apart in one way
    only. *)
Lemma hyphenated_inj (e1 e2 d1 d2 : string) :
  no_hyphen d1 = true -> no_hyphen d2 = true ->
  (e1 ++ String "-" d1 = e2 ++ String "-" d2)%string -> e1 = e2 /\ d1 = d2.
Proof.
  intros H1 H2. revert e2. induction e1 as [| c e1 IH]; intros [| c' e2] E;
    cbn [String.append] in E.
  - injection E as E. auto.
  - injection E as _ E. rewrite E, no_hyphen_app in H1. discriminate.
  - injection E as _ E. rewrite <- E, no_hyphen_app in H2. discriminate.
  - injection E as -> E. destruct (IH e2 E) as [-> ->]. auto.
Qed.

Lemma nat_to_string_inj (n m : nat) : JS.nat_to_string n = JS.nat_to_string m -> n = m.
Proof.
  assert (H : forall k, option_map Nat.of_uint (NilZero.uint_of_string (JS.nat_to_string k))
                        = Some k).
  { intros k. unfold JS.nat_to_string.
    destruct (NilZero.usu_gen (Nat.to_uint k)) as [-> | E].
    - cbn. now rewrite DecimalNat.Unsigned.of_to.
    - pose proof (DecimalNat.Unsigned.of_to k) as Hk.
      destruct (Nat.to_uint k) eqn:Eu;
        try (rewrite NilZero.usu in E by discriminate; injection E as E;
             rewrite E in Hk |- *; cbn in *; now rewrite <- Hk).
      cbn in *. now rewrite <- Hk. }
  intros E. pose proof (H n) as Hn. rewrite E, H in Hn. now injection Hn.
Qed.

End UnitIds.

(** X28: the unit id determines the episode and the index: two chunks with
    the same id are filed under the same episode with the same index, so
    fusion never merges chunks of different units. *)
Theorem chunkKey_injective (c d : EnhancedChunk.t) :
  Enhanced.chunkKey c = Enhanced.chunkKey d ->
  EnhancedChunk.episode c = EnhancedChunk.episode d /\
  EnhancedChunk.index c = EnhancedChunk.index d.
Proof.
  unfold Enhanced.chunkKey. cbn [String.append]. intros E.
  apply hyphenated_inj in E as [He Hi]; try apply no_hyphen_nat_to_string.
  split; [exact He | now apply nat_to_string_inj].
Qed.

Lemma chunkKey_injective_witness :
  Forall2 (fun c d => EnhancedChunk.episode c = EnhancedChunk.episode d /\
                      EnhancedChunk.index c = EnhancedChunk.index d)
          lexicalCorpus embeddedCorpus.
Proof.
  assert (E : exists c1 c2 d1 d2,
             lexicalCorpus = [c1; c2] /\ embeddedCorpus = [d1; d2] /\
             Enhanced.chunkKey c1 = Enhanced.chunkKey d1 /\
             Enhanced.chunkKey c2 = Enhanced.chunkKey d2)
    by (vm_compute; do 4 eexists; repeat apply conj; reflexivity).
  destruct E as (c1 & c2 & d1 & d2 & -> & -> & E1 & E2).
  constructor; [exact (chunkKey_injective c1 d1 E1) |].
  constructor; [exact (chunkKey_injective c2 d2 E2) | constructor].
Defined.

(* ================================================================== *)
(** * Explanations and fixed-width cuts *)
(* ================================================================== *)

(** X29: the explanation of a match is never empty, and it is the fallback
    ["General relevance"] exactly when the chunk shares no topic with the
    query, none of the query's tokens occurs in its text and the score is
    not above 0.7. *)
Theorem explainMatch_spec (query : string) (chunk : EnhancedChunk.t) (score : float) :
  let matchingTopics :=
    filter (fun topic => includes_str (Enhanced.extractTopics query) topic)
           (EnhancedChunk.topics chunk) in
  let keywordMatches := Enhanced.findKeywordMatches query (EnhancedChunk.text chunk) in
  Enhanced.explainMatch query chunk score <> "" /\
  (Enhanced.explainMatch query chunk score = "General relevance" <->
   matchingTopics = [] /\ keywordMatches = [] /\ JS.gt score 0.7 = false).
Proof.
  cbv zeta. unfold Enhanced.explainMatch.
  set (matching := filter _ (EnhancedChunk.topics chunk)).
  set (found := Enhanced.findKeywordMatches query (EnhancedChunk.text chunk)).
  assert (Ht : (if 0 <? List.length (EnhancedChunk.topics chunk)
                then if 0 <? List.length matching
                     then [] ++ [("Topic match: " ++ JS.join ", " matching)%string]
                     else []
                else [])
               = if 0 <? List.length matching
                 then [("Topic match: " ++ JS.join ", " matching)%string] else []).
  { destruct (EnhancedChunk.topics chunk) eqn:E; [| reflexivity].
    subst matching. rewrite ?E. reflexivity. }
  rewrite Ht. clear Ht.
  destruct matching as [| t ts], found as [| w ws], (JS.gt score 0.7);
    cbn [List.length Nat.ltb Nat.leb app JS.join String.append];
    (split; [discriminate |]);
    (split; [intros E; try discriminate E; auto | intros (E1 & E2 & E3); try discriminate;
                                                   try reflexivity]).
Qed.

Section FixedWidthCuts.

Variable content episode : string.

Lemma fixedWidthLoop_cuts (fuel : nat) :
  forall k chunkIndex,
    Forall (fun c => exists j,
                k <= j /\ 500 * j < String.length content /\
                Chunk.text c = JS.trim (JS.slice content (500 * j) (500 * j + 500)))
           (Original.fixedWidthLoop fuel content episode (500 * k) chunkIndex).
Proof.
  induction fuel as [| fuel IH]; intros k chunkIndex; cbn [Original.fixedWidthLoop];
    [constructor |].
  destruct (500 * k <? String.length content) eqn:E; [| constructor].
  apply Nat.ltb_lt in E.
  replace (500 * k + 500) with (500 * S k) by lia.
  assert (Hrest : forall idx,
             Forall (fun c => exists j,
                         k <= j /\ 500 * j < String.length content /\
                         Chunk.text c = JS.trim (JS.slice content (500 * j) (500 * j + 500)))
                    (Original.fixedWidthLoop fuel content episode (500 * S k) idx)).
  { intros idx. eapply Forall_impl; [| apply IH].
    intros c (j & Hj & Hlt & Ht). exists j. repeat split; try assumption. lia. }
  destruct (50 <? _); [| apply Hrest].
  constructor; [| apply Hrest].
  exists k. cbn [Chunk.text]. replace (500 * k + 500) with (500 * S k) by lia.
  repeat split; [lia | assumption].
Qed.

Lemma fixedWidthLoop_count (fuel : nat) :
  forall i chunkIndex,
    500 * List.length (Original.fixedWidthLoop fuel content episode i chunkIndex)
    <= String.length content - i + 499.
Proof.
  induction fuel as [| fuel IH]; intros i chunkIndex; cbn [Original.fixedWidthLoop];
    [cbn; lia |].
  destruct (i <? String.length content) eqn:E; [| cbn; lia].
  apply Nat.ltb_lt in E.
  destruct (50 <? _).
  - cbn [List.length]. specialize (IH (i + 500) (S chunkIndex)). lia.
  - specialize (IH (i + 500) chunkIndex). lia.
Qed.

End FixedWidthCuts.

(** X30: the fixed-width chunker cuts at multiples of 500 characters: every
    chunk's text is the trimmed slice of the transcript that starts at such
    an offset, and a transcript of [n] characters gives at most [n / 500]
    chunks, rounded up. *)
Theorem fixedWidthChunks_cuts (content episode : string) :
  let chunks := Original.fixedWidthChunks content episode in
  Forall (fun c => exists j,
              500 * j < String.length content /\
              Chunk.text c = JS.trim (JS.slice content (500 * j) (500 * j + 500)))
         chunks /\
  List.length chunks <= (String.length content + 499) / 500.
Proof.
  cbv zeta. unfold Original.fixedWidthChunks. split.
  - eapply Forall_impl; [| apply (fixedWidthLoop_cuts content episode _ 0 0)].
    intros c (j & _ & H). now exists j.
  - pose proof (fixedWidthLoop_count content episode (String.length content) 0 0) as H.
    apply Nat.div_le_lower_bound; lia.
Qed.
